(** * Interval scheduling: the exact dynamic program, the ant-colony search
      and the greedy baseline

    A shallow embedding of [dynamic_scheduler.py], [ant_colony_scheduler.py],
    [greedy_scheduler.py], [models.py] and [process_dataset.py], followed by
    the properties of the specification that concern them and by further
    properties of the code.

    Numbers.  The Python code computes with floats; here every float is an
    exact rational ([Q]), compared with [Qle_bool], and the operations are
    exact.  Where rounding decides a property, in the sums of the dynamic
    program, the program is given a second time with the float addition
    and multiplication as parameters, and the addition of doubles is
    defined for it (Part IV).  The float power [x ** y] is a parameter
    [pow] of the development: the general theorems hold for every such
    operation.  So are the functions of [math] and the parsers of strings.

    Float errors.  The operations are total: the [OverflowError] and
    [ZeroDivisionError] of [**], the values [inf] and [nan] and the
    [ValueError] of a [math] function on them have no counterpart here.  A
    theorem that states that a call returns is about the runs free of
    them.

    Randomness.  The module-level generator of [random] is an explicit
    stream of raw words threaded through the ant-colony code.

    Loops.  A [while] loop takes a fuel argument and yields [Diverges] when
    the fuel is used up before the loop exits. *)

From Stdlib Require Import QArith Qabs Qround Qpower Lqa ZArith Lia.
From stdpp Require Import gmap list sorting strings.

(* ===================================================================== *)
(** * Part I: the embedding                                                *)
(* ===================================================================== *)

(** ** models.py: [Observation] *)

Record Observation := mkObs {
  oid : string;
  start : Q;
  end_ : Q;
  duration : Q;
  ra : Q;
  dec : Q;
  weight : Q
}.

#[export] Instance Observation_inhabited : Inhabited Observation :=
  populate (mkObs "" 0 0 0 0 0 0).
#[export] Instance Q_inhabited : Inhabited Q := populate 0%Q.

(** ** Float comparisons and builtins *)

(** [x < y] on floats. *)
Definition Qltb (x y : Q) : bool := negb (Qle_bool y x).

(** Python's [max(a, b)]: the first argument unless the second is larger. *)
Definition pymax (a b : Q) : Q := if Qltb a b then b else a.

(** Python's [sum(xs)]: left to right, from 0. *)
Definition pysum (xs : list Q) : Q := foldl Qplus 0%Q xs.

(** ** Outcomes of a call *)

Inductive exn : Set := IndexError.

Inductive outcome (A : Type) :=
| Returns (a : A)
| Raises (e : exn)
| Diverges.
Arguments Returns {A} a.
Arguments Raises {A} e.
Arguments Diverges {A}.

Definition obind {A B} (m : outcome A) (k : A -> outcome B) : outcome B :=
  match m with
  | Returns a => k a
  | Raises e => Raises e
  | Diverges => Diverges
  end.

(** [l[i]] on an argument of the caller: out of range raises. *)
Definition index {A} (l : list A) (i : nat) : outcome A :=
  match l !! i with
  | Some x => Returns x
  | None => Raises IndexError
  end.

(** ** The random source *)

(** The generator state: the raw words still to be drawn. *)
Definition Rng := nat -> Z.

Definition rng_tail (g : Rng) : Rng := fun k => g (S k).

(** [random.random()]: a multiple of 2^-53 in [0, 1). *)
Definition random_random (g : Rng) : Q * Rng :=
  (Qmake (g 0%nat mod 2 ^ 53)%Z (2 ^ 53)%positive, rng_tail g).

(** [random.randrange(n)], for [n > 0]: an integer in [0, n). *)
Definition randrange (n : nat) (g : Rng) : nat * Rng :=
  (Z.to_nat (g 0%nat mod Z.of_nat n), rng_tail g).

(** Computations that draw random numbers and may raise or diverge. *)
Definition Rand (A : Type) : Type := Rng -> outcome (A * Rng).

Definition rret {A} (a : A) : Rand A := fun g => Returns (a, g).

Definition rbind {A B} (m : Rand A) (k : A -> Rand B) : Rand B :=
  fun g => obind (m g) (fun '(a, g') => k a g').

Notation "'let!' x ':=' m 'in' k" := (rbind m (fun x => k))
  (at level 10, x pattern, m at level 100, k at level 200).

(** ** Sorting: [sorted] and [list.sort] are stable *)

Section Sort.
Context {A : Type} (before : A -> A -> bool).

(** [x] is placed in front of the first element it may precede. *)
Fixpoint insert_sorted (x : A) (l : list A) : list A :=
  match l with
  | [] => [x]
  | y :: l' => if before x y then x :: l else y :: insert_sorted x l'
  end.

Definition stable_sort (l : list A) : list A := foldr insert_sorted [] l.
End Sort.

(** [sorted(l, key=key)]. *)
Definition sorted_by_key {A} (key : A -> Q) (l : list A) : list A :=
  stable_sort (fun x y => Qle_bool (key x) (key y)) l.

(** [sorted(l, key=key, reverse=True)]. *)
Definition sorted_by_key_reverse {A} (key : A -> Q) (l : list A) : list A :=
  stable_sort (fun x y => Qle_bool (key y) (key x)) l.

(** [<] on tuples [(float, int)]: the first components decide unless they
    are equal. *)
Definition tuple_lt (a b : Q * nat) : bool :=
  if Qeq_bool a.1 b.1 then a.2 <? b.2 else Qltb a.1 b.1.

(** [cand.sort(reverse=True)] on a list of such tuples. *)
Definition sort_reverse (cand : list (Q * nat)) : list (Q * nat) :=
  stable_sort (fun x y => negb (tuple_lt x y)) cand.

(** ** bisect: binary search as in CPython's [bisect.py] *)

Fixpoint bisect_right_loop (fuel : nat) (a : list Q) (x : Q) (lo hi : nat) : nat :=
  match fuel with
  | 0 => lo
  | S fuel' =>
      if lo <? hi then
        let mid := (lo + hi) / 2 in
        if Qltb x (a !!! mid) then bisect_right_loop fuel' a x lo mid
        else bisect_right_loop fuel' a x (mid + 1) hi
      else lo
  end.

Definition bisect_right (a : list Q) (x : Q) : nat :=
  bisect_right_loop (length a) a x 0 (length a).

Fixpoint bisect_left_loop (fuel : nat) (a : list Q) (x : Q) (lo hi : nat) : nat :=
  match fuel with
  | 0 => lo
  | S fuel' =>
      if lo <? hi then
        let mid := (lo + hi) / 2 in
        if Qltb (a !!! mid) x then bisect_left_loop fuel' a x (mid + 1) hi
        else bisect_left_loop fuel' a x lo mid
      else lo
  end.

Definition bisect_left (a : list Q) (x : Q) : nat :=
  bisect_left_loop (length a) a x 0 (length a).

(** ** Schedules *)

(** Two tasks are compatible when one ends no later than the other starts. *)
Definition compatible (a b : Observation) : Prop :=
  (end_ a <= start b)%Q \/ (end_ b <= start a)%Q.

Definition compatibleb (a b : Observation) : bool :=
  Qle_bool (end_ a) (start b) || Qle_bool (end_ b) (start a).

(** Any two tasks at distinct positions are compatible. *)
Definition non_overlapping (l : list Observation) : Prop :=
  forall i j a b, i <> j -> l !! i = Some a -> l !! j = Some b -> compatible a b.

Fixpoint non_overlappingb (l : list Observation) : bool :=
  match l with
  | [] => true
  | a :: l' => forallb (compatibleb a) l' && non_overlappingb l'
  end.

(** Every interval of the input is valid. *)
Definition valid_intervals (obs : list Observation) : Prop :=
  Forall (fun o => (start o < end_ o)%Q) obs.

(** The tasks at the given indices. *)
Definition tasks_at (obs : list Observation) (idxs : list nat) : list Observation :=
  (fun i => obs !!! i) <$> idxs.

(** Total raw weight of a schedule. *)
Definition total_weight (l : list Observation) : Q := pysum (weight <$> l).

(** ** dynamic_scheduler.py *)

Section DynamicScheduler.
Variable pow : Q -> Q -> Q.

(** [o.weight * (max(o.duration, 1.0) ** 0.25)] *)
Definition transformed_weight (o : Observation) : Q :=
  (weight o * pow (pymax (duration o) 1) (1 # 4))%Q.

(** [incl = weights_s[i - 1]; j = p[i - 1]; if j >= 0: incl += M[j + 1]] *)
Definition dp_incl (weights_s : list Q) (p : list Z) (M : list Q) (i : nat) : Q :=
  let incl := weights_s !!! (i - 1) in
  let j := p !!! (i - 1) in
  if (0 <=? j)%Z then (incl + M !!! Z.to_nat (j + 1))%Q else incl.

(** One round of the loop that fills [M]. *)
Definition dp_fill_step (weights_s : list Q) (p : list Z) (M : list Q) (i : nat) : list Q :=
  let incl := dp_incl weights_s p M i in
  let excl := M !!! (i - 1) in
  <[i := if Qltb excl incl then incl else excl]> M.

Definition dp_table (weights_s : list Q) (p : list Z) (n : nat) : list Q :=
  foldl (dp_fill_step weights_s p) (replicate (n + 1) 0%Q) (seq 1 n).

(** The reconstruction loop [while i > 0]. *)
Fixpoint dp_reconstruct (fuel : nat) (indices : list nat) (weights_s : list Q)
    (p : list Z) (M : list Q) (i : nat) (chosen_indices : list nat)
    : outcome (list nat) :=
  match i with
  | 0 => Returns chosen_indices
  | S _ =>
      match fuel with
      | 0 => Diverges
      | S fuel' =>
          let incl := dp_incl weights_s p M i in
          let j := p !!! (i - 1) in
          if Qle_bool (M !!! (i - 1)) incl then
            dp_reconstruct fuel' indices weights_s p M (Z.to_nat (j + 1))
              (chosen_indices ++ [indices !!! (i - 1)])
          else
            dp_reconstruct fuel' indices weights_s p M (i - 1) chosen_indices
      end
  end.

(** The arrays of steps 1 to 3. *)
Definition dp_indices (obs_list : list Observation) : list nat :=
  let ends := end_ <$> obs_list in
  sorted_by_key (fun i => ends !!! i) (seq 0 (length obs_list)).

Definition dp_p (ends_s starts_s : list Q) : list Z :=
  (fun s => Z.of_nat (bisect_right ends_s s) - 1)%Z <$> starts_s.

(** The original indices of the chosen tasks, after [reverse]. *)
Definition dp_chosen_indices (fuel : nat) (obs_list : list Observation)
    : outcome (list nat) :=
  let n := length obs_list in
  let starts := start <$> obs_list in
  let ends := end_ <$> obs_list in
  let weights := transformed_weight <$> obs_list in
  let indices := dp_indices obs_list in
  let ends_s := (fun i => ends !!! i) <$> indices in
  let starts_s := (fun i => starts !!! i) <$> indices in
  let weights_s := (fun i => weights !!! i) <$> indices in
  let p := dp_p ends_s starts_s in
  let M := dp_table weights_s p n in
  obind (dp_reconstruct fuel indices weights_s p M n [])
    (fun chosen_indices => Returns (reverse chosen_indices)).

Definition dynamic_weighted_interval_scheduling (fuel : nat)
    (obs_list : list Observation) : outcome (list Observation) :=
  let n := length obs_list in
  if n =? 0 then Returns []
  else obind (dp_chosen_indices fuel obs_list)
         (fun chosen_indices => Returns (tasks_at obs_list chosen_indices)).

(** Total transformed weight of a schedule. *)
Definition total_transformed (l : list Observation) : Q :=
  pysum (transformed_weight <$> l).

(** *** Brute force, following the specification's words: the best total
    transformed weight over all non-overlapping subsets of the input. *)

Fixpoint sublists {A} (l : list A) : list (list A) :=
  match l with
  | [] => [[]]
  | x :: l' => (cons x <$> sublists l') ++ sublists l'
  end.

Definition brute_force_best (obs_list : list Observation) : Q :=
  foldr pymax 0%Q
    (total_transformed <$>
       filter (fun s => non_overlappingb s = true)
         (tasks_at obs_list <$> sublists (seq 0 (length obs_list)))).
End DynamicScheduler.

(** ** dynamic_scheduler.py with the rounding of float arithmetic

    The arrays hold doubles: the product that gives a transformed weight
    is rounded, and so is the sum of [incl += M[j + 1]].  The definitions
    below are those above with the float addition and multiplication as
    parameters [add] and [mul]; at the exact operations they are the
    definitions above. *)

Section RoundedDynamicScheduler.
Variables add mul : Q -> Q -> Q.
Variable pow : Q -> Q -> Q.

(** [o.weight * (max(o.duration, 1.0) ** 0.25)], the product rounded. *)
Definition transformed_weight_fl (o : Observation) : Q :=
  mul (weight o) (pow (pymax (duration o) 1) (1 # 4)).

Definition dp_incl_fl (weights_s : list Q) (p : list Z) (M : list Q) (i : nat) : Q :=
  let incl := weights_s !!! (i - 1) in
  let j := p !!! (i - 1) in
  if (0 <=? j)%Z then add incl (M !!! Z.to_nat (j + 1)) else incl.

Definition dp_fill_step_fl (weights_s : list Q) (p : list Z) (M : list Q) (i : nat)
    : list Q :=
  let incl := dp_incl_fl weights_s p M i in
  let excl := M !!! (i - 1) in
  <[i := if Qltb excl incl then incl else excl]> M.

Definition dp_table_fl (weights_s : list Q) (p : list Z) (n : nat) : list Q :=
  foldl (dp_fill_step_fl weights_s p) (replicate (n + 1) 0%Q) (seq 1 n).

Fixpoint dp_reconstruct_fl (fuel : nat) (indices : list nat) (weights_s : list Q)
    (p : list Z) (M : list Q) (i : nat) (chosen_indices : list nat)
    : outcome (list nat) :=
  match i with
  | 0 => Returns chosen_indices
  | S _ =>
      match fuel with
      | 0 => Diverges
      | S fuel' =>
          let incl := dp_incl_fl weights_s p M i in
          let j := p !!! (i - 1) in
          if Qle_bool (M !!! (i - 1)) incl then
            dp_reconstruct_fl fuel' indices weights_s p M (Z.to_nat (j + 1))
              (chosen_indices ++ [indices !!! (i - 1)])
          else
            dp_reconstruct_fl fuel' indices weights_s p M (i - 1) chosen_indices
      end
  end.

Definition dp_chosen_indices_fl (fuel : nat) (obs_list : list Observation)
    : outcome (list nat) :=
  let n := length obs_list in
  let starts := start <$> obs_list in
  let ends := end_ <$> obs_list in
  let weights := transformed_weight_fl <$> obs_list in
  let indices := dp_indices obs_list in
  let ends_s := (fun i => ends !!! i) <$> indices in
  let starts_s := (fun i => starts !!! i) <$> indices in
  let weights_s := (fun i => weights !!! i) <$> indices in
  let p := dp_p ends_s starts_s in
  let M := dp_table_fl weights_s p n in
  obind (dp_reconstruct_fl fuel indices weights_s p M n [])
    (fun chosen_indices => Returns (reverse chosen_indices)).

Definition dynamic_weighted_interval_scheduling_fl (fuel : nat)
    (obs_list : list Observation) : outcome (list Observation) :=
  let n := length obs_list in
  if n =? 0 then Returns []
  else obind (dp_chosen_indices_fl fuel obs_list)
         (fun chosen_indices => Returns (tasks_at obs_list chosen_indices)).

(** The total transformed weight of a schedule as floats give it, its
    weights added one after the other in the order of the schedule, each
    sum rounded. *)
Definition accumulated_total (l : list Observation) : Q :=
  foldl (fun acc o => add (transformed_weight_fl o) acc) 0%Q l.
End RoundedDynamicScheduler.

(** *** The addition of doubles

    Round to nearest, ties to even, on 53 significant bits; the exponent is
    not bounded, so there is neither overflow nor gradual underflow. *)

(** The nearest integer, ties to even. *)
Definition round_half_even (q : Q) : Z :=
  let f := Qfloor q in
  let r := (q - inject_Z f)%Q in
  if Qltb r (1 # 2) then f
  else if Qltb (1 # 2) r then (f + 1)%Z
  else if Z.even f then f else (f + 1)%Z.

(** The exponent [e] with [2 ^ e <= q < 2 ^ (e + 1)], for a positive [q]. *)
Definition binade (q : Q) : Z :=
  let k := (Z.log2 (Qnum q) - Z.log2 (Zpos (Qden q)))%Z in
  if Qle_bool (Qpower 2 k) q then k else (k - 1)%Z.

(** The double nearest to a positive [a]: its 53-bit significand is the
    rounded [a / 2 ^ (binade a - 52)]. *)
Definition round_magnitude (a : Q) : Q :=
  let scale := Qpower 2 (52 - binade a) in
  (inject_Z (round_half_even (a * scale)) / scale)%Q.

Definition round_to_double (q : Q) : Q :=
  if Qeq_bool q 0 then 0%Q
  else if Qltb q 0 then (- round_magnitude (Qabs q))%Q
  else round_magnitude (Qabs q).

Definition double_add (x y : Q) : Q := round_to_double (x + y).
Definition double_mul (x y : Q) : Q := round_to_double (x * y).

(** ** ant_colony_scheduler.py *)

Section AntColony.
Variable pow : Q -> Q -> Q.
Variable observations : list Observation.
Variable slew_matrix : list (list Q).
Variable num_ants : nat.
Variables alpha beta evap : Q.
Variables iterations top_k : nat.

(** Step 1: the index list sorted by start time. *)
Definition order_by_start : list nat :=
  let starts := start <$> observations in
  sorted_by_key (fun i => starts !!! i) (seq 0 (length observations)).

(** Step 2, the scan of the window: [cand.append((h, idx))] for each [idx]. *)
Fixpoint scan_window (i : nat) (window : list nat) : outcome (list (Q * nat)) :=
  match window with
  | [] => Returns []
  | idx :: window' =>
      obind (index slew_matrix i) (fun row =>
      obind (index row idx) (fun slew =>
        let dist := pymax slew 1 in
        let h := (weight (observations !!! idx) / dist)%Q in
        obind (scan_window i window') (fun cand => Returns ((h, idx) :: cand))))
  end.

(** Step 2 for one task [i]: its candidate successors. *)
Definition successors_of (i : nat) : outcome (list nat) :=
  let starts := start <$> observations in
  let ends := end_ <$> observations in
  let pos := bisect_left ((fun k => starts !!! k) <$> order_by_start) (ends !!! i) in
  let scan_limit := min (length order_by_start) (pos + top_k * 5) in
  obind (scan_window i (take (scan_limit - pos) (drop pos order_by_start)))
    (fun cand =>
       let cand := sort_reverse cand in
       let cand := if top_k <? length cand then take top_k cand else cand in
       Returns (snd <$> cand)).

Fixpoint for_each {A B} (f : A -> outcome B) (l : list A) : outcome (list B) :=
  match l with
  | [] => Returns []
  | x :: l' => obind (f x) (fun y => obind (for_each f l') (fun ys => Returns (y :: ys)))
  end.

Definition build_successors : outcome (list (list nat)) :=
  for_each successors_of (seq 0 (length observations)).

(** Step 3: the pheromone table, one dict per task. *)
Definition init_pher : Q := 1.

Definition init_pheromone (successors : list (list nat)) : list (gmap nat Q) :=
  (fun succ => foldl (fun (row : gmap nat Q) j => <[j := init_pher]> row) ∅ succ)
    <$> successors.

(** Step 4: the heuristic attractiveness of the candidate edges. *)
Fixpoint heuristic_row (i : nat) (succ : list nat) (row : gmap nat Q)
    : outcome (gmap nat Q) :=
  match succ with
  | [] => Returns row
  | j :: succ' =>
      obind (index slew_matrix i) (fun r =>
      obind (index r j) (fun slew =>
        let dist := pymax slew 1 in
        heuristic_row i succ' (<[j := (weight (observations !!! j) / dist)%Q]> row)))
  end.

Definition build_heuristic (successors : list (list nat)) : outcome (list (gmap nat Q)) :=
  for_each (fun '(i, succ) => heuristic_row i succ ∅)
    (zip (seq 0 (length observations)) successors).

(** *** [build_ant_tour] *)

Section Tour.
Variable successors : list (list nat).
Variable heuristic : list (gmap nat Q).
Variable pher : list (gmap nat Q).

(** The [for j in successors[last]] loop: the scored candidates. *)
Fixpoint tour_candidates (last : nat) (used : list bool) (succ : list nat)
    : list (Q * nat) :=
  match succ with
  | [] => []
  | j :: succ' =>
      let cand := tour_candidates last used succ' in
      if (used !!! j : bool) then cand
      else if Qle_bool (end_ (observations !!! last)) (start (observations !!! j)) then
        let tau := pow (default 0%Q ((pher !!! last) !! j)) alpha in
        let eta := pow (default 0%Q ((heuristic !!! last) !! j)) beta in
        if Qle_bool tau 0 && Qle_bool eta 0 then cand
        else ((tau * eta)%Q, j) :: cand
      else cand
  end.

(** The [for score, j in cand] loop of the proportional choice. *)
Fixpoint roulette (r acc : Q) (cand : list (Q * nat)) (chosen : nat) : nat :=
  match cand with
  | [] => chosen
  | (score, j) :: cand' =>
      let acc := (acc + score)%Q in
      if Qle_bool r acc then j else roulette r acc cand' chosen
  end.

(** The choice among a non-empty candidate list. *)
Definition choose_next (cand : list (Q * nat)) : Rand nat :=
  let total := pysum (fst <$> cand) in
  if Qle_bool total 0 then
    rret (sort_reverse cand !!! 0).2
  else
    fun g =>
      let '(u, g') := random_random g in
      let r := (u * total)%Q in
      Returns (roulette r 0 cand (default 0 (snd <$> last cand)), g').

(** The unused, start-feasible candidate successors of [last]. *)
Definition feasible_unused (last : nat) (used : list bool) : list nat :=
  filter (fun j => used !!! j = false /\
                   Qle_bool (end_ (observations !!! last)) (start (observations !!! j)) = true)
    (successors !!! last).

(** [trail ** alpha] and [heuristic ** beta] of the edge from [last] to [j],
    and their product, the selection weight. *)
Definition trail_factor (last j : nat) : Q :=
  pow (default 0%Q ((pher !!! last) !! j)) alpha.
Definition heuristic_factor (last j : nat) : Q :=
  pow (default 0%Q ((heuristic !!! last) !! j)) beta.
Definition selection_weight (last j : nat) : Q :=
  (trail_factor last j * heuristic_factor last j)%Q.

(** The candidates the loop scores: those it does not skip with
    [if tau <= 0 and eta <= 0: continue]. *)
Definition scored_candidates (last : nat) (used : list bool) : list nat :=
  filter (fun j => (Qle_bool (trail_factor last j) 0
                    && Qle_bool (heuristic_factor last j) 0) = false)
    (feasible_unused last used).

(** The [while True] loop. *)
Fixpoint tour_loop (fuel : nat) (selected : list nat) (used : list bool)
    : Rand (list nat) :=
  let last := default 0 (last selected) in
  let cand := tour_candidates last used (successors !!! last) in
  match cand with
  | [] => rret selected
  | _ :: _ =>
      match fuel with
      | 0 => fun _ => Diverges
      | S fuel' =>
          let! chosen := choose_next cand in
          tour_loop fuel' (selected ++ [chosen]) (<[chosen := true]> used)
      end
  end.

Definition build_ant_tour : Rand (list nat) :=
  let n := length observations in
  fun g =>
    let '(start_idx, g') := randrange n g in
    tour_loop n [start_idx] (<[start_idx := true]> (replicate n false)) g'.
End Tour.

(** [sum(observations[i].weight for i in tour)] *)
Definition tour_score (tour : list nat) : Q :=
  pysum ((fun i => weight (observations !!! i)) <$> tour).

(** *** The main loop *)

(** The variables the main loop updates. *)
Record aco_vars := mkVars {
  pher : list (gmap nat Q);
  best_schedule : list nat;
  best_score : Q;
  local_best_score : Q;
  local_best : option (list nat)
}.

(** The two comparisons that follow a tour: [if score > local_best_score]
    and [if score > best_score]. *)
Definition record_tour (v : aco_vars) (tour : list nat) : aco_vars :=
  let score := tour_score tour in
  let '(lbs, lb) :=
    if Qltb (local_best_score v) score then (score, Some tour)
    else (local_best_score v, local_best v) in
  let '(bs, sched) :=
    if Qltb (best_score v) score then (score, tour)
    else (best_score v, best_schedule v) in
  mkVars (pher v) sched bs lbs lb.

(** One ant. *)
Definition ant_round (successors : list (list nat)) (heuristic : list (gmap nat Q))
    (v : aco_vars) : Rand aco_vars :=
  let! tour := build_ant_tour successors heuristic (pher v) in
  rret (record_tour v tour).

Fixpoint ant_rounds (successors : list (list nat)) (heuristic : list (gmap nat Q))
    (k : nat) (v : aco_vars) : Rand aco_vars :=
  match k with
  | 0 => rret v
  | S k' =>
      let! v' := ant_round successors heuristic v in
      ant_rounds successors heuristic k' v'
  end.

(** Evaporation of one row: scale every trail, drop those below 1e-8. *)
Definition evaporate_row (row : gmap nat Q) : gmap nat Q :=
  filter (fun kv => Qltb kv.2 (1 # 100000000) = false)
    ((fun x => x * (1 - evap))%Q <$> row).

Definition evaporate (pher : list (gmap nat Q)) : list (gmap nat Q) :=
  evaporate_row <$> pher.

(** Deposit on one edge [(a, b)] of the iteration-best tour. *)
Definition deposit_edge (successors : list (list nat)) (deposit : Q)
    (pher : list (gmap nat Q)) (a b : nat) : list (gmap nat Q) :=
  let row := pher !!! a in
  match row !! b with
  | Some x => <[a := <[b := (x + deposit)%Q]> row]> pher
  | None =>
      if bool_decide (b ∈ successors !!! a)
      then <[a := <[b := (init_pher + deposit)%Q]> row]> pher
      else pher
  end.

Fixpoint deposit_along (successors : list (list nat)) (deposit : Q)
    (tour : list nat) (pher : list (gmap nat Q)) : list (gmap nat Q) :=
  match tour with
  | a :: (b :: _) as tour' =>
      deposit_along successors deposit tour' (deposit_edge successors deposit pher a b)
  | _ => pher
  end.

(** [if local_best: ...] *)
Definition deposit_pheromone (successors : list (list nat)) (lbs : Q)
    (lb : option (list nat)) (pher : list (gmap nat Q)) : list (gmap nat Q) :=
  match lb with
  | Some (a :: tour') =>
      let deposit := (lbs / (1 + inject_Z (Z.of_nat (length (a :: tour')))))%Q in
      deposit_along successors deposit (a :: tour') pher
  | _ => pher
  end.

(** What is recorded of one iteration: the table after the evaporation
    pass and the variables after the deposit pass. *)
Definition aco_record : Type := list (gmap nat Q) * aco_vars.

(** [local_best_score = 0.0; local_best = None] *)
Definition start_iteration (v : aco_vars) : aco_vars :=
  mkVars (pher v) (best_schedule v) (best_score v) 0 None.

(** The evaporation pass, then the deposit pass. *)
Definition end_iteration (successors : list (list nat)) (v : aco_vars) : aco_record :=
  let evaporated := evaporate (pher v) in
  let deposited :=
    deposit_pheromone successors (local_best_score v) (local_best v) evaporated in
  (evaporated,
   mkVars deposited (best_schedule v) (best_score v)
     (local_best_score v) (local_best v)).

(** One iteration of the main loop. *)
Definition aco_iteration (successors : list (list nat)) (heuristic : list (gmap nat Q))
    (v : aco_vars) : Rand aco_record :=
  let! v1 := ant_rounds successors heuristic num_ants (start_iteration v) in
  rret (end_iteration successors v1).

(** The main loop; [history] collects the record of every iteration and
    has no influence on the computation. *)
Fixpoint aco_loop (successors : list (list nat)) (heuristic : list (gmap nat Q))
    (k : nat) (v : aco_vars) (history : list aco_record)
    : Rand (list aco_record * aco_vars) :=
  match k with
  | 0 => rret (history, v)
  | S k' =>
      let! r := aco_iteration successors heuristic v in
      aco_loop successors heuristic k' r.2 (history ++ [r])
  end.

(** A finished run: the candidate graph, the initial variables, the
    history of the iterations, the final variables. *)
Record aco_trace := mkTrace {
  trace_successors : list (list nat);
  trace_initial : aco_vars;
  trace_history : list aco_record;
  trace_final : aco_vars
}.

(** Steps 1 to 4 and the main loop, for a non-empty input. *)
Definition aco_run (g : Rng) : outcome aco_trace :=
  obind build_successors (fun successors =>
  let v0 := mkVars (init_pheromone successors) [] 0 0 None in
  obind (build_heuristic successors) (fun heuristic =>
  obind (aco_loop successors heuristic iterations v0 [] g) (fun '((history, v), _) =>
  Returns (mkTrace successors v0 history v)))).

Definition ant_colony_schedule (g : Rng) : outcome (list Observation) :=
  let n := length observations in
  if n =? 0 then Returns []
  else
    obind (aco_run g) (fun t =>
      match best_schedule (trace_final t) with
      | [] => Returns []
      | _ :: _ =>
          let best_schedule_obs := tasks_at observations (best_schedule (trace_final t)) in
          Returns (sorted_by_key start best_schedule_obs)
      end).
End AntColony.

(** ** greedy_scheduler.py *)

Definition greedy_step (st : list Observation * option Q) (obs : Observation)
    : list Observation * option Q :=
  let '(schedule, current_end) := st in
  match current_end with
  | None => (schedule ++ [obs], Some (end_ obs))
  | Some e =>
      if Qle_bool e (start obs) then (schedule ++ [obs], Some (end_ obs))
      else (schedule, current_end)
  end.

Definition greedy_schedule (observations : list Observation)
    (slew_matrix : option (list (list Q))) : list Observation :=
  let obs_sorted := sorted_by_key_reverse weight observations in
  (foldl greedy_step ([], None) obs_sorted).1.

(** ** models.py: [parse_time] and [angular_distance_deg] *)

(** [s.replace("Z", "")] *)
Fixpoint remove_Z (s : string) : string :=
  match s with
  | EmptyString => EmptyString
  | String c s' => if String.eqb (String c EmptyString) "Z" then remove_Z s' else String c (remove_Z s')
  end.

(** Python's [min(a, b)]: the first argument unless the second is smaller. *)
Definition pymin (a b : Q) : Q := if Qltb b a then b else a.

(** The functions of [math] are parameters, as the float power is. *)
Section Geometry.
Variables radians degrees sin cos acos : Q -> Q.

(** The value handed to [math.acos]. *)
Definition clamped_cosine (ra1 dec1 ra2 dec2 : Q) : Q :=
  let ra1r := radians ra1 in
  let dec1r := radians dec1 in
  let ra2r := radians ra2 in
  let dec2r := radians dec2 in
  let cosd :=
    (sin dec1r * sin dec2r + cos dec1r * cos dec2r * cos (Qabs (ra1r - ra2r)))%Q in
  pymax (-1) (pymin 1 cosd).

Definition angular_distance_deg (ra1 dec1 ra2 dec2 : Q) : Q :=
  degrees (acos (clamped_cosine ra1 dec1 ra2 dec2)).

(** ** process_dataset.py *)

Definition MAX_ITEMS : nat := 1000.
Definition SLEW_RATE_DEG_PER_SEC : Q := 1 # 10.

(** *** [compute_slew_matrix] *)

(** The inner loop [for j in range(n)] on the row [rowi = mat[i]]. *)
Definition slew_row (obs : list Observation) (i : nat) (rowi : list Q) : list Q :=
  let rai := ra (obs !!! i) in
  let deci := dec (obs !!! i) in
  foldl (fun rowi j =>
           if decide (i = j) then rowi
           else
             let ang := angular_distance_deg rai deci (ra (obs !!! j)) (dec (obs !!! j)) in
             <[j := (ang / SLEW_RATE_DEG_PER_SEC)%Q]> rowi)
    rowi (seq 0 (length obs)).

Definition compute_slew_matrix (obs : list Observation) : list (list Q) :=
  let n := length obs in
  let mat := replicate n (replicate n 0%Q) in
  foldl (fun mat i => <[i := slew_row obs i (mat !!! i)]> mat) mat (seq 0 n).

(** *** [load_observations]

    The reader yields one dict per line of the file.  Parsing is a
    parameter: [fromisoformat], [timestamp] and [float] yield [None] where
    the Python call raises, [strip] is [str.strip]. *)
Section Loader.
Variable DateTime : Type.
Variable fromisoformat : string -> option DateTime.
Variable timestamp : DateTime -> option Q.
Variable float : string -> option Q.
Variable strip : string -> string.

Definition parse_time (s : string) : option DateTime := fromisoformat (remove_Z s).

(** [r.get(k1) or r.get(k2) or ""] *)
Definition get_first (r : gmap string string) (k1 k2 : string) : string :=
  let a := default EmptyString (r !! k1) in
  if String.eqb a EmptyString then default EmptyString (r !! k2) else a.

(** [float(r.get(k1) or r.get(k2) or 0.0)] *)
Definition float_or_zero (r : gmap string string) (k1 k2 : string) : option Q :=
  let s := get_first r k1 k2 in
  if String.eqb s EmptyString then Some 0%Q else float s.

(** The body of the loop over the rows: the observation appended, or
    [None] where the row is skipped ([continue], or an exception caught). *)
Definition load_row (r : gmap string string) : option Observation :=
  let start_raw := get_first r "sci_start_time" "start_time" in
  let stop_raw := get_first r "sci_stop_time" "stop_time" in
  if String.eqb start_raw EmptyString || String.eqb stop_raw EmptyString then None
  else
    start_dt ← parse_time start_raw;
    stop_dt ← parse_time stop_raw;
    start_ts ← timestamp start_dt;
    stop_ts ← timestamp stop_dt;
    if Qle_bool stop_ts start_ts then None
    else
      ra ← float_or_zero r "sci_ra" "ra";
      dec ← float_or_zero r "sci_dec" "dec";
      let pep_field := get_first r "sci_pep_id" "sci_proposal_id" in
      let pep :=
        if String.eqb (strip pep_field) EmptyString then 99999%Q
        else default 99999%Q (float pep_field) in
      let simple_weight := (1 / pymax 1 pep)%Q in
      let duration_sec := (stop_ts - start_ts)%Q in
      Some (mkObs (get_first r "sci_data_set_name" "dataset")
              start_ts stop_ts duration_sec ra dec simple_weight).

Definition load_observations (reader : list (gmap string string)) : list Observation :=
  omap load_row reader.

(** *** [sample_observations]; [random.sample] is a parameter. *)
Variable random_sample : list Observation -> nat -> Rng -> list Observation * Rng.

Definition sample_observations (rows : list Observation) (g : Rng)
    : list Observation * Rng :=
  if length rows <=? MAX_ITEMS then (rows, g) else random_sample rows MAX_ITEMS g.

(** *** [main]: the three schedules it exports. *)
Variable pow : Q -> Q -> Q.

Definition main (fuel : nat) (reader : list (gmap string string)) (g : Rng)
    : outcome (list Observation * list Observation * list Observation) :=
  let all_rows := load_observations reader in
  let '(rows, g) := sample_observations all_rows g in
  let slew_matrix := compute_slew_matrix rows in
  let greedy_res := greedy_schedule rows (Some slew_matrix) in
  obind (dynamic_weighted_interval_scheduling pow fuel rows) (fun dynamic_res =>
  obind (ant_colony_schedule pow rows slew_matrix 40 1 2 (3 # 10) 40 50 g)
    (fun ant_res => Returns (greedy_res, dynamic_res, ant_res))).
End Loader.
End Geometry.

(** ** Concrete inputs *)

(** A power operation to run the code with.  It is exact when the base is
    1 and when the exponent is a natural number; the inputs below stay
    within these cases. *)
Definition pow_int (x y : Q) : Q :=
  if Qeq_bool x 1 then 1%Q else Qpower x (Qfloor y).

(** A task over [[s, e]] with weight [w] and the given duration. *)
Definition interval_task (s e d w : Q) : Observation := mkObs "" s e d 0 0 w.

(** Three tasks of duration 1: the first two follow each other, the third
    overlaps both. *)
Definition three_tasks : list Observation :=
  [interval_task 0 1 1 5; interval_task 1 2 1 5; interval_task (1 # 2) (3 # 2) 1 7].

(** Slew times between the three tasks. *)
Definition slew3 : list (list Q) := [[0; 3; 4]; [3; 0; 5]; [4; 5; 0]]%Q.

(** Three tasks of duration 1 of which the first two follow each other and
    the third overlaps both; the weights are 2^53, 1 and 2^53. *)
Definition rounding_tasks : list Observation :=
  [interval_task 0 1 1 9007199254740992; interval_task 1 2 1 1;
   interval_task 0 2 1 9007199254740992].

(** Three tasks of weight 0 that follow each other. *)
Definition three_zero_tasks : list Observation :=
  [interval_task 0 1 1 0; interval_task 1 2 1 0; interval_task 2 3 1 0].


(** A stream of raw random words. *)
Definition draws : Rng := fun k => Z.of_nat (7 * k + 3).

(** A task that ends before it starts, alone and next to a valid task. *)
Definition backwards_task : Observation := interval_task 5 3 (-2) 1.
Definition backwards_pair : list Observation :=
  [backwards_task; interval_task 2 3 1 100].

(** A task of length zero. *)
Definition empty_task : Observation := interval_task 5 5 0 1.

(** Two tasks of weight 0 that follow each other. *)
Definition two_zero_tasks : list Observation :=
  [interval_task 0 1 1 0; interval_task 1 2 1 0].
Definition slew2 : list (list Q) := [[0; 3]; [3; 0]]%Q.

(** ** Auxiliary predicates *)

(** The last entry [M[n]] of the table the dynamic program builds. *)
Definition dp_optimum (pow : Q -> Q -> Q) (obs_list : list Observation) : Q :=
  let n := length obs_list in
  let indices := dp_indices obs_list in
  let ends_s := (fun i => (end_ <$> obs_list) !!! i) <$> indices in
  let starts_s := (fun i => (start <$> obs_list) !!! i) <$> indices in
  let weights_s := (fun i => (transformed_weight pow <$> obs_list) !!! i) <$> indices in
  dp_table weights_s (dp_p ends_s starts_s) n !!! n.

(** The keys of each row of the pheromone table are candidate successors. *)
Definition sparse (successors : list (list nat)) (pher : list (gmap nat Q)) : Prop :=
  forall i row j, pher !! i = Some row -> is_Some (row !! j) -> j ∈ successors !!! i.

(** What tour construction guarantees of a tour: it is non-empty and
    duplicate-free, its indices are in range, and with valid intervals each
    of its tasks ends no later than every later one starts. *)
Definition good_tour (obs : list Observation) (tour : list nat) : Prop :=
  tour <> [] /\ NoDup tour /\ Forall (fun j => j < length obs) tour /\
  (valid_intervals obs ->
   StronglySorted (fun a b => (end_ (obs !!! a) <= start (obs !!! b))%Q) tour).

(** [iterations_from v history v'] : starting from the variables [v], the
    main loop performs the iterations recorded in [history], for some
    random draws, and ends with the variables [v']. *)
Inductive iterations_from (pow : Q -> Q -> Q) (obs : list Observation)
    (num_ants : nat) (alpha beta evap : Q)
    (successors : list (list nat)) (heuristic : list (gmap nat Q))
    : aco_vars -> list aco_record -> aco_vars -> Prop :=
| iterations_done v :
    iterations_from pow obs num_ants alpha beta evap successors heuristic v [] v
| iterations_step v g r g' history v' :
    aco_iteration pow obs num_ants alpha beta evap successors heuristic v g
      = Returns (r, g') ->
    iterations_from pow obs num_ants alpha beta evap successors heuristic
      r.2 history v' ->
    iterations_from pow obs num_ants alpha beta evap successors heuristic
      v (r :: history) v'.

(** The slew matrix has an entry for every ordered pair of the [n] tasks. *)
Definition slew_covers (n : nat) (slew_matrix : list (list Q)) : bool :=
  forallb (fun i => match slew_matrix !! i with
                    | Some row => n <=? length row
                    | None => false
                    end) (seq 0 n).

(** A list of floats is ascending. *)
Definition ascending (a : list Q) : Prop :=
  forall i j x y, i <= j -> a !! i = Some x -> a !! j = Some y -> (x <= y)%Q.

(** The value of [i] after one round of the reconstruction loop. *)
Definition dp_next (weights_s : list Q) (p : list Z) (M : list Q) (i : nat) : nat :=
  match i with
  | 0 => 0
  | S _ =>
      if Qle_bool (M !!! (i - 1)) (dp_incl weights_s p M i)
      then Z.to_nat (p !!! (i - 1) + 1) else i - 1
  end.

(** The equation the table [M] satisfies at entry [i]. *)
Definition dp_recurrence (weights_s : list Q) (p : list Z) (M : list Q) (i : nat) : Prop :=
  M !!! i =
    if Qltb (M !!! (i - 1)) (dp_incl weights_s p M i)
    then dp_incl weights_s p M i else M !!! (i - 1).

(** The equation the table of the rounded program satisfies at entry [i]. *)
Definition dp_recurrence_fl (add : Q -> Q -> Q) (weights_s : list Q) (p : list Z)
    (M : list Q) (i : nat) : Prop :=
  M !!! i =
    if Qltb (M !!! (i - 1)) (dp_incl_fl add weights_s p M i)
    then dp_incl_fl add weights_s p M i else M !!! (i - 1).

(** The last entry of the table of the rounded program. *)
Definition dp_optimum_fl (add mul pow : Q -> Q -> Q) (obs_list : list Observation)
    : Q :=
  let n := length obs_list in
  let indices := dp_indices obs_list in
  let ends_s := (fun i => (end_ <$> obs_list) !!! i) <$> indices in
  let starts_s := (fun i => (start <$> obs_list) !!! i) <$> indices in
  let weights_s :=
    (fun i => (transformed_weight_fl mul pow <$> obs_list) !!! i) <$> indices in
  dp_table_fl add weights_s (dp_p ends_s starts_s) n !!! n.

(** The value of a chain of sorted positions, the weights added from the
    first position on. *)
Definition chain_value (add : Q -> Q -> Q) (ws : list Q) (P : list nat) : Q :=
  foldl (fun acc y => add (ws !!! y) acc) 0%Q P.

(** Every trail of the table is at least [c]; every trail is positive. *)
Definition trails_at_least (c : Q) (pher : list (gmap nat Q)) : Prop :=
  forall i row j x, pher !! i = Some row -> row !! j = Some x -> (c <= x)%Q.

Definition trails_positive (pher : list (gmap nat Q)) : Prop :=
  forall i row j x, pher !! i = Some row -> row !! j = Some x -> (0 < x)%Q.

(** Each task of the tour after the first is a candidate successor of the
    task before it. *)
Definition follows_edges (successors : list (list nat)) (tour : list nat) : Prop :=
  forall k a b, tour !! k = Some a -> tour !! S k = Some b -> b ∈ successors !!! a.

(** Where the loop of [build_ant_tour] stops: no candidate successor of
    the last task that is not in the tour and starts late enough has a
    positive trail or heuristic factor. *)
Definition stops_at (pow : Q -> Q -> Q) (obs : list Observation) (alpha beta : Q)
    (successors : list (list nat)) (heuristic pher : list (gmap nat Q))
    (tour : list nat) : Prop :=
  exists l, last tour = Some l /\
    forall j, j ∈ successors !!! l -> j ∉ tour ->
      (end_ (obs !!! l) <= start (obs !!! j))%Q ->
      (trail_factor pow alpha pher l j <= 0)%Q /\
      (heuristic_factor pow beta heuristic l j <= 0)%Q.

(** The window of the start-sorted order that [successors_of] scans for
    task [i], and the entries of the slew matrix read while scanning. *)
Definition scanned_window (obs : list Observation) (top_k i : nat) : list nat :=
  let starts := start <$> obs in
  let ends := end_ <$> obs in
  let pos := bisect_left ((fun k => starts !!! k) <$> order_by_start obs) (ends !!! i) in
  let scan_limit := min (length (order_by_start obs)) (pos + top_k * 5) in
  take (scan_limit - pos) (drop pos (order_by_start obs)).

Definition has_entry (slew : list (list Q)) (i idx : nat) : Prop :=
  exists row c, slew !! i = Some row /\ row !! idx = Some c.

Definition slew_entries_read (obs : list Observation) (slew : list (list Q))
    (top_k : nat) : Prop :=
  forall i idx, i < length obs -> idx ∈ scanned_window obs top_k i ->
    has_entry slew i idx.

(* ===================================================================== *)
(** * Part II: properties                                                  *)
(* ===================================================================== *)

(** ** The code on concrete inputs *)

Example dp_three_tasks :
  dynamic_weighted_interval_scheduling pow_int 3 three_tasks
    = Returns [interval_task 0 1 1 5; interval_task 1 2 1 5].
Proof. vm_compute. reflexivity. Qed.

Example brute_force_three_tasks : brute_force_best pow_int three_tasks = 10%Q.
Proof. vm_compute. reflexivity. Qed.

Example successors_three_tasks :
  build_successors three_tasks slew3 50 = Returns [[1]; []; []].
Proof. vm_compute. reflexivity. Qed.

Example aco_three_tasks :
  ant_colony_schedule pow_int three_tasks slew3 2 1 2 (3 # 10) 2 50 draws
    = Returns [interval_task 0 1 1 5; interval_task 1 2 1 5].
Proof. vm_compute. reflexivity. Qed.

Example aco_short_slew_matrix :
  ant_colony_schedule pow_int three_tasks [] 2 1 2 (3 # 10) 2 50 draws
    = Raises IndexError.
Proof. vm_compute. reflexivity. Qed.

Example greedy_three_tasks :
  greedy_schedule three_tasks None = [interval_task (1 # 2) (3 # 2) 1 7].
Proof. vm_compute. reflexivity. Qed.

Example bisect_right_ties : bisect_right [1; 2; 2; 3]%Q 2 = 3.
Proof. reflexivity. Qed.

Example bisect_left_ties : bisect_left [1; 2; 2; 3]%Q 2 = 1.
Proof. reflexivity. Qed.

(** ** Comparisons and sums *)

Lemma Qltb_lt (x y : Q) : Qltb x y = true <-> (x < y)%Q.
Proof.
  unfold Qltb. rewrite negb_true_iff. split.
  - intros H. apply Qnot_le_lt. intros Hle. apply Qle_bool_iff in Hle. congruence.
  - intros H. destruct (Qle_bool y x) eqn:E; [|done].
    apply Qle_bool_iff in E. lra.
Qed.

Lemma Qltb_ge (x y : Q) : Qltb x y = false <-> (y <= x)%Q.
Proof.
  unfold Qltb. rewrite negb_false_iff. apply Qle_bool_iff.
Qed.

Lemma Qle_bool_false (x y : Q) : Qle_bool x y = false <-> (y < x)%Q.
Proof.
  rewrite <- Qltb_lt. unfold Qltb. destruct (Qle_bool x y); simpl; intuition congruence.
Qed.

Lemma pymax_ge_l (a b : Q) : (a <= pymax a b)%Q.
Proof.
  unfold pymax. destruct (Qltb a b) eqn:E; [apply Qltb_lt in E|]; lra.
Qed.

Lemma pymax_ge_r (a b : Q) : (b <= pymax a b)%Q.
Proof.
  unfold pymax. destruct (Qltb a b) eqn:E; [|apply Qltb_ge in E]; lra.
Qed.

Lemma pymax_cases (a b : Q) : pymax a b = a \/ pymax a b = b.
Proof. unfold pymax. destruct (Qltb a b); auto. Qed.

Lemma foldl_Qplus_acc (xs : list Q) (a : Q) :
  (foldl Qplus a xs == a + foldl Qplus 0 xs)%Q.
Proof.
  revert a. induction xs as [|x xs IH]; intros a; simpl.
  - lra.
  - rewrite (IH (a + x)%Q), (IH (0 + x)%Q). lra.
Qed.

Lemma pysum_cons (x : Q) (xs : list Q) : (pysum (x :: xs) == x + pysum xs)%Q.
Proof.
  unfold pysum. simpl. rewrite foldl_Qplus_acc. lra.
Qed.

Lemma pysum_app (xs ys : list Q) : (pysum (xs ++ ys) == pysum xs + pysum ys)%Q.
Proof.
  induction xs as [|x xs IH]; simpl.
  - unfold pysum at 2. simpl. lra.
  - rewrite !pysum_cons, IH. lra.
Qed.

Lemma pysum_Permutation (xs ys : list Q) : xs ≡ₚ ys -> (pysum xs == pysum ys)%Q.
Proof.
  induction 1 as [|x xs ys _ IH|x y xs|xs ys zs _ IH1 _ IH2];
    rewrite ?pysum_cons.
  - reflexivity.
  - rewrite IH. reflexivity.
  - lra.
  - rewrite IH1. exact IH2.
Qed.

(** ** Stable sorting *)

Section SortFacts.
Context {A : Type} (before : A -> A -> bool).

Lemma insert_sorted_Permutation (x : A) (l : list A) :
  insert_sorted before x l ≡ₚ x :: l.
Proof.
  induction l as [|y l IH]; simpl; [done|].
  destruct (before x y); [done|]. rewrite IH. apply Permutation_swap.
Qed.

Lemma stable_sort_Permutation (l : list A) : stable_sort before l ≡ₚ l.
Proof.
  induction l as [|x l IH]; simpl; [done|].
  rewrite insert_sorted_Permutation. by rewrite IH.
Qed.

Lemma stable_sort_length (l : list A) : length (stable_sort before l) = length l.
Proof. apply Permutation_length, stable_sort_Permutation. Qed.

Hypothesis before_total : forall x y, before x y = false -> before y x = true.
Hypothesis before_trans :
  forall x y z, before x y = true -> before y z = true -> before x z = true.

Lemma insert_sorted_sorted (x : A) (l : list A) :
  StronglySorted (fun a b => before a b = true) l ->
  StronglySorted (fun a b => before a b = true) (insert_sorted before x l).
Proof.
  induction 1 as [|y l Hs IH Hy]; simpl.
  - repeat constructor.
  - destruct (before x y) eqn:E.
    + constructor; [by constructor|].
      constructor; [done|].
      eapply Forall_impl; [exact Hy|]. intros z Hz. simpl in Hz. eauto.
    + constructor; [done|].
      rewrite insert_sorted_Permutation. constructor; auto.
Qed.

Lemma stable_sort_sorted (l : list A) :
  StronglySorted (fun a b => before a b = true) (stable_sort before l).
Proof.
  induction l as [|x l IH]; simpl; [constructor|].
  by apply insert_sorted_sorted.
Qed.
End SortFacts.

Lemma StronglySorted_lookup {A} (R : A -> A -> Prop) (l : list A) i j x y :
  StronglySorted R l -> i < j -> l !! i = Some x -> l !! j = Some y -> R x y.
Proof.
  intros Hs. revert i j. induction Hs as [|a l Hs IH Ha]; intros i j Hij Hi Hj.
  - done.
  - destruct i as [|i], j as [|j]; simpl in *; try lia.
    + injection Hi as <-. rewrite Forall_forall in Ha. apply Ha.
      eapply list_elem_of_lookup_2. exact Hj.
    + eapply IH; [|exact Hi|exact Hj]. lia.
Qed.

Lemma sorted_by_key_ascending {A} (key : A -> Q) (l : list A) :
  ascending (key <$> sorted_by_key key l).
Proof.
  intros i j x y Hij Hi Hj.
  rewrite list_lookup_fmap in Hi, Hj.
  destruct (sorted_by_key key l !! i) as [a|] eqn:Ea; [|done].
  destruct (sorted_by_key key l !! j) as [b|] eqn:Eb; [|done].
  simpl in *. injection Hi as <-. injection Hj as <-.
  destruct (decide (i = j)) as [->|Hne].
  - rewrite Ea in Eb. injection Eb as <-. lra.
  - apply Qle_bool_iff.
    eapply (StronglySorted_lookup (fun a b => Qle_bool (key a) (key b) = true)
              _ i j a b); [|lia|done..].
    apply stable_sort_sorted.
    + intros u v H. apply Qle_bool_false in H. apply Qle_bool_iff. lra.
    + intros u v w H1 H2. apply Qle_bool_iff in H1, H2. apply Qle_bool_iff. lra.
Qed.

(** ** Binary search on an ascending list *)

Lemma bisect_right_loop_spec (fuel : nat) (a : list Q) (x : Q) (lo hi : nat) :
  ascending a -> hi - lo <= fuel -> lo <= hi <= length a ->
  (forall i y, i < lo -> a !! i = Some y -> (y <= x)%Q) ->
  (forall i y, hi <= i -> a !! i = Some y -> (x < y)%Q) ->
  let r := bisect_right_loop fuel a x lo hi in
  lo <= r <= hi /\
  (forall i y, i < r -> a !! i = Some y -> (y <= x)%Q) /\
  (forall i y, r <= i -> a !! i = Some y -> (x < y)%Q).
Proof.
  intros Hasc. revert lo hi.
  induction fuel as [|fuel IH]; intros lo hi Hfuel Hb Hlo Hhi;
    cbn [bisect_right_loop bisect_left_loop].
  - split; [lia|]. split; [done|]. intros i y Hi. apply Hhi. lia.
  - destruct (lo <? hi) eqn:E.
    + apply Nat.ltb_lt in E.
      assert (Hmid : lo <= (lo + hi) / 2 < hi).
      { pose proof (Nat.div_mod_eq (lo + hi) 2).
        pose proof (Nat.mod_upper_bound (lo + hi) 2). lia. }
      set (mid := (lo + hi) / 2) in *.
      destruct (lookup_lt_is_Some_2 a mid) as [m Hm]; [lia|].
      rewrite (list_lookup_total_correct _ _ _ Hm).
      destruct (Qltb x m) eqn:Ex.
      * apply Qltb_lt in Ex.
        destruct (IH lo mid) as (H1 & H2 & H3); [lia|lia|done| |].
        { intros i y Hi Hy. pose proof (Hasc mid i m y Hi Hm Hy). lra. }
        split; [lia|]. done.
      * apply Qltb_ge in Ex.
        destruct (IH (mid + 1) hi) as (H1 & H2 & H3); [lia|lia| |done|].
        { intros i y Hi Hy. assert (Hle : i <= mid) by lia.
          pose proof (Hasc i mid y m Hle Hy Hm). lra. }
        split; [lia|]. done.
    + apply Nat.ltb_ge in E. split; [lia|]. split; [done|].
      intros i y Hi. apply Hhi. lia.
Qed.

Lemma bisect_right_spec (a : list Q) (x : Q) :
  ascending a ->
  bisect_right a x <= length a /\
  (forall i y, i < bisect_right a x -> a !! i = Some y -> (y <= x)%Q) /\
  (forall i y, bisect_right a x <= i -> a !! i = Some y -> (x < y)%Q).
Proof.
  intros Hasc. unfold bisect_right.
  destruct (bisect_right_loop_spec (length a) a x 0 (length a)) as (H1 & H2 & H3);
    [done|lia|lia| | |].
  - intros i y Hi. lia.
  - intros i y Hi Hy. apply lookup_lt_Some in Hy. lia.
  - split; [lia|]. done.
Qed.

Lemma bisect_left_loop_spec (fuel : nat) (a : list Q) (x : Q) (lo hi : nat) :
  ascending a -> hi - lo <= fuel -> lo <= hi <= length a ->
  (forall i y, i < lo -> a !! i = Some y -> (y < x)%Q) ->
  (forall i y, hi <= i -> a !! i = Some y -> (x <= y)%Q) ->
  let r := bisect_left_loop fuel a x lo hi in
  lo <= r <= hi /\
  (forall i y, i < r -> a !! i = Some y -> (y < x)%Q) /\
  (forall i y, r <= i -> a !! i = Some y -> (x <= y)%Q).
Proof.
  intros Hasc. revert lo hi.
  induction fuel as [|fuel IH]; intros lo hi Hfuel Hb Hlo Hhi;
    cbn [bisect_right_loop bisect_left_loop].
  - split; [lia|]. split; [done|]. intros i y Hi. apply Hhi. lia.
  - destruct (lo <? hi) eqn:E.
    + apply Nat.ltb_lt in E.
      assert (Hmid : lo <= (lo + hi) / 2 < hi).
      { pose proof (Nat.div_mod_eq (lo + hi) 2).
        pose proof (Nat.mod_upper_bound (lo + hi) 2). lia. }
      set (mid := (lo + hi) / 2) in *.
      destruct (lookup_lt_is_Some_2 a mid) as [m Hm]; [lia|].
      rewrite (list_lookup_total_correct _ _ _ Hm).
      destruct (Qltb m x) eqn:Ex.
      * apply Qltb_lt in Ex.
        destruct (IH (mid + 1) hi) as (H1 & H2 & H3); [lia|lia| |done|].
        { intros i y Hi Hy. assert (Hle : i <= mid) by lia.
          pose proof (Hasc i mid y m Hle Hy Hm). lra. }
        split; [lia|]. done.
      * apply Qltb_ge in Ex.
        destruct (IH lo mid) as (H1 & H2 & H3); [lia|lia|done| |].
        { intros i y Hi Hy. pose proof (Hasc mid i m y Hi Hm Hy). lra. }
        split; [lia|]. done.
    + apply Nat.ltb_ge in E. split; [lia|]. split; [done|].
      intros i y Hi. apply Hhi. lia.
Qed.

Lemma bisect_left_spec (a : list Q) (x : Q) :
  ascending a ->
  bisect_left a x <= length a /\
  (forall i y, i < bisect_left a x -> a !! i = Some y -> (y < x)%Q) /\
  (forall i y, bisect_left a x <= i -> a !! i = Some y -> (x <= y)%Q).
Proof.
  intros Hasc. unfold bisect_left.
  destruct (bisect_left_loop_spec (length a) a x 0 (length a)) as (H1 & H2 & H3);
    [done|lia|lia| | |].
  - intros i y Hi. lia.
  - intros i y Hi Hy. apply lookup_lt_Some in Hy. lia.
  - split; [lia|]. done.
Qed.

(** ** Sublists and relations between all pairs

    [StronglySorted R l] says that [R] holds between every element of [l]
    and every later one. *)

Lemma StronglySorted_Permutation {A} (R : A -> A -> Prop) (l l' : list A) :
  (forall a b, R a b -> R b a) ->
  l ≡ₚ l' -> StronglySorted R l -> StronglySorted R l'.
Proof.
  intros Hsym Hp. induction Hp as [|x l l' Hp IH|x y l|l1 l2 l3 _ IH1 _ IH2].
  - done.
  - rewrite !StronglySorted_cons. intros [H1 H2]. split; [|auto].
    by rewrite <- Hp.
  - rewrite !StronglySorted_cons, !Forall_cons. intros [[H1 H2] [H3 H4]].
    auto.
  - auto.
Qed.

Lemma StronglySorted_of_lookup {A} (R : A -> A -> Prop) (l : list A) :
  (forall i j x y, i < j -> l !! i = Some x -> l !! j = Some y -> R x y) ->
  StronglySorted R l.
Proof.
  induction l as [|a l IH]; intros H; [constructor|].
  apply StronglySorted_cons. split.
  - apply Forall_lookup. intros j y Hy. apply (H 0 (S j)); [lia|done..].
  - apply IH. intros i j x y Hij Hx Hy. apply (H (S i) (S j)); [lia|done..].
Qed.

Lemma sublist_fmap_inv {A B} (f : A -> B) (l : list B) (k : list A) :
  sublist l (f <$> k) -> exists k', l = f <$> k' /\ sublist k' k.
Proof.
  revert l. induction k as [|a k IH]; intros l Hl; simpl in Hl.
  - apply sublist_nil_r in Hl as ->. exists []. split; [done|constructor].
  - apply sublist_cons_r in Hl as [Hl|(l' & -> & Hl)].
    + destruct (IH l Hl) as (k' & -> & Hk'). exists k'. split; [done|].
      by apply sublist_cons.
    + destruct (IH l' Hl) as (k' & -> & Hk'). exists (a :: k'). split; [done|].
      by apply sublist_skip.
Qed.

Lemma sublist_seq_bound (S : list nat) (r k : nat) :
  sublist S (seq 0 k) -> Forall (fun y => y < r) S -> r <= k -> sublist S (seq 0 r).
Proof.
  intros Hsub Hall Hr.
  replace k with (r + (k - r)) in Hsub by lia.
  rewrite seq_app in Hsub. apply sublist_app_r in Hsub as (A & B & -> & HA & HB).
  apply Forall_app in Hall as [_ HB'].
  destruct B as [|b B]; [by rewrite app_nil_r|].
  assert (Hb : b ∈ seq (0 + r) (k - r)).
  { eapply elem_of_sublist; [|exact HB]. left. }
  apply elem_of_seq in Hb. apply Forall_cons in HB' as [Hlt _]. lia.
Qed.

Lemma non_overlapping_StronglySorted (l : list Observation) :
  non_overlapping l <-> StronglySorted compatible l.
Proof.
  split.
  - intros H. apply StronglySorted_of_lookup. intros i j x y Hij.
    apply H. lia.
  - intros H i j a b Hij Ha Hb.
    destruct (decide (i < j)).
    + eapply StronglySorted_lookup; [exact H| |exact Ha|exact Hb]. lia.
    + assert (Hc : compatible b a).
      { eapply StronglySorted_lookup; [exact H| |exact Hb|exact Ha]. lia. }
      destruct Hc; [right|left]; done.
Qed.

Lemma compatible_sym (a b : Observation) : compatible a b -> compatible b a.
Proof. intros [H|H]; [right|left]; done. Qed.

(** ** The table of the dynamic program *)

Section DPCore.
Variables (indices : list nat) (ws es ss : list Q) (n : nat).
Hypothesis len_ws : length ws = n.
Hypothesis len_es : length es = n.
Hypothesis len_ss : length ss = n.
Hypothesis es_ascending : ascending es.
Hypothesis valid : forall k, k < n -> (ss !!! k < es !!! k)%Q.

Local Abbreviation p := (dp_p es ss).
Local Abbreviation M := (dp_table ws p n).
Local Abbreviation rank k := (bisect_right es (ss !!! k)).

Lemma es_lookup k : k < n -> es !! k = Some (es !!! k).
Proof. intros Hk. apply list_lookup_lookup_total_lt. lia. Qed.

Lemma p_lookup k : k < n -> p !!! k = (Z.of_nat (rank k) - 1)%Z.
Proof.
  intros Hk.
  exact (list_lookup_total_fmap (fun s => (Z.of_nat (bisect_right es s) - 1)%Z)
           ss k ltac:(lia)).
Qed.

Lemma rank_le k : k < n -> rank k <= k.
Proof.
  intros Hk. destruct (bisect_right_spec es (ss !!! k) es_ascending) as (_ & H & _).
  destruct (decide (rank k <= k)) as [|Hgt]; [done|].
  pose proof (H k (es !!! k) ltac:(lia) (es_lookup k Hk)).
  pose proof (valid k Hk). lra.
Qed.

Lemma rank_before k y : k < n -> y < rank k -> (es !!! y <= ss !!! k)%Q.
Proof.
  intros Hk Hy. destruct (bisect_right_spec es (ss !!! k) es_ascending) as (_ & H & _).
  pose proof (rank_le k Hk).
  apply (H y); [done|]. apply es_lookup. lia.
Qed.

Lemma rank_after k y : y < n -> (es !!! y <= ss !!! k)%Q -> y < rank k.
Proof.
  intros Hy Hle. destruct (bisect_right_spec es (ss !!! k) es_ascending) as (_ & _ & H).
  destruct (decide (y < rank k)) as [|Hge]; [done|].
  pose proof (H y (es !!! y) ltac:(lia) (es_lookup y Hy)). lra.
Qed.

Lemma dp_incl_eq (T : list Q) i :
  1 <= i <= n -> T !!! 0 = 0%Q ->
  (dp_incl ws p T i == ws !!! (i - 1)%nat + T !!! rank (i - 1)%nat)%Q.
Proof.
  intros Hi H0. unfold dp_incl. rewrite p_lookup by lia.
  set (r := rank (i - 1)).
  destruct (0 <=? Z.of_nat r - 1)%Z eqn:E.
  - apply Z.leb_le in E.
    replace (Z.to_nat (Z.of_nat r - 1 + 1)) with r by lia.
    reflexivity.
  - apply Z.leb_gt in E.
    replace r with 0 by lia. rewrite H0. lra.
Qed.

Lemma dp_incl_insert (T : list Q) i m v :
  1 <= i <= n -> i <= m -> dp_incl ws p (<[m := v]> T) i = dp_incl ws p T i.
Proof.
  intros Hi Hm. unfold dp_incl. rewrite p_lookup by lia.
  pose proof (rank_le (i - 1) ltac:(lia)).
  set (r := rank (i - 1)) in *.
  destruct (0 <=? Z.of_nat r - 1)%Z; [|done].
  rewrite list_lookup_total_insert_ne; [done|lia].
Qed.

Lemma dp_fill_inv k :
  k <= n ->
  let T := foldl (dp_fill_step ws p) (replicate (n + 1) 0%Q) (seq 1 k) in
  length T = n + 1 /\ T !!! 0 = 0%Q /\
  forall i, 1 <= i <= k -> dp_recurrence ws p T i.
Proof.
  induction k as [|k IH]; intros Hk; cbv zeta.
  - simpl. rewrite length_replicate. split; [done|]. split; [|lia].
    by rewrite lookup_total_replicate_2 by lia.
  - rewrite seq_S, foldl_app. cbn [foldl Nat.add]. cbv zeta in IH.
    destruct IH as (Hlen & H0 & Hrec); [lia|].
    set (T := foldl (dp_fill_step ws p) (replicate (n + 1) 0%Q) (seq 1 k)) in *.
    unfold dp_fill_step. rewrite length_insert.
    split; [done|]. split.
    { rewrite list_lookup_total_insert_ne by lia. done. }
    intros i Hi. unfold dp_recurrence.
    rewrite dp_incl_insert by lia.
    rewrite (list_lookup_total_insert_ne _ _ (i - 1)) by lia.
    destruct (decide (i = S k)) as [->|Hne].
    + rewrite list_lookup_total_insert_eq by lia. done.
    + rewrite list_lookup_total_insert_ne by lia. apply Hrec. lia.
Qed.

Lemma M_length : length M = n + 1.
Proof. apply (dp_fill_inv n). lia. Qed.

Lemma M_0 : M !!! 0 = 0%Q.
Proof. apply (dp_fill_inv n). lia. Qed.

Lemma M_recurrence i : 1 <= i <= n -> dp_recurrence ws p M i.
Proof. apply (dp_fill_inv n). lia. Qed.

Lemma M_step i :
  1 <= i <= n ->
  (M !!! (i - 1)%nat <= M !!! i)%Q /\ (dp_incl ws p M i <= M !!! i)%Q.
Proof.
  intros Hi. rewrite (M_recurrence i Hi).
  destruct (Qltb (M !!! (i - 1)) (dp_incl ws p M i)) eqn:E.
  - apply Qltb_lt in E. lra.
  - apply Qltb_ge in E. lra.
Qed.

Lemma M_mono i j : i <= j <= n -> (M !!! i <= M !!! j)%Q.
Proof.
  intros [Hij Hj]. induction Hij as [|j Hij IH]; [lra|].
  destruct (M_step (S j)) as [H _]; [lia|].
  replace (S j - 1) with j in H by lia.
  specialize (IH ltac:(lia)). lra.
Qed.

(** *** No compatible set of positions beats the table *)

Local Abbreviation pos_compat :=
  (fun a b => (es !!! a <= ss !!! b)%Q \/ (es !!! b <= ss !!! a)%Q).

Lemma pos_compat_before y k :
  y < k -> k < n -> pos_compat y k -> (es !!! y <= ss !!! k)%Q.
Proof.
  intros Hy Hk [H|H]; [done|].
  pose proof (es_ascending y k _ _ ltac:(lia)
                (es_lookup y ltac:(lia)) (es_lookup k Hk)).
  pose proof (valid y ltac:(lia)). lra.
Qed.

Lemma dp_upper_bound k :
  k <= n -> forall S, sublist S (seq 0 k) -> StronglySorted pos_compat S ->
  (pysum ((fun y => ws !!! y) <$> S) <= M !!! k)%Q.
Proof.
  induction k as [k IH] using (well_founded_induction Nat.lt_wf_0). intros Hk S Hsub Hc.
  destruct k as [|k].
  - apply sublist_nil_r in Hsub as ->. rewrite M_0. unfold pysum. simpl. lra.
  - rewrite seq_S in Hsub. simpl in Hsub.
    apply sublist_app_r in Hsub as (S1 & S2 & -> & H1 & H2).
    apply StronglySorted_app in Hc as (Hcross & Hc1 & _).
    apply sublist_cons_r in H2 as [H2|(l' & -> & H2)];
      apply sublist_nil_r in H2 as ->.
    + rewrite app_nil_r.
      pose proof (IH k ltac:(lia) ltac:(lia) S1 H1 Hc1).
      pose proof (M_mono k (S k) ltac:(lia)). lra.
    + assert (Hlt : Forall (fun y => y < bisect_right es (ss !!! k)) S1).
      { apply Forall_forall. intros y Hy.
        assert (Hyk : y < k).
        { pose proof (elem_of_sublist _ _ _ Hy H1) as Hin.
          apply elem_of_seq in Hin. lia. }
        apply rank_after; [lia|].
        apply pos_compat_before; [done|lia|].
        apply Hcross; [done|]. left. }
      pose proof (rank_le k ltac:(lia)) as Hr.
      pose proof (sublist_seq_bound S1 _ k H1 Hlt Hr) as Hsub.
      pose proof (IH (bisect_right es (ss !!! k)) ltac:(lia) ltac:(lia)
                    S1 Hsub Hc1) as Hle.
      rewrite fmap_app, pysum_app. simpl. rewrite pysum_cons.
      destruct (M_step (S k)) as [_ Hincl]; [lia|].
      rewrite (dp_incl_eq M (S k) ltac:(lia) M_0) in Hincl.
      replace (S k - 1) with k in Hincl by lia.
      unfold pysum at 2. simpl. lra.
Qed.

(** *** The reconstruction loop returns a chain that attains the table *)

Lemma dp_reconstruct_spec fuel i acc :
  i <= fuel -> i <= n ->
  exists P,
    dp_reconstruct fuel indices ws p M i acc
      = Returns (acc ++ ((fun y => indices !!! y) <$> P)) /\
    Forall (fun y => y < i) P /\
    (pysum ((fun y => ws !!! y) <$> P) == M !!! i)%Q /\
    StronglySorted (fun a b => b < a /\ (es !!! b <= ss !!! a)%Q) P.
Proof.
  revert i acc. induction fuel as [|fuel IH]; intros i acc Hf Hi.
  - replace i with 0 by lia. exists []. simpl. rewrite app_nil_r, M_0.
    repeat split; [constructor|constructor].
  - destruct i as [|i].
    { exists []. simpl. rewrite app_nil_r, M_0.
      repeat split; [constructor|constructor]. }
    cbn [dp_reconstruct].
    replace (S i - 1) with i by lia.
    pose proof (M_recurrence (S i) ltac:(lia)) as Hrec.
    unfold dp_recurrence in Hrec. replace (S i - 1) with i in Hrec by lia.
    pose proof (dp_incl_eq M (S i) ltac:(lia) M_0) as Hincl.
    replace (S i - 1) with i in Hincl by lia.
    pose proof (rank_le i ltac:(lia)) as Hr.
    destruct (Qle_bool (M !!! i) (dp_incl ws p M (S i))) eqn:E.
    + apply Qle_bool_iff in E.
      rewrite p_lookup by lia.
      replace (Z.to_nat (Z.of_nat (bisect_right es (ss !!! i)) - 1 + 1))
        with (bisect_right es (ss !!! i)) by lia.
      destruct (IH (bisect_right es (ss !!! i)) (acc ++ [indices !!! i]))
        as (P & Hret & Hlt & Hsum & Hch); [lia|lia|].
      exists (i :: P). rewrite Hret, <- app_assoc. simpl.
      split; [done|]. split.
      { constructor; [lia|]. eapply Forall_impl; [exact Hlt|].
        intros y Hy. simpl in Hy. lia. }
      split.
      { rewrite pysum_cons, Hsum, Hrec.
        destruct (Qltb (M !!! i) (dp_incl ws p M (S i))) eqn:E'.
        - lra.
        - apply Qltb_ge in E'. lra. }
      constructor; [done|].
      eapply Forall_impl; [exact Hlt|]. intros y Hy. simpl in Hy.
      split; [lia|]. apply rank_before; [lia|done].
    + apply Qle_bool_false in E.
      destruct (IH i acc) as (P & Hret & Hlt & Hsum & Hch); [lia|lia|].
      exists P. rewrite Hret. split; [done|]. split.
      { eapply Forall_impl; [exact Hlt|]. intros y Hy. simpl in Hy. lia. }
      split; [|done].
      rewrite Hsum, Hrec.
      destruct (Qltb (M !!! i) (dp_incl ws p M (S i))) eqn:E'.
      * apply Qltb_lt in E'. lra.
      * reflexivity.
Qed.

End DPCore.

(** ** The dynamic program on a list of observations *)

Lemma list_fmap_lookup_total_seq {A} `{!Inhabited A} (l : list A) :
  (fun i => l !!! i) <$> seq 0 (length l) = l.
Proof.
  apply list_eq. intros i. rewrite list_lookup_fmap.
  destruct (decide (i < length l)) as [Hi|Hi].
  - rewrite lookup_seq_lt by done. simpl.
    symmetry. by apply list_lookup_lookup_total_lt.
  - rewrite lookup_seq_ge by lia. simpl. symmetry. apply lookup_ge_None. lia.
Qed.

Lemma StronglySorted_fmap_inv {A B} (f : A -> B) (R : B -> B -> Prop) (l : list A) :
  StronglySorted R (f <$> l) -> StronglySorted (fun a b => R (f a) (f b)) l.
Proof.
  induction l as [|a l IH]; simpl; [constructor|].
  rewrite !StronglySorted_cons. intros [H1 H2]. split; [|auto].
  rewrite Forall_fmap in H1. exact H1.
Qed.

Lemma StronglySorted_impl_elem {A} (R R' : A -> A -> Prop) (l : list A) :
  (forall a b, a ∈ l -> b ∈ l -> R a b -> R' a b) ->
  StronglySorted R l -> StronglySorted R' l.
Proof.
  induction l as [|a l IH]; intros Himp; [constructor|].
  rewrite !StronglySorted_cons. intros [H1 H2]. split.
  - rewrite Forall_forall in *. intros b Hb. apply Himp; [left|by right|auto].
  - apply IH; [|done]. intros x y Hx Hy. apply Himp; by right.
Qed.

Section DPSpec.
Variable pow : Q -> Q -> Q.
Variable obs : list Observation.
Hypothesis obs_valid : valid_intervals obs.

Local Abbreviation n := (length obs).
Local Abbreviation indices := (dp_indices obs).
Local Abbreviation es := ((fun i => (end_ <$> obs) !!! i) <$> indices).
Local Abbreviation ss := ((fun i => (start <$> obs) !!! i) <$> indices).
Local Abbreviation ws := ((fun i => (transformed_weight pow <$> obs) !!! i) <$> indices).
Local Abbreviation M := (dp_table ws (dp_p es ss) n).
Local Abbreviation task k := (obs !!! (indices !!! k)).

Lemma dp_indices_Permutation : indices ≡ₚ seq 0 n.
Proof. apply stable_sort_Permutation. Qed.

Lemma dp_indices_length : length indices = n.
Proof. rewrite dp_indices_Permutation. apply length_seq. Qed.

Lemma dp_indices_NoDup : NoDup indices.
Proof. rewrite dp_indices_Permutation. apply NoDup_seq. Qed.

Lemma dp_indices_lt k : k < n -> indices !!! k < n.
Proof.
  intros Hk.
  assert (Hin : indices !!! k ∈ indices).
  { apply list_elem_of_lookup_total_2. by rewrite dp_indices_length. }
  revert Hin. generalize (indices !!! k). intros x Hx.
  rewrite dp_indices_Permutation in Hx. apply elem_of_seq in Hx. lia.
Qed.

Lemma es_at k : k < n -> es !!! k = end_ (task k).
Proof.
  intros Hk.
  rewrite (list_lookup_total_fmap _ indices k) by (by rewrite dp_indices_length).
  apply list_lookup_total_fmap. by apply dp_indices_lt.
Qed.

Lemma ss_at k : k < n -> ss !!! k = start (task k).
Proof.
  intros Hk.
  rewrite (list_lookup_total_fmap _ indices k) by (by rewrite dp_indices_length).
  apply list_lookup_total_fmap. by apply dp_indices_lt.
Qed.

Lemma ws_at k : k < n -> ws !!! k = transformed_weight pow (task k).
Proof.
  intros Hk.
  rewrite (list_lookup_total_fmap _ indices k) by (by rewrite dp_indices_length).
  apply list_lookup_total_fmap. by apply dp_indices_lt.
Qed.

Lemma es_ascending : ascending es.
Proof. apply (sorted_by_key_ascending (fun i => (end_ <$> obs) !!! i)). Qed.

Lemma ss_lt_es k : k < n -> (ss !!! k < es !!! k)%Q.
Proof.
  intros Hk. rewrite es_at, ss_at by done.
  unfold valid_intervals in obs_valid. rewrite Forall_forall in obs_valid.
  apply obs_valid. apply list_elem_of_lookup_total_2. by apply dp_indices_lt.
Qed.

Lemma transformed_at (P : list nat) :
  Forall (fun y => y < n) P ->
  transformed_weight pow <$> tasks_at obs ((fun y => indices !!! y) <$> P)
    = (fun y => ws !!! y) <$> P.
Proof.
  intros HP. unfold tasks_at. rewrite <- !list_fmap_compose.
  apply Forall_fmap_ext. eapply Forall_impl; [exact HP|].
  intros y Hy. simpl in *. by rewrite ws_at.
Qed.

(** With enough fuel the reconstruction returns a descending chain of
    sorted positions whose total is the last entry of the table. *)
Lemma dp_chosen_indices_chain fuel :
  n <= fuel ->
  exists P,
    dp_chosen_indices pow fuel obs
      = Returns (reverse ((fun y => indices !!! y) <$> P)) /\
    Forall (fun y => y < n) P /\
    (pysum ((fun y => ws !!! y) <$> P) == M !!! n)%Q /\
    StronglySorted (fun a b => b < a /\ (es !!! b <= ss !!! a)%Q) P.
Proof.
  intros Hf. unfold dp_chosen_indices.
  destruct (dp_reconstruct_spec indices ws es ss n) with (fuel := fuel) (i := n)
    (acc := @nil nat) as (P & Hret & HP); try done.
  - by rewrite length_fmap, dp_indices_length.
  - by rewrite length_fmap, dp_indices_length.
  - by rewrite length_fmap, dp_indices_length.
  - apply es_ascending.
  - apply ss_lt_es.
  - exists P. rewrite Hret. simpl. done.
Qed.

Lemma chain_NoDup (P : list nat) :
  Forall (fun y => y < n) P ->
  StronglySorted (fun a b => b < a /\ (es !!! b <= ss !!! a)%Q) P ->
  NoDup ((fun y => indices !!! y) <$> P).
Proof.
  intros HP Hch. apply NoDup_fmap_2_strong.
  - rewrite Forall_forall in HP. intros x y Hx Hy Heq.
    pose proof dp_indices_NoDup as Hnd. rewrite NoDup_alt in Hnd.
    apply (Hnd x y (indices !!! x)).
    + apply list_lookup_lookup_total_lt. rewrite dp_indices_length. auto.
    + rewrite Heq. apply list_lookup_lookup_total_lt.
      rewrite dp_indices_length. auto.
  - induction Hch as [|a P Hch IH Ha]; [constructor|].
    apply Forall_cons in HP as [_ HP]. constructor; [|auto].
    intros Hin. rewrite Forall_forall in Ha. specialize (Ha a Hin). lia.
Qed.

Lemma chain_compatible (P : list nat) :
  Forall (fun y => y < n) P ->
  StronglySorted (fun a b => b < a /\ (es !!! b <= ss !!! a)%Q) P ->
  StronglySorted compatible (tasks_at obs ((fun y => indices !!! y) <$> P)).
Proof.
  intros HP Hch. unfold tasks_at. rewrite <- list_fmap_compose.
  apply (StronglySorted_fmap _ (fun a b => compatible (task a) (task b)) compatible);
    [done|].
  eapply StronglySorted_impl_elem; [|exact Hch].
  rewrite Forall_forall in HP.
  intros a b Ha Hb [_ Hle]. simpl.
  rewrite es_at, ss_at in Hle by auto. by right.
Qed.

(** No duplicate-free set of input indices whose tasks are pairwise
    compatible has a larger total than the last entry of the table. *)
Lemma dp_table_upper_bound (S : list nat) :
  NoDup S -> Forall (fun i => i < n) S ->
  StronglySorted compatible (tasks_at obs S) ->
  (total_transformed pow (tasks_at obs S) <= M !!! n)%Q.
Proof.
  intros Hnd Hlt Hc.
  assert (Hsub : S ⊆+ indices).
  { apply NoDup_submseteq; [done|]. intros x Hx.
    rewrite dp_indices_Permutation. apply elem_of_seq.
    rewrite Forall_forall in Hlt. specialize (Hlt x Hx). lia. }
  apply submseteq_sublist_r in Hsub as (S' & Hperm & Hsub).
  assert (Hsub' : sublist S' ((fun y => indices !!! y) <$> seq 0 n)).
  { pose proof (list_fmap_lookup_total_seq indices) as E.
    rewrite dp_indices_length in E. by rewrite E. }
  apply sublist_fmap_inv in Hsub' as (T & -> & HT).
  assert (HTlt : Forall (fun y => y < n) T).
  { apply Forall_forall. intros y Hy.
    pose proof (elem_of_sublist _ _ _ Hy HT) as Hin.
    apply elem_of_seq in Hin. lia. }
  assert (Hc' : StronglySorted
                  (fun a b => (es !!! a <= ss !!! b)%Q \/ (es !!! b <= ss !!! a)%Q) T).
  { apply (StronglySorted_Permutation compatible _
             (tasks_at obs ((fun y => indices !!! y) <$> T))) in Hc.
    - unfold tasks_at in Hc. rewrite <- list_fmap_compose in Hc.
      apply StronglySorted_fmap_inv in Hc.
      eapply StronglySorted_impl_elem; [|exact Hc].
      rewrite Forall_forall in HTlt.
      intros a b Ha Hb Hab. simpl in Hab.
      rewrite !es_at, !ss_at by auto. exact Hab.
    - apply compatible_sym.
    - unfold tasks_at. by rewrite Hperm. }
  pose proof (dp_upper_bound ws es ss n) as Hub.
  specialize (Hub ltac:(by rewrite length_fmap, dp_indices_length)
                  ltac:(by rewrite length_fmap, dp_indices_length)
                  ltac:(by rewrite length_fmap, dp_indices_length)
                  es_ascending ss_lt_es n ltac:(lia) T HT Hc').
  unfold total_transformed.
  rewrite (pysum_Permutation _
             (transformed_weight pow <$> tasks_at obs ((fun y => indices !!! y) <$> T))).
  - by rewrite transformed_at.
  - unfold tasks_at. by rewrite Hperm.
Qed.

Lemma dp_table_nonneg : (0 <= M !!! n)%Q.
Proof.
  pose proof (M_mono ws es ss n
                ltac:(by rewrite length_fmap, dp_indices_length)
                ltac:(by rewrite length_fmap, dp_indices_length)
                ltac:(by rewrite length_fmap, dp_indices_length)
                es_ascending ss_lt_es 0 n ltac:(lia)) as H.
  rewrite (M_0 ws es ss n
             ltac:(by rewrite length_fmap, dp_indices_length)
             ltac:(by rewrite length_fmap, dp_indices_length)
             ltac:(by rewrite length_fmap, dp_indices_length)
             es_ascending ss_lt_es) in H.
  exact H.
Qed.

End DPSpec.

(** ** Brute force *)

Lemma compatibleb_spec (a b : Observation) : compatibleb a b = true <-> compatible a b.
Proof.
  unfold compatibleb, compatible. rewrite orb_true_iff, !Qle_bool_iff. done.
Qed.

Lemma non_overlappingb_spec (l : list Observation) :
  non_overlappingb l = true <-> StronglySorted compatible l.
Proof.
  induction l as [|a l IH]; simpl.
  - split; [constructor|done].
  - rewrite andb_true_iff, StronglySorted_cons, IH, forallb_forall, Forall_forall.
    split; intros [H1 H2]; (split; [|done]); intros x Hx.
    + apply compatibleb_spec, H1. by apply list_elem_of_In.
    + apply compatibleb_spec, H1. by apply list_elem_of_In.
Qed.

Lemma elem_of_sublists {A} (S l : list A) : S ∈ sublists l <-> sublist S l.
Proof.
  revert S. induction l as [|x l IH]; intros S; simpl.
  - rewrite sublist_nil_r. split.
    + intros H. apply list_elem_of_singleton in H. done.
    + intros ->. left.
  - rewrite elem_of_app, list_elem_of_fmap, sublist_cons_r, IH. split.
    + intros [(S' & -> & HS')|H]; [right|by left].
      exists S'. split; [done|]. by apply IH.
    + intros [H|(S' & -> & HS')]; [by right|left].
      exists S'. split; [done|]. by apply IH.
Qed.

Lemma foldr_pymax_ge (xs : list Q) (x : Q) :
  x ∈ xs -> (x <= foldr pymax 0 xs)%Q.
Proof.
  induction 1 as [x xs|x y xs Hx IH]; simpl.
  - apply pymax_ge_l.
  - pose proof (pymax_ge_r y (foldr pymax 0%Q xs)). lra.
Qed.

Lemma foldr_pymax_in (xs : list Q) :
  foldr pymax 0%Q xs = 0%Q \/ foldr pymax 0%Q xs ∈ xs.
Proof.
  induction xs as [|x xs IH]; simpl; [by left|].
  destruct (pymax_cases x (foldr pymax 0%Q xs)) as [->| ->].
  - right. left.
  - destruct IH as [IH|IH]; [by left|right; by right].
Qed.

Section DPTheorems.
Variable pow : Q -> Q -> Q.
Variable obs : list Observation.
Hypothesis obs_valid : valid_intervals obs.

Lemma dp_entry_point (fuel : nat) :
  dynamic_weighted_interval_scheduling pow fuel obs
    = obind (dp_chosen_indices pow fuel obs)
        (fun chosen_indices => Returns (tasks_at obs chosen_indices)).
Proof.
  unfold dynamic_weighted_interval_scheduling.
  destruct obs as [|o l]; [|done].
  destruct fuel; reflexivity.
Qed.

(** The schedule consists of the tasks at duplicate-free input indices,
    is pairwise compatible and totals the last entry of the table. *)
Lemma dp_schedule_spec (fuel : nat) :
  length obs <= fuel ->
  exists chosen,
    dynamic_weighted_interval_scheduling pow fuel obs = Returns (tasks_at obs chosen) /\
    NoDup chosen /\ Forall (fun i => i < length obs) chosen /\
    StronglySorted compatible (tasks_at obs chosen) /\
    (total_transformed pow (tasks_at obs chosen) == dp_optimum pow obs)%Q.
Proof.
  intros Hf.
  destruct (dp_chosen_indices_chain pow obs obs_valid fuel Hf)
    as (P & Hret & HP & Hsum & Hch).
  exists (reverse ((fun y => dp_indices obs !!! y) <$> P)).
  rewrite dp_entry_point, Hret. simpl. split; [done|].
  pose proof (chain_NoDup obs P HP Hch) as Hnd.
  pose proof (chain_compatible obs P HP Hch) as Hc.
  split; [by rewrite reverse_Permutation|]. split.
  { apply Forall_reverse, Forall_fmap. eapply Forall_impl; [exact HP|].
    intros y Hy. simpl in *. by apply dp_indices_lt. }
  split.
  { eapply (StronglySorted_Permutation compatible); [apply compatible_sym| |exact Hc].
    unfold tasks_at. by rewrite reverse_Permutation. }
  unfold dp_optimum. rewrite <- Hsum.
  rewrite <- (transformed_at pow obs P HP).
  apply pysum_Permutation. unfold tasks_at. by rewrite reverse_Permutation.
Qed.

Lemma brute_force_best_le_optimum :
  (brute_force_best pow obs <= dp_optimum pow obs)%Q.
Proof.
  unfold brute_force_best.
  destruct (foldr_pymax_in
              (total_transformed pow <$>
                 filter (fun s => non_overlappingb s = true)
                   (tasks_at obs <$> sublists (seq 0 (length obs))))) as [-> |Hin].
  - apply dp_table_nonneg. exact obs_valid.
  - apply list_elem_of_fmap in Hin as (sched & -> & Hin).
    apply list_elem_of_filter in Hin as [Hfeas Hin].
    apply list_elem_of_fmap in Hin as (S & -> & HS).
    apply elem_of_sublists in HS.
    apply dp_table_upper_bound; [done| | |].
    + eapply sublist_NoDup; [apply NoDup_seq|exact HS].
    + apply Forall_forall. intros i Hi.
      pose proof (elem_of_sublist _ _ _ Hi HS) as Hin. apply elem_of_seq in Hin. lia.
    + by apply non_overlappingb_spec.
Qed.

Lemma feasible_le_brute_force_best (S : list nat) :
  NoDup S -> Forall (fun i => i < length obs) S ->
  StronglySorted compatible (tasks_at obs S) ->
  (total_transformed pow (tasks_at obs S) <= brute_force_best pow obs)%Q.
Proof.
  intros Hnd Hlt Hc.
  assert (Hsub : S ⊆+ seq 0 (length obs)).
  { apply NoDup_submseteq; [done|]. intros x Hx. apply elem_of_seq.
    rewrite Forall_forall in Hlt. specialize (Hlt x Hx). lia. }
  apply submseteq_sublist_r in Hsub as (S' & Hperm & Hsub).
  unfold total_transformed.
  rewrite (pysum_Permutation _ (transformed_weight pow <$> tasks_at obs S'))
    by (unfold tasks_at; by rewrite Hperm).
  apply foldr_pymax_ge.
  apply (list_elem_of_fmap_2 (total_transformed pow)).
  apply list_elem_of_filter. split.
  - apply non_overlappingb_spec.
    eapply (StronglySorted_Permutation compatible); [apply compatible_sym| |exact Hc].
    unfold tasks_at. by rewrite Hperm.
  - apply list_elem_of_fmap_2. by apply elem_of_sublists.
Qed.

End DPTheorems.

(** C7. For every input whose intervals all satisfy end > start, the
    schedule returned by [dynamic_weighted_interval_scheduling] is pairwise
    non-overlapping: of any two tasks at distinct positions, one ends no
    later than the other starts. *)
Theorem dp_schedule_non_overlapping (pow : Q -> Q -> Q) (obs : list Observation)
    (fuel : nat) :
  valid_intervals obs -> length obs <= fuel ->
  exists sched,
    dynamic_weighted_interval_scheduling pow fuel obs = Returns sched /\
    non_overlapping sched.
Proof.
  intros Hvalid Hf.
  destruct (dp_schedule_spec pow obs Hvalid fuel Hf)
    as (chosen & Hret & Hnd & Hlt & Hc & Htot).
  exists (tasks_at obs chosen). split; [done|].
  by apply non_overlapping_StronglySorted.
Qed.

Lemma dp_schedule_non_overlapping_witness :
  valid_intervals three_tasks /\
  exists sched,
    dynamic_weighted_interval_scheduling pow_int 3 three_tasks = Returns sched /\
    non_overlapping sched.
Proof.
  assert (Hvalid : valid_intervals three_tasks).
  { unfold valid_intervals, three_tasks. repeat constructor. }
  split; [exact Hvalid|].
  apply (dp_schedule_non_overlapping pow_int three_tasks 3 Hvalid). simpl. lia.
Defined.

(** ** The candidate graph *)

Lemma obind_Returns {A B} (m : outcome A) (k : A -> outcome B) (b : B) :
  obind m k = Returns b -> exists a, m = Returns a /\ k a = Returns b.
Proof. destruct m; simpl; [eauto|done|done]. Qed.

Lemma for_each_Returns {A B} (f : A -> outcome B) (l : list A) (ys : list B) :
  for_each f l = Returns ys -> Forall2 (fun x y => f x = Returns y) l ys.
Proof.
  revert ys. induction l as [|x l IH]; intros ys H; simpl in H.
  - injection H as <-. constructor.
  - apply obind_Returns in H as (y & Hy & H).
    apply obind_Returns in H as (ys' & Hys & H).
    injection H as <-. constructor; auto.
Qed.

Lemma for_each_total {A B} (f : A -> outcome B) (l : list A) :
  Forall (fun x => exists y, f x = Returns y) l -> exists ys, for_each f l = Returns ys.
Proof.
  induction 1 as [|x l [y Hy] _ [ys Hys]]; simpl.
  - by exists [].
  - rewrite Hy. simpl. rewrite Hys. simpl. by exists (y :: ys).
Qed.

Lemma slew_covers_lookup (n : nat) (slew : list (list Q)) (i j : nat) :
  slew_covers n slew = true -> i < n -> j < n ->
  exists row c, slew !! i = Some row /\ row !! j = Some c.
Proof.
  unfold slew_covers. rewrite forallb_forall. intros H Hi Hj.
  specialize (H i). rewrite in_seq in H. specialize (H ltac:(lia)).
  destruct (slew !! i) as [row|]; [|done].
  apply Nat.leb_le in H.
  destruct (lookup_lt_is_Some_2 row j) as [c Hc]; [lia|]. eauto.
Qed.

Section Successors.
Variable obs : list Observation.
Variable slew : list (list Q).
Variable top_k : nat.

Local Abbreviation n := (length obs).
Local Abbreviation order := (order_by_start obs).

Lemma order_by_start_Permutation : order ≡ₚ seq 0 n.
Proof. apply stable_sort_Permutation. Qed.

Lemma order_by_start_lt idx : idx ∈ order -> idx < n.
Proof.
  rewrite order_by_start_Permutation. intros H. apply elem_of_seq in H. lia.
Qed.

Lemma scan_window_snd i w cand :
  scan_window obs slew i w = Returns cand -> snd <$> cand = w.
Proof.
  revert cand. induction w as [|idx w IH]; intros cand H; simpl in H.
  - by injection H as <-.
  - apply obind_Returns in H as (row & _ & H).
    apply obind_Returns in H as (c & _ & H).
    apply obind_Returns in H as (cand' & Hc & H).
    injection H as <-. simpl. f_equal. by apply IH.
Qed.

Lemma scan_window_total i w :
  slew_covers n slew = true -> i < n -> Forall (fun idx => idx < n) w ->
  exists cand, scan_window obs slew i w = Returns cand.
Proof.
  intros Hcov Hi. induction 1 as [|idx w Hidx _ [cand Hcand]]; simpl.
  - by exists [].
  - destruct (slew_covers_lookup n slew i idx Hcov Hi Hidx) as (row & c & Hr & Hc).
    unfold index. rewrite Hr. simpl. rewrite Hc. simpl. rewrite Hcand. simpl. eauto.
Qed.

Lemma window_after i idx :
  i < n ->
  idx ∈ drop (bisect_left ((fun k => (start <$> obs) !!! k) <$> order)
                ((end_ <$> obs) !!! i)) order ->
  idx < n /\ (end_ (obs !!! i) <= start (obs !!! idx))%Q.
Proof.
  intros Hi Hin.
  assert (Hlt : idx < n).
  { apply order_by_start_lt. eapply elem_of_sublist; [exact Hin|apply sublist_drop]. }
  split; [done|].
  rewrite (list_lookup_total_fmap end_ obs i) in Hin by done.
  apply list_elem_of_lookup in Hin as [k Hk]. rewrite lookup_drop in Hk.
  destruct (bisect_left_spec ((fun k => (start <$> obs) !!! k) <$> order)
              (end_ (obs !!! i))) as (_ & _ & H).
  { apply (sorted_by_key_ascending (fun k => (start <$> obs) !!! k)). }
  specialize (H _ (start (obs !!! idx)) (Nat.le_add_r _ k)).
  apply H. rewrite list_lookup_fmap, Hk. simpl.
  f_equal. by apply list_lookup_total_fmap.
Qed.

Lemma successors_of_spec i succ :
  i < n -> successors_of obs slew top_k i = Returns succ ->
  length succ <= top_k /\
  forall j, j ∈ succ -> j < n /\ (end_ (obs !!! i) <= start (obs !!! j))%Q.
Proof.
  intros Hi H. unfold successors_of in H.
  apply obind_Returns in H as (cand & Hcand & H). injection H as <-.
  apply scan_window_snd in Hcand.
  set (sorted := sort_reverse cand) in *.
  assert (Hsub : forall c, c ∈ (if top_k <? length sorted then take top_k sorted
                                else sorted) -> c ∈ cand).
  { intros c Hc.
    assert (Hc' : c ∈ sorted).
    { destruct (top_k <? length sorted); [|done].
      eapply elem_of_sublist; [exact Hc|apply sublist_take]. }
    unfold sorted, sort_reverse in Hc'.
    by rewrite stable_sort_Permutation in Hc'. }
  split.
  - rewrite length_fmap. destruct (top_k <? length sorted) eqn:E.
    + rewrite length_take. lia.
    + apply Nat.ltb_ge in E. done.
  - intros j Hj. apply list_elem_of_fmap in Hj as (c & -> & Hc).
    apply Hsub in Hc. apply (list_elem_of_fmap_2 snd) in Hc.
    rewrite Hcand in Hc.
    apply window_after; [done|].
    eapply elem_of_sublist; [exact Hc|apply sublist_take].
Qed.

Lemma successors_of_total i :
  slew_covers n slew = true -> i < n ->
  exists succ, successors_of obs slew top_k i = Returns succ.
Proof.
  intros Hcov Hi. unfold successors_of.
  edestruct (scan_window_total i) as [cand Hcand]; [done|done| |].
  2: { rewrite Hcand. simpl. eauto. }
  apply Forall_forall. intros idx Hin. apply order_by_start_lt.
  eapply elem_of_sublist; [exact Hin|].
  etrans; [apply sublist_take|apply sublist_drop].
Qed.

Lemma build_successors_spec successors :
  build_successors obs slew top_k = Returns successors ->
  length successors = n /\
  forall i succ, successors !! i = Some succ ->
    length succ <= top_k /\
    forall j, j ∈ succ -> j < n /\ (end_ (obs !!! i) <= start (obs !!! j))%Q.
Proof.
  intros H. apply for_each_Returns in H.
  split.
  - apply Forall2_length in H. by rewrite length_seq in H.
  - intros i succ Hs.
    pose proof (lookup_lt_Some _ _ _ Hs) as Hi.
    rewrite <- (Forall2_length _ _ _ H), length_seq in Hi.
    apply successors_of_spec; [done|].
    eapply (Forall2_lookup_lr _ _ _ i i succ H); [|done].
    by rewrite lookup_seq_lt.
Qed.

Lemma build_successors_total :
  slew_covers n slew = true ->
  exists successors, build_successors obs slew top_k = Returns successors.
Proof.
  intros Hcov. apply for_each_total. apply Forall_forall. intros i Hi.
  apply elem_of_seq in Hi. apply successors_of_total; [done|lia].
Qed.

End Successors.

(** C5. In the candidate graph that [ant_colony_schedule] builds, every
    successor [j] listed for a task [i] starts no earlier than [i] ends, and
    no list is longer than [top_k]; the graph is built whenever the slew
    matrix has an entry for every pair of tasks. *)
Theorem candidate_graph_bounds (obs : list Observation) (slew : list (list Q))
    (top_k : nat) :
  (slew_covers (length obs) slew = true ->
   exists successors, build_successors obs slew top_k = Returns successors) /\
  (forall successors,
     build_successors obs slew top_k = Returns successors ->
     forall i succ, successors !! i = Some succ ->
       length succ <= top_k /\
       forall j, j ∈ succ -> (end_ (obs !!! i) <= start (obs !!! j))%Q).
Proof.
  split.
  - apply build_successors_total.
  - intros successors H i succ Hs.
    destruct (build_successors_spec obs slew top_k successors H) as [_ Hspec].
    destruct (Hspec i succ Hs) as [Hlen Hj]. split; [done|].
    intros j Hin. by apply Hj.
Qed.

(** ** Tour construction *)

Lemma rbind_Returns {A B} (m : Rand A) (k : A -> Rand B) (g g' : Rng) (a : A) :
  m g = Returns (a, g') -> rbind m k g = k a g'.
Proof. unfold rbind. by intros ->. Qed.

Lemma NoDup_lt_length (l : list nat) (n : nat) :
  NoDup l -> Forall (fun i => i < n) l -> length l <= n.
Proof.
  intros Hnd Hlt.
  assert (E : length (seq 0 n) = n) by apply length_seq. rewrite <- E.
  apply submseteq_length, NoDup_submseteq; [done|].
  intros x Hx. apply elem_of_seq. rewrite Forall_forall in Hlt.
  specialize (Hlt x Hx). lia.
Qed.

Section TourFacts.
Variable pow : Q -> Q -> Q.
Variable obs : list Observation.
Variables alpha beta : Q.
Variable successors : list (list nat).
Variable heuristic : list (gmap nat Q).
Variable pher : list (gmap nat Q).
Hypothesis successors_lt : forall i j, j ∈ successors !!! i -> j < length obs.

Local Abbreviation n := (length obs).
Local Abbreviation candidates := (tour_candidates pow obs alpha beta heuristic pher).
Local Abbreviation loop := (tour_loop pow obs alpha beta successors heuristic pher).
Local Abbreviation before :=
  (fun a b => (end_ (obs !!! a) <= start (obs !!! b))%Q).

Lemma tour_candidates_elem last used succ c :
  c ∈ candidates last used succ ->
  c.2 ∈ succ /\ used !!! c.2 = false /\ before last c.2.
Proof.
  induction succ as [|j succ IH]; simpl; [intros H; by apply elem_of_nil in H|].
  destruct (used !!! j) eqn:Eu.
  { intros H. destruct (IH H) as (? & ? & ?). repeat split; [by right|done..]. }
  destruct (Qle_bool (end_ (obs !!! last)) (start (obs !!! j))) eqn:Ef.
  2: { intros H. destruct (IH H) as (? & ? & ?). repeat split; [by right|done..]. }
  match goal with |- context [if ?b then _ else _] => destruct b end.
  { intros H. destruct (IH H) as (? & ? & ?). repeat split; [by right|done..]. }
  intros H. apply elem_of_cons in H as [->|H].
  - simpl. repeat split; [left|done|by apply Qle_bool_iff].
  - destruct (IH H) as (? & ? & ?). repeat split; [by right|done..].
Qed.

Lemma roulette_elem r acc cand chosen :
  roulette r acc cand chosen = chosen \/ roulette r acc cand chosen ∈ snd <$> cand.
Proof.
  revert acc. induction cand as [|[score j] cand IH]; intros acc; simpl; [by left|].
  destruct (Qle_bool r (acc + score)); [right; left|].
  destruct (IH (acc + score)%Q) as [->|H]; [by left|right; by right].
Qed.

Lemma choose_next_spec cand g :
  cand <> [] ->
  exists chosen g', choose_next cand g = Returns (chosen, g') /\ chosen ∈ snd <$> cand.
Proof.
  intros Hne. unfold choose_next.
  destruct (Qle_bool (pysum cand.*1) 0).
  - eexists _, g. split; [reflexivity|].
    apply list_elem_of_fmap_2.
    assert (Hin : sort_reverse cand !!! 0 ∈ sort_reverse cand).
    { apply list_elem_of_lookup_total_2. unfold sort_reverse.
      rewrite stable_sort_length. destruct cand; [done|simpl; lia]. }
    revert Hin. generalize (sort_reverse cand !!! 0). intros c Hc.
    unfold sort_reverse in Hc. by rewrite stable_sort_Permutation in Hc.
  - destruct (random_random g) as [u g'] eqn:Er. eexists _, g'.
    split; [reflexivity|].
    destruct (roulette_elem (u * pysum cand.*1) 0 cand (default 0 (snd <$> last cand)))
      as [->|H]; [|done].
    destruct (last cand) as [c|] eqn:El.
    + simpl. apply list_elem_of_fmap_2.
      apply last_Some in El as [l' ->]. apply elem_of_app. right. left.
    + apply last_None in El. done.
Qed.

Lemma tour_loop_unfold fuel selected used :
  loop fuel selected used =
    let last := default 0 (last selected) in
    match candidates last used (successors !!! last) with
    | [] => rret selected
    | c :: cand =>
        match fuel with
        | 0 => fun _ => Diverges
        | S fuel' =>
            rbind (choose_next (c :: cand)) (fun chosen =>
              loop fuel' (selected ++ [chosen]) (<[chosen := true]> used))
        end
    end.
Proof.
  destruct fuel; cbn [tour_loop]; cbv zeta;
    destruct (candidates (default 0 (last selected)) used
                (successors !!! default 0 (last selected))); reflexivity.
Qed.

(** The loop returns: each round marks one more of the [n] tasks.  What it
    returns is duplicate-free, and with valid intervals every task ends no
    later than every task chosen after it starts. *)
Lemma tour_loop_spec fuel selected used g :
  length used = n -> selected <> [] -> NoDup selected ->
  Forall (fun j => j < n) selected ->
  (forall j, j < n -> used !!! j = true <-> j ∈ selected) ->
  n <= fuel + length selected ->
  exists tour g',
    loop fuel selected used g = Returns (tour, g') /\
    tour <> [] /\ NoDup tour /\ Forall (fun j => j < n) tour /\
    (valid_intervals obs -> StronglySorted before selected ->
     StronglySorted before tour).
Proof.
  revert selected used g.
  induction fuel as [|fuel IH]; intros selected used g Hlen Hne Hnd Hlt Hused Hfuel;
    rewrite tour_loop_unfold; cbv zeta;
    set (lst := default 0 (last selected));
    destruct (candidates lst used (successors !!! lst)) as [|c cand] eqn:Ec;
    try (exists selected, g; by repeat split).
  all: assert (Hc : c ∈ candidates lst used (successors !!! lst))
         by (rewrite Ec; left).
  all: destruct (choose_next_spec (c :: cand) g ltac:(done))
         as (chosen & g' & Hch & Hin).
  all: apply list_elem_of_fmap in Hin as (c' & -> & Hin); rewrite <- Ec in Hin.
  all: apply tour_candidates_elem in Hin as (Hsucc & Hun & Hbefore).
  all: pose proof (successors_lt _ _ Hsucc) as Hclt.
  all: assert (Hnotin : c'.2 ∉ selected)
         by (intros Hin; apply Hused in Hin; [congruence|done]).
  all: assert (Hnd' : NoDup (selected ++ [c'.2])).
  1,3: apply NoDup_app; repeat split; [done| |apply NoDup_singleton];
       intros x Hx ->%list_elem_of_singleton; done.
  all: assert (Hlt' : Forall (fun j => j < n) (selected ++ [c'.2]))
         by (apply Forall_app; split; [done|by constructor]).
  all: pose proof (NoDup_lt_length _ _ Hnd' Hlt') as Hbound;
       rewrite length_app in Hbound; simpl in Hbound.
  - lia.
  - rewrite (rbind_Returns _ _ g g' c'.2 Hch).
    destruct (IH (selected ++ [c'.2]) (<[c'.2 := true]> used) g')
      as (tour & g'' & Hret & Hne' & Hnd'' & Hlt'' & Hchain).
    + by rewrite length_insert.
    + by destruct selected.
    + done.
    + done.
    + intros j Hj. rewrite elem_of_app, list_elem_of_singleton.
      destruct (decide (j = c'.2)) as [->|Hneq].
      * rewrite list_lookup_total_insert_eq by lia. split; auto.
      * rewrite list_lookup_total_insert_ne by done. rewrite Hused by done.
        split; [auto|]. intros [?|?]; [done|congruence].
    + rewrite length_app. simpl. lia.
    + exists tour, g''. repeat split; try done.
      intros Hvalid Hss. apply Hchain; [done|].
      apply StronglySorted_app. repeat split; [|done|repeat constructor].
      intros a b Ha ->%list_elem_of_singleton.
      destruct (last selected) as [l|] eqn:El.
      2: { apply last_None in El. done. }
      subst lst. simpl in Hbefore.
      apply last_Some in El as [sel' ->].
      apply elem_of_app in Ha as [Ha| ->%list_elem_of_singleton]; [|done].
      apply StronglySorted_app in Hss as (Hcross & _ & _).
      specialize (Hcross a l Ha ltac:(left)). simpl in Hcross.
      assert (Hl : (start (obs !!! l) < end_ (obs !!! l))%Q).
      { unfold valid_intervals in Hvalid. rewrite Forall_forall in Hvalid.
        apply Hvalid, list_elem_of_lookup_total_2.
        rewrite Forall_forall in Hlt. apply Hlt. apply elem_of_app. right. left. }
      simpl. lra.
Qed.

Lemma build_ant_tour_spec g :
  0 < n ->
  exists tour g',
    build_ant_tour pow obs alpha beta successors heuristic pher g = Returns (tour, g') /\
    tour <> [] /\ NoDup tour /\ Forall (fun j => j < n) tour /\
    (valid_intervals obs -> StronglySorted before tour).
Proof.
  intros Hn. unfold build_ant_tour, randrange.
  set (start_idx := Z.to_nat (g 0 mod Z.of_nat n)).
  assert (Hs : start_idx < n).
  { unfold start_idx.
    pose proof (Z.mod_pos_bound (g 0) (Z.of_nat n) ltac:(lia)). lia. }
  destruct (tour_loop_spec n [start_idx] (<[start_idx := true]> (replicate n false))
              (rng_tail g)) as (tour & g' & Hret & Hne & Hnd & Hlt & Hchain).
  - by rewrite length_insert, length_replicate.
  - done.
  - apply NoDup_singleton.
  - by repeat constructor.
  - intros j Hj. rewrite list_elem_of_singleton.
    destruct (decide (j = start_idx)) as [->|Hneq].
    + rewrite list_lookup_total_insert_eq by (rewrite length_replicate; lia). done.
    + rewrite list_lookup_total_insert_ne by done.
      rewrite lookup_total_replicate_2 by done. split; [done|congruence].
  - simpl. lia.
  - exists tour, g'. repeat split; try done.
    intros Hvalid. apply Hchain; [done|]. repeat constructor.
Qed.

End TourFacts.

(** ** The pheromone table *)

Lemma init_row_keys (succ : list nat) (row : gmap nat Q) (j : nat) :
  is_Some (foldl (fun (row : gmap nat Q) j => <[j := init_pher]> row) row succ !! j) ->
  is_Some (row !! j) \/ j ∈ succ.
Proof.
  revert row. induction succ as [|k succ IH]; intros row H; simpl in H; [by left|].
  destruct (IH _ H) as [H'|H']; [|right; by right].
  destruct (decide (k = j)) as [->|Hne]; [right; left|].
  rewrite lookup_insert_ne in H' by done. by left.
Qed.

Lemma init_pheromone_sparse (successors : list (list nat)) :
  sparse successors (init_pheromone successors).
Proof.
  intros i row j Hrow Hj. unfold init_pheromone in Hrow.
  rewrite list_lookup_fmap in Hrow.
  destruct (successors !! i) as [succ|] eqn:Es; [|done].
  simpl in Hrow. injection Hrow as <-.
  rewrite (list_lookup_total_correct _ _ _ Es).
  destruct (init_row_keys _ _ _ Hj) as [H|H]; [|done].
  rewrite lookup_empty in H. by destruct H.
Qed.

Lemma evaporate_sparse (evap : Q) (successors : list (list nat))
    (pher : list (gmap nat Q)) :
  sparse successors pher -> sparse successors (evaporate evap pher).
Proof.
  intros Hsp i row j Hrow [x Hx]. unfold evaporate in Hrow.
  rewrite list_lookup_fmap in Hrow.
  destruct (pher !! i) as [row0|] eqn:Er; [|done].
  simpl in Hrow. injection Hrow as <-.
  unfold evaporate_row in Hx. apply map_lookup_filter_Some in Hx as [Hx _].
  rewrite lookup_fmap in Hx.
  apply (Hsp i row0 j Er). destruct (row0 !! j); [eauto|done].
Qed.

Lemma deposit_edge_sparse (successors : list (list nat)) (deposit : Q)
    (pher : list (gmap nat Q)) (a b : nat) :
  sparse successors pher -> sparse successors (deposit_edge successors deposit pher a b).
Proof.
  intros Hsp. unfold deposit_edge.
  assert (Hins : forall x, b ∈ successors !!! a ->
            sparse successors (<[a := <[b := x]> (pher !!! a)]> pher)).
  { intros x Hb i row j Hrow Hj.
    apply list_lookup_insert_Some in Hrow as [(Heq & Hr & Hlt)|[Hne Hrow]].
    - subst i row. destruct (decide (b = j)) as [->|Hbj]; [done|].
      rewrite lookup_insert_ne in Hj by done.
      apply (Hsp a (pher !!! a) j); [|done].
      by apply list_lookup_lookup_total_lt.
    - by apply (Hsp i row j). }
  destruct ((pher !!! a) !! b) as [x|] eqn:Eb.
  - apply Hins.
    destruct (decide (a < length pher)) as [Hlt|Hge].
    + apply (Hsp a (pher !!! a) b); [|by eauto].
      by apply list_lookup_lookup_total_lt.
    + rewrite list_lookup_total_alt, lookup_ge_None_2 in Eb by lia.
      simpl in Eb. by rewrite lookup_empty in Eb.
  - case_bool_decide; [by apply Hins|done].
Qed.

Lemma deposit_along_sparse (successors : list (list nat)) (deposit : Q)
    (tour : list nat) (pher : list (gmap nat Q)) :
  sparse successors pher -> sparse successors (deposit_along successors deposit tour pher).
Proof.
  revert pher. induction tour as [|a tour IH]; intros pher Hsp; [done|].
  destruct tour as [|b tour]; [done|].
  cbn [deposit_along]. apply IH. by apply deposit_edge_sparse.
Qed.

Lemma deposit_pheromone_sparse (successors : list (list nat)) (lbs : Q)
    (lb : option (list nat)) (pher : list (gmap nat Q)) :
  sparse successors pher -> sparse successors (deposit_pheromone successors lbs lb pher).
Proof.
  intros Hsp. unfold deposit_pheromone.
  destruct lb as [[|a tour]|]; [done| |done].
  by apply deposit_along_sparse.
Qed.

(** ** The main loop *)

Section ColonyFacts.
Variable pow : Q -> Q -> Q.
Variable obs : list Observation.
Variable num_ants : nat.
Variables alpha beta evap : Q.
Variable successors : list (list nat).
Variable heuristic : list (gmap nat Q).
Hypothesis successors_lt : forall i j, j ∈ successors !!! i -> j < length obs.
Hypothesis obs_nonempty : 0 < length obs.

Local Abbreviation round := (ant_round pow obs alpha beta successors heuristic).
Local Abbreviation rounds := (ant_rounds pow obs alpha beta successors heuristic).
Local Abbreviation iteration :=
  (aco_iteration pow obs num_ants alpha beta evap successors heuristic).
Local Abbreviation loop :=
  (aco_loop pow obs num_ants alpha beta evap successors heuristic).
Local Abbreviation run_from :=
  (iterations_from pow obs num_ants alpha beta evap successors heuristic).

(** The ants of one iteration all return; what every good tour preserves
    holds of the variables afterwards. *)
Lemma ant_rounds_inv (Inv : aco_vars -> Prop) k v g :
  (forall v tour, Inv v -> good_tour obs tour -> Inv (record_tour obs v tour)) ->
  Inv v ->
  exists v' g', rounds k v g = Returns (v', g') /\ Inv v'.
Proof.
  intros Hstep. revert v g. induction k as [|k IH]; intros v g Hv;
    cbn [ant_rounds].
  - by exists v, g.
  - destruct (build_ant_tour_spec pow obs alpha beta successors heuristic (pher v)
                successors_lt g obs_nonempty) as (tour & g' & Hret & Hgood).
    assert (Hround : round v g = Returns (record_tour obs v tour, g')).
    { unfold ant_round. by rewrite (rbind_Returns _ _ g g' tour Hret). }
    rewrite (rbind_Returns _ _ g g' _ Hround).
    apply IH. by apply Hstep.
Qed.

Lemma aco_iteration_inv (Inv : aco_vars -> Prop) v g :
  (forall v tour, Inv v -> good_tour obs tour -> Inv (record_tour obs v tour)) ->
  Inv (start_iteration v) ->
  exists v1 g',
    iteration v g = Returns (end_iteration evap successors v1, g') /\ Inv v1.
Proof.
  intros Hstep Hv.
  destruct (ant_rounds_inv Inv num_ants (start_iteration v) g Hstep Hv)
    as (v1 & g' & Hret & Hv1).
  exists v1, g'. split; [|done].
  unfold aco_iteration. by rewrite (rbind_Returns _ _ g g' v1 Hret).
Qed.

(** The loop returns, and appends to the history the record of each of its
    [k] iterations. *)
Lemma aco_loop_spec k v history g :
  exists new v' g',
    loop k v history g = Returns ((history ++ new, v'), g') /\
    length new = k /\ run_from v new v'.
Proof.
  revert v history g. induction k as [|k IH]; intros v history g;
    cbn [aco_loop].
  - exists [], v, g. rewrite app_nil_r. repeat split. constructor.
  - destruct (aco_iteration_inv (fun _ => True) v g) as (v1 & g1 & Hret & _);
      [done..|].
    rewrite (rbind_Returns _ _ g g1 _ Hret).
    destruct (IH (end_iteration evap successors v1).2
                (history ++ [end_iteration evap successors v1]) g1)
      as (new & v' & g' & Hloop & Hlen & Hrun).
    exists (end_iteration evap successors v1 :: new), v', g'.
    rewrite Hloop, <- app_assoc. simpl. repeat split; [by rewrite Hlen|].
    econstructor; [exact Hret|exact Hrun].
Qed.

(** What one iteration does to the variables. *)
Lemma aco_iteration_Returns (Inv : aco_vars -> Prop) v g r g' :
  (forall v tour, Inv v -> good_tour obs tour -> Inv (record_tour obs v tour)) ->
  Inv (start_iteration v) ->
  iteration v g = Returns (r, g') ->
  exists v1, r = end_iteration evap successors v1 /\ Inv v1.
Proof.
  intros Hstep Hv Hret.
  destruct (aco_iteration_inv Inv v g Hstep Hv) as (v1 & g1 & Hret' & Hv1).
  rewrite Hret in Hret'. injection Hret' as -> _. eauto.
Qed.

Lemma record_tour_pher v tour : pher (record_tour obs v tour) = pher v.
Proof.
  unfold record_tour.
  destruct (Qltb (local_best_score v) _), (Qltb (best_score v) _); reflexivity.
Qed.

Lemma record_tour_best v tour :
  (best_schedule (record_tour obs v tour) = best_schedule v /\
   best_score (record_tour obs v tour) = best_score v /\
   (tour_score obs tour <= best_score v)%Q) \/
  (best_schedule (record_tour obs v tour) = tour /\
   best_score (record_tour obs v tour) = tour_score obs tour /\
   (best_score v < tour_score obs tour)%Q).
Proof.
  unfold record_tour.
  destruct (Qltb (best_score v) (tour_score obs tour)) eqn:E;
    destruct (Qltb (local_best_score v) _); simpl.
  1,2: right; apply Qltb_lt in E; done.
  1,2: left; apply Qltb_ge in E; done.
Qed.

(** *** The table stays sparse *)

Lemma aco_iteration_sparse v g r g' :
  sparse successors (pher v) ->
  iteration v g = Returns (r, g') ->
  sparse successors r.1 /\ sparse successors (pher r.2).
Proof.
  intros Hsp Hret.
  destruct (aco_iteration_Returns (fun v1 => pher v1 = pher v) v g r g')
    as (v1 & -> & Hp); [|done|done|].
  { intros v0 tour Hv0 _. by rewrite record_tour_pher. }
  simpl. rewrite Hp.
  split; [by apply evaporate_sparse|].
  by apply deposit_pheromone_sparse, evaporate_sparse.
Qed.

Lemma iterations_sparse v history v' :
  run_from v history v' ->
  sparse successors (pher v) ->
  Forall (fun r => sparse successors r.1 /\ sparse successors (pher r.2)) history /\
  sparse successors (pher v').
Proof.
  induction 1 as [v|v g r g' history v' Hret Hrun IH]; intros Hsp.
  - split; [constructor|done].
  - destruct (aco_iteration_sparse v g r g' Hsp Hret) as [H1 H2].
    destruct (IH H2) as [H3 H4]. split; [|done]. by constructor.
Qed.

(** *** The best score never decreases *)

Lemma aco_iteration_best_score v g r g' :
  iteration v g = Returns (r, g') -> (best_score v <= best_score r.2)%Q.
Proof.
  intros Hret.
  destruct (aco_iteration_Returns (fun v1 => (best_score v <= best_score v1)%Q)
              v g r g') as (v1 & -> & Hp); [|simpl; lra|done|done].
  intros v0 tour Hv0 _.
  destruct (record_tour_best v0 tour) as [(_ & -> & _)|(_ & -> & Hlt)]; lra.
Qed.

Lemma iterations_best_score v history v' :
  run_from v history v' ->
  StronglySorted Qle (best_score v :: ((fun r => best_score r.2) <$> history)) /\
  (best_score v <= best_score v')%Q.
Proof.
  induction 1 as [v|v g r g' history v' Hret Hrun [IH1 IH2]].
  - split; [repeat constructor|lra].
  - pose proof (aco_iteration_best_score v g r g' Hret) as Hle.
    split; [|lra].
    simpl. constructor; [done|].
    apply StronglySorted_cons in IH1 as [Hall _].
    constructor; [done|].
    eapply Forall_impl; [exact Hall|]. intros x Hx. simpl in Hx. lra.
Qed.

(** *** The best schedule is empty or a tour some ant built *)

Lemma aco_iteration_best_schedule v g r g' :
  best_schedule v = [] \/ good_tour obs (best_schedule v) ->
  iteration v g = Returns (r, g') ->
  best_schedule r.2 = [] \/ good_tour obs (best_schedule r.2).
Proof.
  intros Hv Hret.
  destruct (aco_iteration_Returns
              (fun v1 => best_schedule v1 = [] \/ good_tour obs (best_schedule v1))
              v g r g') as (v1 & -> & Hp); [|done|done|done].
  intros v0 tour Hv0 Hgood.
  destruct (record_tour_best v0 tour) as [(-> & _)|(-> & _)]; [done|by right].
Qed.

Lemma iterations_best_schedule v history v' :
  run_from v history v' ->
  best_schedule v = [] \/ good_tour obs (best_schedule v) ->
  best_schedule v' = [] \/ good_tour obs (best_schedule v').
Proof.
  induction 1 as [v|v g r g' history v' Hret Hrun IH]; intros Hv; [done|].
  apply IH. by eapply aco_iteration_best_schedule.
Qed.

(** *** Invariants of the variables along a run *)

Lemma iterations_inv (Inv : aco_vars -> Prop) v history v' :
  (forall v tour, Inv v -> good_tour obs tour -> Inv (record_tour obs v tour)) ->
  (forall v, Inv v -> Inv (start_iteration v)) ->
  (forall v, Inv v -> Inv (end_iteration evap successors v).2) ->
  run_from v history v' -> Inv v -> Inv v'.
Proof.
  intros Hstep Hstart Hend.
  induction 1 as [v|v g r g' history v' Hret Hrun IH]; intros Hv; [done|].
  apply IH.
  destruct (aco_iteration_Returns Inv v g r g') as (v1 & -> & Hp); auto.
Qed.

Lemma iterations_last v history v' :
  run_from v history v' -> v' = default v (last (snd <$> history)).
Proof.
  induction 1 as [v|v g r g' history v' Hret Hrun IH]; [done|].
  rewrite IH, fmap_cons, last_cons.
  by destruct (last (snd <$> history)).
Qed.

End ColonyFacts.

(** ** A whole run *)

Lemma pysum_zero (xs : list Q) : Forall (fun x => (x == 0)%Q) xs -> (pysum xs == 0)%Q.
Proof.
  induction 1 as [|x xs Hx _ IH]; [reflexivity|].
  rewrite pysum_cons, Hx, IH. lra.
Qed.

Lemma Forall_Permutation_impl {A} (P : A -> Prop) (l l' : list A) :
  l ≡ₚ l' -> Forall P l -> Forall P l'.
Proof. intros Hp. by rewrite Hp. Qed.

Lemma valid_compatible_NoDup (l : list Observation) :
  Forall (fun o => (start o < end_ o)%Q) l -> StronglySorted compatible l -> NoDup l.
Proof.
  induction l as [|a l IH]; intros Hv Hc; [constructor|].
  apply Forall_cons in Hv as [Ha Hv]. apply StronglySorted_cons in Hc as [Hall Hc].
  constructor; [|auto].
  intros Hin. rewrite Forall_forall in Hall.
  destruct (Hall a Hin); lra.
Qed.

Section RunFacts.
Variable pow : Q -> Q -> Q.
Variable obs : list Observation.
Variable slew : list (list Q).
Variable num_ants : nat.
Variables alpha beta evap : Q.
Variables iterations top_k : nat.

Local Abbreviation n := (length obs).
Local Abbreviation run := (aco_run pow obs slew num_ants alpha beta evap iterations top_k).
Local Abbreviation schedule :=
  (ant_colony_schedule pow obs slew num_ants alpha beta evap iterations top_k).

Lemma built_successors_lt successors :
  build_successors obs slew top_k = Returns successors ->
  forall i j, j ∈ successors !!! i -> j < n.
Proof.
  intros H i j Hj.
  destruct (build_successors_spec obs slew top_k successors H) as [_ Hspec].
  destruct (successors !! i) as [succ|] eqn:Es.
  - rewrite (list_lookup_total_correct _ _ _ Es) in Hj.
    by apply (Hspec i succ Es).
  - rewrite list_lookup_total_alt, Es in Hj. simpl in Hj.
    by apply elem_of_nil in Hj.
Qed.

Lemma heuristic_row_total i succ row :
  slew_covers n slew = true -> i < n -> Forall (fun j => j < n) succ ->
  exists row', heuristic_row obs slew i succ row = Returns row'.
Proof.
  intros Hcov Hi Hs. revert row.
  induction Hs as [|j succ Hj _ IH]; intros row; simpl; [eauto|].
  destruct (slew_covers_lookup n slew i j Hcov Hi Hj) as (r & c & Hr & Hc).
  unfold index. rewrite Hr. simpl. rewrite Hc. simpl. apply IH.
Qed.

Lemma build_heuristic_total successors :
  slew_covers n slew = true ->
  build_successors obs slew top_k = Returns successors ->
  exists heuristic, build_heuristic obs slew successors = Returns heuristic.
Proof.
  intros Hcov Hb. apply for_each_total. apply Forall_forall.
  intros [i succ] Hin. apply list_elem_of_lookup in Hin as [k Hk].
  apply lookup_zip_with_Some in Hk as (i' & succ' & Heq & Hi & Hs).
  injection Heq as -> ->.
  apply lookup_seq in Hi as [-> Hlt]. simpl.
  apply heuristic_row_total; [done|done|].
  apply Forall_forall. intros j Hj.
  apply (built_successors_lt successors Hb k).
  by rewrite (list_lookup_total_correct _ _ _ Hs).
Qed.

(** The shape of a run that returned. *)
Lemma aco_run_Returns g t :
  0 < n -> run g = Returns t ->
  build_successors obs slew top_k = Returns (trace_successors t) /\
  trace_initial t = mkVars (init_pheromone (trace_successors t)) [] 0 0 None /\
  length (trace_history t) = iterations /\
  exists heuristic,
    iterations_from pow obs num_ants alpha beta evap (trace_successors t) heuristic
      (trace_initial t) (trace_history t) (trace_final t).
Proof.
  intros Hn H. unfold aco_run in H.
  apply obind_Returns in H as (successors & Hb & H).
  apply obind_Returns in H as (heuristic & Hh & H).
  apply obind_Returns in H as ([[history v] g'] & Hloop & H).
  injection H as <-. simpl.
  destruct (aco_loop_spec pow obs num_ants alpha beta evap successors heuristic
              (built_successors_lt successors Hb) Hn iterations
              (mkVars (init_pheromone successors) [] 0 0 None) [] g)
    as (new & v' & g'' & Hloop' & Hlen & Hrun).
  rewrite Hloop in Hloop'. injection Hloop' as -> -> _.
  repeat split; [done..|]. by exists heuristic.
Qed.

(** A run returns when the slew matrix covers every pair of tasks. *)
Lemma aco_run_total g :
  0 < n -> slew_covers n slew = true -> exists t, run g = Returns t.
Proof.
  intros Hn Hcov. unfold aco_run.
  destruct (build_successors_total obs slew top_k Hcov) as [successors Hb].
  rewrite Hb. simpl.
  destruct (build_heuristic_total successors Hcov Hb) as [heuristic Hh].
  rewrite Hh. simpl.
  destruct (aco_loop_spec pow obs num_ants alpha beta evap successors heuristic
              (built_successors_lt successors Hb) Hn iterations
              (mkVars (init_pheromone successors) [] 0 0 None) [] g)
    as (new & v' & g'' & Hloop & _).
  rewrite Hloop. simpl. eauto.
Qed.

Lemma schedule_total g :
  slew_covers n slew = true -> exists sched, schedule g = Returns sched.
Proof.
  intros Hcov. unfold ant_colony_schedule.
  destruct (n =? 0) eqn:En; [eauto|]. apply Nat.eqb_neq in En.
  destruct (aco_run_total g ltac:(lia) Hcov) as [t Ht]. rewrite Ht. simpl.
  destruct (best_schedule (trace_final t)); eauto.
Qed.

(** The best schedule of a run is empty or a tour some ant built. *)
Lemma aco_run_best_schedule g t :
  0 < n -> run g = Returns t ->
  best_schedule (trace_final t) = [] \/ good_tour obs (best_schedule (trace_final t)).
Proof.
  intros Hn Ht.
  destruct (aco_run_Returns g t Hn Ht) as (Hb & Hinit & _ & heuristic & Hrun).
  eapply (iterations_best_schedule pow obs num_ants alpha beta evap
            (trace_successors t) heuristic); [|done|exact Hrun|].
  - by apply built_successors_lt.
  - left. by rewrite Hinit.
Qed.

Lemma good_tour_non_overlapping tour :
  valid_intervals obs -> good_tour obs tour ->
  StronglySorted compatible (tasks_at obs tour).
Proof.
  intros Hvalid (_ & _ & _ & Hchain).
  apply (StronglySorted_fmap _
           (fun a b => (end_ (obs !!! a) <= start (obs !!! b))%Q) compatible).
  - intros a b H. by left.
  - by apply Hchain.
Qed.

Lemma tasks_at_valid idxs :
  valid_intervals obs -> Forall (fun j => j < n) idxs ->
  Forall (fun o => (start o < end_ o)%Q) (tasks_at obs idxs).
Proof.
  intros Hvalid Hlt. unfold tasks_at. apply Forall_fmap.
  eapply Forall_impl; [exact Hlt|]. intros j Hj. simpl in *.
  unfold valid_intervals in Hvalid. rewrite Forall_forall in Hvalid.
  by apply Hvalid, list_elem_of_lookup_total_2.
Qed.

End RunFacts.

(** ** The properties of the ant-colony search *)

(** C2. With valid intervals (end > start everywhere), every tour an ant
    builds over the candidate graph is returned, is duplicate-free and its
    tasks are pairwise non-overlapping, whatever the pheromone table and the
    random draws; and every schedule [ant_colony_schedule] returns is
    duplicate-free and pairwise non-overlapping.  The call returns whenever
    the slew matrix has an entry for every pair of tasks. *)
Theorem aco_tours_feasible (pow : Q -> Q -> Q) (obs : list Observation)
    (slew : list (list Q)) (num_ants : nat) (alpha beta evap : Q)
    (iterations top_k : nat) :
  valid_intervals obs ->
  (forall successors heuristic pher g,
     0 < length obs ->
     build_successors obs slew top_k = Returns successors ->
     exists tour g',
       build_ant_tour pow obs alpha beta successors heuristic pher g
         = Returns (tour, g') /\
       NoDup tour /\ non_overlapping (tasks_at obs tour)) /\
  (forall g sched,
     ant_colony_schedule pow obs slew num_ants alpha beta evap iterations top_k g
       = Returns sched ->
     NoDup sched /\ non_overlapping sched) /\
  (slew_covers (length obs) slew = true ->
   forall g, exists sched,
     ant_colony_schedule pow obs slew num_ants alpha beta evap iterations top_k g
       = Returns sched).
Proof.
  intros Hvalid. split; [|split].
  - intros successors heuristic pher g Hn Hb.
    destruct (build_ant_tour_spec pow obs alpha beta successors heuristic pher
                (built_successors_lt obs slew top_k successors Hb) g Hn)
      as (tour & g' & Hret & Hgood).
    exists tour, g'. split; [done|]. split; [apply Hgood|].
    apply non_overlapping_StronglySorted.
    by apply good_tour_non_overlapping.
  - intros g sched Hret. unfold ant_colony_schedule in Hret.
    destruct (length obs =? 0) eqn:En.
    { injection Hret as <-. split; [constructor|]. by intros i j a b _ ?. }
    apply Nat.eqb_neq in En.
    apply obind_Returns in Hret as (t & Ht & Hret).
    destruct (aco_run_best_schedule pow obs slew num_ants alpha beta evap
                iterations top_k g t ltac:(lia) Ht) as [Hbest|Hgood].
    { rewrite Hbest in Hret. injection Hret as <-.
      split; [constructor|]. by intros i j a b _ ?. }
    destruct (best_schedule (trace_final t)) as [|b best] eqn:Eb.
    { injection Hret as <-. split; [constructor|]. by intros i j a b _ ?. }
    injection Hret as <-.
    assert (Hc : StronglySorted compatible
                   (sorted_by_key start (tasks_at obs (b :: best)))).
    { eapply (StronglySorted_Permutation compatible);
        [apply compatible_sym| |by apply good_tour_non_overlapping].
      symmetry. apply stable_sort_Permutation. }
    split; [|by apply non_overlapping_StronglySorted].
    apply valid_compatible_NoDup; [|done].
    pose proof (tasks_at_valid obs (b :: best) Hvalid ltac:(apply Hgood)) as Hv.
    revert Hv. apply Forall_Permutation_impl.
    symmetry.
    exact (stable_sort_Permutation (fun x y => Qle_bool (start x) (start y))
             (tasks_at obs (b :: best))).
  - intros Hcov g. by apply schedule_total.
Qed.

Lemma aco_tours_feasible_witness :
  valid_intervals three_tasks /\
  exists sched,
    ant_colony_schedule pow_int three_tasks slew3 2 1 2 (3 # 10) 2 50 draws
      = Returns sched /\
    NoDup sched /\ non_overlapping sched.
Proof.
  assert (Hvalid : valid_intervals three_tasks).
  { unfold valid_intervals, three_tasks. repeat constructor. }
  split; [exact Hvalid|].
  destruct (aco_tours_feasible pow_int three_tasks slew3 2 1 2 (3 # 10) 2 50 Hvalid)
    as (_ & Hsched & Htotal).
  destruct (Htotal ltac:(reflexivity) draws) as [sched Hret].
  exists sched. split; [exact Hret|]. exact (Hsched draws sched Hret).
Defined.

(** C4. Throughout a run of [ant_colony_schedule] the pheromone table is
    confined to the candidate graph: after initialization, after the
    evaporation pass and after the deposit pass of every iteration, [pher[i]]
    has the key [j] only if [j] is in [successors[i]]. *)
Theorem pheromone_sparsity (pow : Q -> Q -> Q) (obs : list Observation)
    (slew : list (list Q)) (num_ants : nat) (alpha beta evap : Q)
    (iterations top_k : nat) (g : Rng) (t : aco_trace) :
  0 < length obs ->
  aco_run pow obs slew num_ants alpha beta evap iterations top_k g = Returns t ->
  build_successors obs slew top_k = Returns (trace_successors t) /\
  length (trace_history t) = iterations /\
  sparse (trace_successors t) (pher (trace_initial t)) /\
  Forall (fun r => sparse (trace_successors t) r.1 /\
                   sparse (trace_successors t) (pher r.2)) (trace_history t) /\
  sparse (trace_successors t) (pher (trace_final t)).
Proof.
  intros Hn Ht.
  destruct (aco_run_Returns pow obs slew num_ants alpha beta evap iterations top_k
              g t Hn Ht) as (Hb & Hinit & Hlen & heuristic & Hrun).
  assert (Hsp : sparse (trace_successors t) (pher (trace_initial t))).
  { rewrite Hinit. apply init_pheromone_sparse. }
  destruct (iterations_sparse pow obs num_ants alpha beta evap (trace_successors t)
              heuristic (built_successors_lt obs slew top_k _ Hb) Hn
              _ _ _ Hrun Hsp) as [Hall Hfinal].
  done.
Qed.

Lemma pheromone_sparsity_witness :
  exists t,
    aco_run pow_int three_tasks slew3 2 1 2 (3 # 10) 2 50 draws = Returns t /\
    length (trace_history t) = 2 /\
    sparse (trace_successors t) (pher (trace_initial t)) /\
    Forall (fun r => sparse (trace_successors t) r.1 /\
                     sparse (trace_successors t) (pher r.2)) (trace_history t).
Proof.
  eexists. split; [vm_compute; reflexivity|].
  destruct (pheromone_sparsity pow_int three_tasks slew3 2 1 2 (3 # 10) 2 50 draws _
              ltac:(simpl; lia) ltac:(vm_compute; reflexivity))
    as (_ & Hlen & Hinit & Hall & _).
  split; [exact Hlen|]. split; [exact Hinit|exact Hall].
Defined.

(** C6. Within one run the global-best score never decreases: in the
    sequence made of the initial score and the score after each iteration,
    every score is at most every later one; the last one is the score the
    run ends with. *)
Theorem best_score_monotone (pow : Q -> Q -> Q) (obs : list Observation)
    (slew : list (list Q)) (num_ants : nat) (alpha beta evap : Q)
    (iterations top_k : nat) (g : Rng) (t : aco_trace) :
  0 < length obs ->
  aco_run pow obs slew num_ants alpha beta evap iterations top_k g = Returns t ->
  length (trace_history t) = iterations /\
  StronglySorted Qle
    (best_score (trace_initial t)
       :: ((fun r => best_score r.2) <$> trace_history t)) /\
  trace_final t = default (trace_initial t) (last (snd <$> trace_history t)).
Proof.
  intros Hn Ht.
  destruct (aco_run_Returns pow obs slew num_ants alpha beta evap iterations top_k
              g t Hn Ht) as (Hb & Hinit & Hlen & heuristic & Hrun).
  pose proof (built_successors_lt obs slew top_k _ Hb) as Hlt.
  split; [done|]. split.
  - exact (proj1 (iterations_best_score pow obs num_ants alpha beta evap _ heuristic
                    Hlt Hn _ _ _ Hrun)).
  - exact (iterations_last pow obs num_ants alpha beta evap _ heuristic _ _ _ Hrun).
Qed.

Lemma best_score_monotone_witness :
  exists t,
    aco_run pow_int three_tasks slew3 2 1 2 (3 # 10) 2 50 draws = Returns t /\
    StronglySorted Qle
      (best_score (trace_initial t)
         :: ((fun r => best_score r.2) <$> trace_history t)).
Proof.
  eexists. split; [vm_compute; reflexivity|].
  destruct (best_score_monotone pow_int three_tasks slew3 2 1 2 (3 # 10) 2 50 draws _
              ltac:(simpl; lia) ltac:(vm_compute; reflexivity))
    as (_ & Hsorted & _).
  exact Hsorted.
Defined.

(** C10.  On a non-empty input whose tasks all have weight 0,
    [ant_colony_schedule] returns the empty schedule, although every tour an
    ant builds has at least one task: no tour scores more than the initial
    best score 0.  (The slew matrix has an entry for every pair of tasks.) *)
Theorem zero_weights_empty_schedule (pow : Q -> Q -> Q) (obs : list Observation)
    (slew : list (list Q)) (num_ants : nat) (alpha beta evap : Q)
    (iterations top_k : nat) :
  0 < length obs ->
  Forall (fun o => (weight o == 0)%Q) obs ->
  slew_covers (length obs) slew = true ->
  (forall g,
     ant_colony_schedule pow obs slew num_ants alpha beta evap iterations top_k g
       = Returns []) /\
  (forall successors heuristic pher g,
     build_successors obs slew top_k = Returns successors ->
     exists tour g',
       build_ant_tour pow obs alpha beta successors heuristic pher g
         = Returns (tour, g') /\
       tour <> []).
Proof.
  intros Hn Hzero Hcov. split.
  - intros g. unfold ant_colony_schedule.
    destruct (length obs =? 0) eqn:En; [apply Nat.eqb_eq in En; lia|].
    destruct (aco_run_total pow obs slew num_ants alpha beta evap iterations top_k
                g Hn Hcov) as [t Ht].
    rewrite Ht. simpl.
    destruct (aco_run_Returns pow obs slew num_ants alpha beta evap iterations top_k
                g t Hn Ht) as (Hb & Hinit & _ & heuristic & Hrun).
    assert (Hscore : forall tour, (tour_score obs tour == 0)%Q).
    { intros tour. unfold tour_score. apply pysum_zero, Forall_fmap, Forall_forall.
      intros i _. simpl. rewrite list_lookup_total_alt.
      destruct (obs !! i) as [o|] eqn:Eo; simpl; [|reflexivity].
      rewrite Forall_forall in Hzero. apply Hzero.
      eapply list_elem_of_lookup_2. exact Eo. }
    assert (Hinv : best_schedule (trace_final t) = [] /\
                   (best_score (trace_final t) == 0)%Q).
    { eapply (iterations_inv pow obs num_ants alpha beta evap (trace_successors t)
                heuristic (built_successors_lt obs slew top_k _ Hb) Hn
                (fun v => best_schedule v = [] /\ (best_score v == 0)%Q));
        [| | |exact Hrun|].
      - intros v tour [Hs Hz] _.
        destruct (record_tour_best obs v tour) as [(-> & -> & _)|(_ & _ & Hlt)];
          [done|].
        specialize (Hscore tour). lra.
      - by intros v [? ?].
      - by intros v [? ?].
      - rewrite Hinit. simpl. split; [done|reflexivity]. }
    destruct Hinv as [-> _]. reflexivity.
  - intros successors heuristic pher g Hb.
    destruct (build_ant_tour_spec pow obs alpha beta successors heuristic pher
                (built_successors_lt obs slew top_k successors Hb) g Hn)
      as (tour & g' & Hret & Hne & _).
    by exists tour, g'.
Qed.

Lemma zero_weights_empty_schedule_witness :
  ant_colony_schedule pow_int two_zero_tasks slew2 2 1 2 (3 # 10) 2 50 draws
    = Returns [].
Proof.
  apply (zero_weights_empty_schedule pow_int two_zero_tasks slew2 2 1 2 (3 # 10) 2 50).
  - simpl. lia.
  - unfold two_zero_tasks. repeat constructor.
  - reflexivity.
Defined.

(** C8. On an empty task list the three strategies return the empty
    schedule, whose total score is 0. *)
Theorem empty_input (pow : Q -> Q -> Q) (fuel : nat) (slew : list (list Q))
    (num_ants : nat) (alpha beta evap : Q) (iterations top_k : nat) (g : Rng)
    (slew_matrix : option (list (list Q))) :
  dynamic_weighted_interval_scheduling pow fuel [] = Returns [] /\
  ant_colony_schedule pow [] slew num_ants alpha beta evap iterations top_k g
    = Returns [] /\
  greedy_schedule [] slew_matrix = [] /\
  total_weight [] = 0%Q /\ total_transformed pow [] = 0%Q.
Proof. repeat split. Qed.

(** ** Inputs with an invalid interval *)

Lemma bisect_right_loop_range (fuel : nat) (a : list Q) (x : Q) (lo hi : nat) :
  lo <= hi -> lo <= bisect_right_loop fuel a x lo hi <= hi.
Proof.
  revert lo hi. induction fuel as [|fuel IH]; intros lo hi Hle;
    cbn [bisect_right_loop]; [lia|].
  destruct (lo <? hi) eqn:E; [|lia]. apply Nat.ltb_lt in E.
  assert (Hmid : lo <= (lo + hi) / 2 < hi).
  { pose proof (Nat.div_mod_eq (lo + hi) 2).
    pose proof (Nat.mod_upper_bound (lo + hi) 2). lia. }
  destruct (Qltb x (a !!! ((lo + hi) / 2))).
  - pose proof (IH lo ((lo + hi) / 2) ltac:(lia)). lia.
  - pose proof (IH ((lo + hi) / 2 + 1) hi ltac:(lia)). lia.
Qed.

(** Among more than [n] numbers below [n], two are equal. *)
Lemma pigeonhole (l : list nat) (n : nat) :
  Forall (fun x => x < n) l -> n < length l ->
  exists i j x, i < j /\ l !! i = Some x /\ l !! j = Some x.
Proof.
  intros Hlt Hlen.
  assert (Hnd : ~ NoDup l).
  { intros Hnd. pose proof (NoDup_lt_length l n Hnd Hlt). lia. }
  clear Hlt Hlen. induction l as [|x l IH].
  - destruct Hnd. constructor.
  - destruct (decide (x ∈ l)) as [Hin|Hnotin].
    + apply list_elem_of_lookup in Hin as [j Hj].
      exists 0, (S j), x. split; [lia|]. by split.
    + destruct IH as (i & j & y & Hij & Hi & Hj).
      { intros Hl. apply Hnd. by constructor. }
      exists (S i), (S j), y. split; [lia|]. by split.
Qed.

(** A walk on [0..n] that is not at 0 after [n] steps, 0 being a fixed
    point, never arrives there. *)
Lemma walk_never_arrives (f : nat -> nat) (n s : nat) :
  f 0 = 0 -> (forall i, i <= n -> f i <= n) -> s <= n ->
  Nat.iter n f s <> 0 -> forall k, Nat.iter k f s <> 0.
Proof.
  intros H0 Hrange Hs Hn.
  assert (Hstay : forall k m, Nat.iter k f s = 0 -> Nat.iter (m + k) f s = 0).
  { intros k m Hk. induction m as [|m IH]; [done|]. simpl. by rewrite IH. }
  assert (Hearly : forall k, k <= n -> Nat.iter k f s <> 0).
  { intros k Hk Hz. apply Hn. replace n with ((n - k) + k) by lia. by apply Hstay. }
  assert (Hin : forall k, Nat.iter k f s <= n).
  { induction k as [|k IH]; simpl; auto. }
  destruct (pigeonhole ((fun k => Nat.iter k f s - 1) <$> seq 0 (S n)) n)
    as (a & b & x & Hab & Ha & Hb).
  { apply Forall_fmap, Forall_forall. intros k Hk. apply elem_of_seq in Hk.
    pose proof (Hearly k ltac:(lia)). pose proof (Hin k). simpl. lia. }
  { rewrite length_fmap, length_seq. lia. }
  apply list_lookup_fmap_Some in Ha as (a' & -> & Ha').
  apply list_lookup_fmap_Some in Hb as (b' & Heq & Hb').
  apply lookup_seq in Ha' as [-> Ha'], Hb' as [-> Hb']. simpl in *.
  assert (Hsame : Nat.iter a f s = Nat.iter b f s).
  { pose proof (Hearly a ltac:(lia)). pose proof (Hearly b ltac:(lia)). lia. }
  assert (Hshift : forall m, Nat.iter (m + a) f s = Nat.iter (m + b) f s).
  { induction m as [|m IH]; simpl; congruence. }
  intros k. induction k as [k IH] using (well_founded_induction Nat.lt_wf_0).
  destruct (decide (k <= n)) as [Hk|Hk]; [by apply Hearly|].
  replace k with ((k - b) + b) by lia. rewrite <- Hshift.
  apply IH. lia.
Qed.

Section Reconstruction.
Variables (indices : list nat) (ws : list Q) (p : list Z) (M : list Q).

Local Abbreviation next := (dp_next ws p M).
Local Abbreviation reconstruct fuel := (dp_reconstruct fuel indices ws p M).

Lemma dp_next_iter_0 k : Nat.iter k next 0 = 0.
Proof. induction k as [|k IH]; [done|]. by rewrite Nat.iter_succ, IH. Qed.

Lemma dp_reconstruct_step fuel i chosen :
  0 < i ->
  exists chosen', reconstruct (S fuel) i chosen = reconstruct fuel (next i) chosen'.
Proof.
  intros Hi. destruct i as [|i]; [lia|]. cbn [dp_reconstruct dp_next].
  destruct (Qle_bool _ _); eauto.
Qed.

Lemma dp_reconstruct_arrives fuel i chosen :
  Nat.iter fuel next i = 0 -> exists r, reconstruct fuel i chosen = Returns r.
Proof.
  revert i chosen. induction fuel as [|fuel IH]; intros i chosen H.
  - simpl in H. subst i. by exists chosen.
  - destruct i as [|i]; [by exists chosen|].
    destruct (dp_reconstruct_step fuel (S i) chosen ltac:(lia)) as [chosen' ->].
    apply IH. by rewrite Nat.iter_succ_r in H.
Qed.

Lemma dp_reconstruct_never fuel i chosen :
  Nat.iter fuel next i <> 0 -> reconstruct fuel i chosen = Diverges.
Proof.
  revert i chosen. induction fuel as [|fuel IH]; intros i chosen H.
  - simpl in H. by destruct i.
  - destruct i as [|i].
    { destruct H. apply dp_next_iter_0. }
    destruct (dp_reconstruct_step fuel (S i) chosen ltac:(lia)) as [chosen' ->].
    apply IH. by rewrite Nat.iter_succ_r in H.
Qed.

Lemma dp_reconstruct_more_fuel fuel fuel' i chosen r :
  reconstruct fuel i chosen = Returns r -> fuel <= fuel' ->
  reconstruct fuel' i chosen = Returns r.
Proof.
  revert fuel' i chosen. induction fuel as [|fuel IH]; intros fuel' i chosen H Hle.
  - destruct i; [|done]. by destruct fuel'.
  - destruct fuel' as [|fuel']; [lia|].
    destruct i as [|i]; [done|]. cbn [dp_reconstruct] in *.
    destruct (Qle_bool _ _); apply IH; (done || lia).
Qed.

End Reconstruction.

(** The dynamic program on any input, valid or not: it returns the same
    schedule for every fuel from [n] on, or it never returns. *)
Lemma dp_returns_or_never (pow : Q -> Q -> Q) (obs : list Observation) :
  (exists sched, forall fuel, length obs <= fuel ->
     dynamic_weighted_interval_scheduling pow fuel obs = Returns sched) \/
  (forall fuel, dynamic_weighted_interval_scheduling pow fuel obs = Diverges).
Proof.
  destruct (decide (length obs = 0)) as [Hz|Hpos].
  { left. exists []. intros fuel _. by destruct obs. }
  unfold dynamic_weighted_interval_scheduling, dp_chosen_indices.
  set (n := length obs) in *.
  set (indices := dp_indices obs).
  set (es := (fun i => (end_ <$> obs) !!! i) <$> indices).
  set (ss := (fun i => (start <$> obs) !!! i) <$> indices).
  set (ws := (fun i => (transformed_weight pow <$> obs) !!! i) <$> indices).
  set (p := dp_p es ss). set (M := dp_table ws p n).
  assert (Hlen : length indices = n).
  { unfold indices, dp_indices, sorted_by_key.
    rewrite stable_sort_length. apply length_seq. }
  assert (Hrange : forall i, i <= n -> dp_next ws p M i <= n).
  { intros i Hi. destruct i as [|i]; [simpl; lia|]. cbn [dp_next].
    destruct (Qle_bool _ _); [|lia].
    replace (S i - 1) with i by lia.
    assert (Hp : p !!! i = (Z.of_nat (bisect_right es (ss !!! i)) - 1)%Z).
    { apply (list_lookup_total_fmap
               (fun s => (Z.of_nat (bisect_right es s) - 1)%Z) ss i).
      unfold ss. rewrite length_fmap. lia. }
    rewrite Hp.
    pose proof (bisect_right_loop_range (length es) es (ss !!! i) 0 (length es)
                  ltac:(lia)) as Hb.
    fold (bisect_right es (ss !!! i)) in Hb.
    assert (length es = n) by (unfold es; by rewrite length_fmap). lia. }
  destruct (decide (Nat.iter n (dp_next ws p M) n = 0)) as [Hz|Hnz].
  - left. destruct (dp_reconstruct_arrives indices ws p M n n [] Hz) as [r Hr].
    exists (tasks_at obs (reverse r)). intros fuel Hf.
    replace (n =? 0) with false by (symmetry; by apply Nat.eqb_neq).
    by rewrite (dp_reconstruct_more_fuel indices ws p M n fuel n [] r Hr Hf).
  - right. intros fuel.
    replace (n =? 0) with false by (symmetry; by apply Nat.eqb_neq).
    rewrite dp_reconstruct_never; [done|].
    apply (walk_never_arrives (dp_next ws p M) n n); auto.
Qed.

Lemma dp_reconstruct_no_raise fuel indices ws p M i chosen e :
  dp_reconstruct fuel indices ws p M i chosen <> Raises e.
Proof.
  revert i chosen. induction fuel as [|fuel IH]; intros i chosen;
    destruct i as [|i]; cbn [dp_reconstruct]; try done.
  destruct (Qle_bool _ _); apply IH.
Qed.

Lemma dp_no_raise (pow : Q -> Q -> Q) (fuel : nat) (obs : list Observation) (e : exn) :
  dynamic_weighted_interval_scheduling pow fuel obs <> Raises e.
Proof.
  unfold dynamic_weighted_interval_scheduling, dp_chosen_indices.
  destruct (length obs =? 0); [done|].
  match goal with
  | |- context [dp_reconstruct ?f ?i ?w ?p ?M ?n ?c] =>
      pose proof (dp_reconstruct_no_raise f i w p M n c e) as H;
      destruct (dp_reconstruct f i w p M n c)
  end; simpl.
  - intros Heq. discriminate Heq.
  - intros Heq. apply H. by injection Heq as ->.
  - intros Heq. discriminate Heq.
Qed.

(** The reconstruction loop of the dynamic program does not terminate on
    a single task of length zero. *)
Lemma dp_diverges_on_empty_task (fuel : nat) :
  dynamic_weighted_interval_scheduling pow_int fuel [empty_task] = Diverges.
Proof.
  unfold dynamic_weighted_interval_scheduling, dp_chosen_indices.
  cbn [length Nat.eqb].
  set (indices := dp_indices [empty_task]).
  set (ws := (fun i => (transformed_weight pow_int <$> [empty_task]) !!! i) <$> indices).
  set (p := dp_p _ _). set (M := dp_table ws p 1).
  assert (Hloop : forall chosen, dp_reconstruct fuel indices ws p M 1 chosen = Diverges).
  { induction fuel as [|fuel IH]; intros chosen; [reflexivity|].
    cbn [dp_reconstruct].
    replace (Qle_bool (M !!! (1 - 1)) (dp_incl ws p M 1)) with true
      by (vm_compute; reflexivity).
    replace (Z.to_nat (p !!! (1 - 1) + 1)) with 1 by (vm_compute; reflexivity).
    apply IH. }
  by rewrite Hloop.
Qed.

(** C3, as the specification states it, fails: given a task that ends
    before it starts, the dynamic program returns the other task and the
    ant-colony search returns the task itself; neither call fails. *)
Lemma invalid_interval_not_rejected :
  (end_ backwards_task <= start backwards_task)%Q /\
  dynamic_weighted_interval_scheduling pow_int 2 backwards_pair
    = Returns [interval_task 2 3 1 100] /\
  ant_colony_schedule pow_int [backwards_task] [[0%Q]] 1 1 2 (3 # 10) 1 50 draws
    = Returns [backwards_task].
Proof.
  split; [by vm_compute|]. split; vm_compute; reflexivity.
Qed.


(** ** The zero-total fallback of tour construction *)

Lemma tuple_lt_true (a b : Q * nat) :
  tuple_lt a b = true <-> (a.1 < b.1)%Q \/ ((a.1 == b.1)%Q /\ a.2 < b.2).
Proof.
  unfold tuple_lt. destruct (Qeq_bool a.1 b.1) eqn:E.
  - apply Qeq_bool_iff in E. rewrite Nat.ltb_lt. split; [by right|].
    intros [H|[_ H]]; [lra|done].
  - apply Qeq_bool_neq in E. rewrite Qltb_lt. split; [by left|].
    intros [H|[H _]]; done.
Qed.

Lemma tuple_lt_false (a b : Q * nat) :
  tuple_lt a b = false <-> (b.1 < a.1)%Q \/ ((a.1 == b.1)%Q /\ b.2 <= a.2).
Proof.
  unfold tuple_lt. destruct (Qeq_bool a.1 b.1) eqn:E.
  - apply Qeq_bool_iff in E. rewrite Nat.ltb_ge. split; [by right|].
    intros [H|[_ H]]; [lra|done].
  - apply Qeq_bool_neq in E. rewrite Qltb_ge. split.
    + intros H. left. apply Qle_lt_or_eq in H as [H|H]; [done|].
      destruct E. by symmetry.
    + intros [H|[H _]]; [lra|done].
Qed.

Lemma sort_reverse_sorted (cand : list (Q * nat)) :
  StronglySorted (fun x y => tuple_lt x y = false) (sort_reverse cand).
Proof.
  eapply StronglySorted_impl_elem;
    [|apply (stable_sort_sorted (fun x y => negb (tuple_lt x y)))].
  - intros a b _ _ H. by apply negb_true_iff in H.
  - intros x y H. apply negb_false_iff, tuple_lt_true in H.
    apply negb_true_iff, tuple_lt_false.
    destruct H as [H|[H1 H2]]; [by left|right]. split; [by symmetry|lia].
  - intros x y z H1 H2.
    apply negb_true_iff, tuple_lt_false in H1.
    apply negb_true_iff, tuple_lt_false in H2.
    apply negb_true_iff, tuple_lt_false.
    destruct H1 as [H1|[H1 H1']], H2 as [H2|[H2 H2']].
    + left. lra.
    + left. lra.
    + left. lra.
    + right. split; [lra|lia].
Qed.

(** The first tuple after [cand.sort(reverse=True)] is a greatest one. *)
Lemma sort_reverse_head (cand : list (Q * nat)) :
  cand <> [] ->
  sort_reverse cand !!! 0 ∈ cand /\
  forall c, c ∈ cand -> tuple_lt (sort_reverse cand !!! 0) c = false.
Proof.
  intros Hne. pose proof (sort_reverse_sorted cand) as Hs.
  assert (Hp : sort_reverse cand ≡ₚ cand) by apply stable_sort_Permutation.
  destruct (sort_reverse cand) as [|h sorted] eqn:E.
  { apply Permutation_nil_l in Hp. by subst. }
  simpl. split; [rewrite <- Hp; left|].
  intros c Hc. rewrite <- Hp in Hc.
  apply elem_of_cons in Hc as [->|Hc].
  - apply tuple_lt_false. right. split; [reflexivity|lia].
  - apply StronglySorted_cons in Hs as [Hall _].
    rewrite Forall_forall in Hall. by apply Hall.
Qed.

Section Fallback.
Variable pow : Q -> Q -> Q.
Variable obs : list Observation.
Variables alpha beta : Q.
Variable successors : list (list nat).
Variable heuristic : list (gmap nat Q).
Variable pher : list (gmap nat Q).

Local Abbreviation weight_of := (selection_weight pow alpha beta heuristic pher).
Local Abbreviation scored := (scored_candidates pow obs alpha beta successors heuristic pher).
Local Abbreviation loop := (tour_loop pow obs alpha beta successors heuristic pher).

(** The candidate list of the loop: the scored candidates, each with its
    selection weight. *)
Lemma tour_candidates_scored last used :
  tour_candidates pow obs alpha beta heuristic pher last used (successors !!! last)
    = (fun j => (weight_of last j, j)) <$> scored last used.
Proof.
  unfold scored_candidates, feasible_unused.
  induction (successors !!! last) as [|j succ IH]; [done|].
  cbn [tour_candidates]. rewrite (filter_cons _ j succ).
  destruct (used !!! j) eqn:Eu.
  { rewrite decide_False by (intros [? _]; done). exact IH. }
  destruct (Qle_bool (end_ (obs !!! last)) (start (obs !!! j))) eqn:Ef.
  2: { rewrite decide_False by (intros [_ ?]; done). exact IH. }
  rewrite decide_True by done. rewrite filter_cons.
  fold (trail_factor pow alpha pher last j).
  fold (heuristic_factor pow beta heuristic last j).
  destruct (Qle_bool (trail_factor pow alpha pher last j) 0
            && Qle_bool (heuristic_factor pow beta heuristic last j) 0) eqn:Es.
  - rewrite decide_False by done. exact IH.
  - rewrite decide_True by done. rewrite fmap_cons, <- IH. reflexivity.
Qed.

Lemma tour_loop_fallback fuel selected used g cand :
  tour_candidates pow obs alpha beta heuristic pher (default 0 (last selected)) used
    (successors !!! default 0 (last selected)) = cand ->
  cand <> [] -> (pysum cand.*1 <= 0)%Q ->
  loop (S fuel) selected used g
    = loop fuel (selected ++ [(sort_reverse cand !!! 0).2])
        (<[(sort_reverse cand !!! 0).2 := true]> used) g.
Proof.
  intros Hc Hne Hsum. rewrite tour_loop_unfold. cbv zeta. rewrite Hc.
  destruct cand as [|c cand']; [done|].
  unfold choose_next. apply Qle_bool_iff in Hsum. rewrite Hsum. reflexivity.
Qed.

Lemma zero_total_fallback fuel selected used g :
  let last := default 0 (last selected) in
  scored last used <> [] ->
  (pysum (weight_of last <$> scored last used) <= 0)%Q ->
  exists best,
    best ∈ scored last used /\
    (forall j, j ∈ scored last used ->
       tuple_lt (weight_of last best, best) (weight_of last j, j) = false) /\
    loop (S fuel) selected used g
      = loop fuel (selected ++ [best]) (<[best := true]> used) g.
Proof.
  intros lst Hne Hsum.
  pose proof (tour_candidates_scored lst used) as Hcand.
  assert (Hcne : (fun j => (weight_of lst j, j)) <$> scored lst used <> []).
  { destruct (scored lst used); done. }
  destruct (sort_reverse_head _ Hcne) as [Hin Hmax].
  apply list_elem_of_fmap in Hin as (best & Hbest & Hin).
  exists best. split; [done|]. split.
  - intros j Hj. rewrite <- Hbest. apply Hmax.
    by apply (list_elem_of_fmap_2 (fun j => (weight_of lst j, j))).
  - rewrite (tour_loop_fallback fuel selected used g _ Hcand Hcne).
    + by rewrite Hbest.
    + by rewrite <- list_fmap_compose.
Qed.

End Fallback.

(** C9, as the specification states it, fails.  After an evaporation with
    [evap = 1] the table of the two weight-0 tasks is empty; the first task
    then has an unused start-feasible candidate successor whose selection
    weight is zero, and the ant stops at the first task instead of taking
    it. *)
Lemma fallback_does_not_cover_dead_candidates :
  build_successors two_zero_tasks slew2 50 = Returns [[1]; []] /\
  build_heuristic two_zero_tasks slew2 [[1]; []] = Returns [{[1 := 0 # 3]}; ∅] /\
  feasible_unused two_zero_tasks [[1]; []] 0 [true; false] = [1] /\
  Qeq (pysum (selection_weight pow_int 1 2 [{[1 := 0 # 3]}; ∅]
                (evaporate 1 (init_pheromone [[1]; []])) 0
              <$> feasible_unused two_zero_tasks [[1]; []] 0 [true; false])) 0 /\
  tour_loop pow_int two_zero_tasks 1 2 [[1]; []] [{[1 := 0 # 3]}; ∅]
    (evaporate 1 (init_pheromone [[1]; []])) 2 [0] [true; false] draws
    = Returns ([0], draws).
Proof.
  split; [vm_compute; reflexivity|].
  split; [vm_compute; reflexivity|].
  split; [vm_compute; reflexivity|].
  split; [vm_compute; reflexivity|].
  vm_compute. reflexivity.
Qed.

(** C9, amended.  During tour construction the ant scores the unused,
    start-feasible candidate successors of the last chosen task, leaving
    out those with [trail ** alpha <= 0] and [heuristic ** beta <= 0].
    Whenever the scored candidates are not empty and their selection
    weights sum to at most zero, the ant draws no random number and extends
    the tour with the scored candidate whose pair (selection weight, index)
    is greatest.  When no candidate is scored, the tour ends: the loop
    returns the tasks selected so far and draws no random number. *)
Theorem fallback_choice (pow : Q -> Q -> Q) (obs : list Observation)
    (alpha beta : Q) (successors : list (list nat))
    (heuristic pher : list (gmap nat Q))
    (fuel : nat) (selected : list nat) (used : list bool) (g : Rng) :
  let last := default 0 (last selected) in
  let scored := scored_candidates pow obs alpha beta successors heuristic pher last used in
  let weight_of := selection_weight pow alpha beta heuristic pher last in
  (scored <> [] ->
   (pysum (weight_of <$> scored) <= 0)%Q ->
   exists best,
     best ∈ scored /\
     (forall j, j ∈ scored -> tuple_lt (weight_of best, best) (weight_of j, j) = false) /\
     tour_loop pow obs alpha beta successors heuristic pher (S fuel) selected used g
       = tour_loop pow obs alpha beta successors heuristic pher fuel
           (selected ++ [best]) (<[best := true]> used) g) /\
  (scored = [] ->
   tour_loop pow obs alpha beta successors heuristic pher fuel selected used g
     = Returns (selected, g)).
Proof.
  intros lst scored weight_of. split; [apply zero_total_fallback|].
  intros Hnil. rewrite tour_loop_unfold. cbv zeta. fold lst.
  rewrite (tour_candidates_scored pow obs alpha beta successors heuristic pher).
  fold scored. by rewrite Hnil.
Qed.

Lemma fallback_choice_witness :
  scored_candidates pow_int three_zero_tasks 1 2 [[1; 2]; [2]; []]
    [{[1 := 0%Q; 2 := 0%Q]}; {[2 := 0%Q]}; ∅]
    (init_pheromone [[1; 2]; [2]; []]) 0 [true; false; false] = [1; 2] /\
  (exists best,
     best ∈ [1; 2] /\
     (forall j, j ∈ [1; 2] -> tuple_lt (0%Q, best) (0%Q, j) = false) /\
     tour_loop pow_int three_zero_tasks 1 2 [[1; 2]; [2]; []]
       [{[1 := 0%Q; 2 := 0%Q]}; {[2 := 0%Q]}; ∅]
       (init_pheromone [[1; 2]; [2]; []]) 3 [0] [true; false; false] draws
       = tour_loop pow_int three_zero_tasks 1 2 [[1; 2]; [2]; []]
           [{[1 := 0%Q; 2 := 0%Q]}; {[2 := 0%Q]}; ∅]
           (init_pheromone [[1; 2]; [2]; []]) 2 ([0] ++ [best])
           (<[best := true]> [true; false; false]) draws) /\
  tour_loop pow_int three_zero_tasks 1 2 [[1; 2]; [2]; []]
    [{[1 := 0%Q; 2 := 0%Q]}; {[2 := 0%Q]}; ∅]
    (init_pheromone [[1; 2]; [2]; []]) 0 [0; 2] [true; false; true] draws
    = Returns ([0; 2], draws).
Proof.
  assert (Hscored :
    scored_candidates pow_int three_zero_tasks 1 2 [[1; 2]; [2]; []]
      [{[1 := 0%Q; 2 := 0%Q]}; {[2 := 0%Q]}; ∅]
      (init_pheromone [[1; 2]; [2]; []]) 0 [true; false; false] = [1; 2])
    by (vm_compute; reflexivity).
  split; [exact Hscored|]. split.
  - destruct (fallback_choice pow_int three_zero_tasks 1 2 [[1; 2]; [2]; []]
                [{[1 := 0%Q; 2 := 0%Q]}; {[2 := 0%Q]}; ∅]
                (init_pheromone [[1; 2]; [2]; []]) 2 [0] [true; false; false] draws)
      as [Hfall _].
    destruct Hfall as (best & Hin & Hmax & Hloop); [by vm_compute|by vm_compute|].
    exists best. change (default 0 (last [0])) with 0 in Hin, Hmax.
    rewrite Hscored in Hin, Hmax.
    split; [exact Hin|]. split; [|exact Hloop].
    intros j Hj. specialize (Hmax j Hj).
    revert Hin Hj Hmax. rewrite !elem_of_cons, !elem_of_nil.
    intros [->|[->|[]]] [->|[->|[]]]; vm_compute; done.
  - destruct (fallback_choice pow_int three_zero_tasks 1 2 [[1; 2]; [2]; []]
                [{[1 := 0%Q; 2 := 0%Q]}; {[2 := 0%Q]}; ∅]
                (init_pheromone [[1; 2]; [2]; []]) 0 [0; 2] [true; false; true] draws)
      as [_ Hend].
    apply Hend. vm_compute. reflexivity.
Defined.

Lemma candidate_graph_bounds_witness :
  exists successors,
    build_successors three_tasks slew3 50 = Returns successors /\
    forall i succ, successors !! i = Some succ ->
      length succ <= 50 /\
      forall j, j ∈ succ -> (end_ (three_tasks !!! i) <= start (three_tasks !!! j))%Q.
Proof.
  destruct (candidate_graph_bounds three_tasks slew3 50) as [Htotal Hspec].
  destruct (Htotal ltac:(reflexivity)) as [successors Hb].
  exists successors. split; [exact Hb|]. exact (Hspec successors Hb).
Defined.

(* ===================================================================== *)
(** * Part III: further properties of the code                             *)
(* ===================================================================== *)

(** ** The greedy baseline *)

Lemma StronglySorted_sublist {A} (R : A -> A -> Prop) (l k : list A) :
  sublist l k -> StronglySorted R k -> StronglySorted R l.
Proof.
  induction 1 as [|x l k Hsub IH|x l k Hsub IH]; intros Hs; [done| |].
  - apply StronglySorted_cons in Hs as [Hall Hs].
    apply StronglySorted_cons. split; [|auto].
    rewrite Forall_forall in *. intros y Hy. apply Hall.
    by eapply elem_of_sublist.
  - apply StronglySorted_cons in Hs as [_ Hs]. auto.
Qed.

Lemma chain_snoc (sched : list Observation) (x : Observation) :
  StronglySorted (fun a b => (end_ a <= start b)%Q) sched ->
  Forall (fun o => (start o < end_ o)%Q) sched ->
  (forall y, last sched = Some y -> (end_ y <= start x)%Q) ->
  StronglySorted (fun a b => (end_ a <= start b)%Q) (sched ++ [x]).
Proof.
  intros Hs Hv Hlast. apply StronglySorted_app. repeat split; [|done|repeat constructor].
  intros a b Ha ->%list_elem_of_singleton.
  destruct (last sched) as [y|] eqn:El.
  2: { apply last_None in El. subst. by apply elem_of_nil in Ha. }
  specialize (Hlast y eq_refl).
  apply last_Some in El as [s' ->].
  apply elem_of_app in Ha as [Ha| ->%list_elem_of_singleton]; [|done].
  apply StronglySorted_app in Hs as (Hcross & _ & _).
  specialize (Hcross a y Ha ltac:(left)). simpl in Hcross.
  apply Forall_app in Hv as [_ Hy]. apply Forall_cons in Hy as [Hy _].
  simpl in *. lra.
Qed.

(** The scan of the greedy baseline: what it adds to the schedule is taken
    in order from the list it scans, begins with the first task scanned
    when the schedule was empty, and keeps the schedule a chain. *)
Lemma greedy_fold_spec (l : list Observation) :
  forall sched ce,
    ce = end_ <$> last sched ->
    exists extra,
      (foldl greedy_step (sched, ce) l).1 = sched ++ extra /\
      sublist extra l /\
      (sched = [] -> forall x l', l = x :: l' -> exists e', extra = x :: e') /\
      (StronglySorted (fun a b => (end_ a <= start b)%Q) sched ->
       Forall (fun o => (start o < end_ o)%Q) sched ->
       Forall (fun o => (start o < end_ o)%Q) l ->
       StronglySorted (fun a b => (end_ a <= start b)%Q) (sched ++ extra)).
Proof.
  induction l as [|x l IH]; intros sched ce Hce.
  - exists []. rewrite app_nil_r. repeat split; [constructor|done|done].
  - cbn [foldl]. unfold greedy_step at 2.
    assert (Hadd :
      exists extra,
        (foldl greedy_step (sched ++ [x], Some (end_ x)) l).1 = sched ++ extra /\
        sublist extra (x :: l) /\
        (sched = [] -> forall x0 l', x :: l = x0 :: l' -> exists e', extra = x0 :: e') /\
        ((forall y, last sched = Some y -> (end_ y <= start x)%Q) ->
         StronglySorted (fun a b => (end_ a <= start b)%Q) sched ->
         Forall (fun o => (start o < end_ o)%Q) sched ->
         Forall (fun o => (start o < end_ o)%Q) (x :: l) ->
         StronglySorted (fun a b => (end_ a <= start b)%Q) (sched ++ extra))).
    { destruct (IH (sched ++ [x]) (Some (end_ x))) as (extra & Hres & Hsub & _ & Hchain).
      { by rewrite last_snoc. }
      exists (x :: extra). rewrite Hres, <- app_assoc. split; [done|].
      split; [by apply sublist_skip|]. split.
      { intros _ x0 l' Heq. injection Heq as <- <-. by exists extra. }
      intros Hlast Hs Hv Hvl. apply Forall_cons in Hvl as [Hx Hvl].
      rewrite (cons_middle x sched extra), app_assoc. apply Hchain;
        [|apply Forall_app; split; [done|by constructor]|done].
      by apply chain_snoc. }
    destruct ce as [e|].
    + destruct (Qle_bool e (start x)) eqn:E.
      * destruct Hadd as (extra & Hres & Hsub & Hhead & Hchain).
        exists extra. repeat split; try done.
        intros Hs Hv Hvl. apply Hchain; try done.
        intros y Hy. rewrite Hy in Hce. simpl in Hce. injection Hce as ->.
        by apply Qle_bool_iff.
      * destruct (IH sched (Some e) Hce) as (extra & Hres & Hsub & _ & Hchain).
        exists extra. split; [done|]. split; [by apply sublist_cons|]. split.
        { intros ->. simpl in Hce. done. }
        intros Hs Hv Hvl. apply Forall_cons in Hvl as [_ Hvl]. auto.
    + destruct Hadd as (extra & Hres & Hsub & Hhead & Hchain).
      exists extra. repeat split; try done.
      intros Hs Hv Hvl. apply Hchain; try done.
      intros y Hy. rewrite Hy in Hce. done.
Qed.

Lemma greedy_schedule_spec (obs : list Observation) (slew : option (list (list Q))) :
  sublist (greedy_schedule obs slew) (sorted_by_key_reverse weight obs) /\
  (forall x l', sorted_by_key_reverse weight obs = x :: l' ->
     exists e', greedy_schedule obs slew = x :: e') /\
  (valid_intervals obs ->
   StronglySorted (fun a b => (end_ a <= start b)%Q) (greedy_schedule obs slew)).
Proof.
  unfold greedy_schedule.
  destruct (greedy_fold_spec (sorted_by_key_reverse weight obs) [] None eq_refl)
    as (extra & Hres & Hsub & Hhead & Hchain).
  rewrite Hres. simpl. split; [done|]. split; [by apply Hhead|].
  intros Hvalid. apply Hchain; [constructor|constructor|].
  unfold sorted_by_key_reverse. by rewrite stable_sort_Permutation.
Qed.

Lemma sorted_by_key_reverse_sorted {A} (key : A -> Q) (l : list A) :
  StronglySorted (fun a b => (key b <= key a)%Q) (sorted_by_key_reverse key l).
Proof.
  eapply StronglySorted_impl_elem;
    [|apply (stable_sort_sorted (fun x y => Qle_bool (key y) (key x)))].
  - intros a b _ _ H. by apply Qle_bool_iff.
  - intros x y H. apply Qle_bool_false in H. apply Qle_bool_iff. lra.
  - intros x y z H1 H2. apply Qle_bool_iff in H1, H2. apply Qle_bool_iff. lra.
Qed.

(** X1. With valid intervals the greedy schedule is a chain in time: every
    chosen task ends no later than every task chosen after it starts, so
    the schedule is pairwise non-overlapping. *)
Theorem greedy_chain (obs : list Observation) (slew : option (list (list Q))) :
  valid_intervals obs ->
  StronglySorted (fun a b => (end_ a <= start b)%Q) (greedy_schedule obs slew) /\
  non_overlapping (greedy_schedule obs slew).
Proof.
  intros Hvalid.
  destruct (greedy_schedule_spec obs slew) as (_ & _ & Hchain).
  specialize (Hchain Hvalid). split; [done|].
  apply non_overlapping_StronglySorted.
  eapply StronglySorted_impl_elem; [|exact Hchain].
  intros a b _ _ H. by left.
Qed.

Lemma greedy_chain_witness :
  valid_intervals three_tasks /\
  non_overlapping (greedy_schedule three_tasks None).
Proof.
  assert (Hvalid : valid_intervals three_tasks).
  { unfold valid_intervals, three_tasks. repeat constructor. }
  split; [exact Hvalid|]. exact (proj2 (greedy_chain three_tasks None Hvalid)).
Defined.

(** X2. The greedy schedule is made of input tasks, each input task taken
    at most once, and lists them by non-increasing weight. *)
Theorem greedy_by_descending_weight (obs : list Observation)
    (slew : option (list (list Q))) :
  greedy_schedule obs slew ⊆+ obs /\
  StronglySorted (fun a b => (weight b <= weight a)%Q) (greedy_schedule obs slew).
Proof.
  destruct (greedy_schedule_spec obs slew) as (Hsub & _ & _). split.
  - apply submseteq_sublist_l. eexists. split; [exact Hsub|].
    apply stable_sort_Permutation.
  - eapply StronglySorted_sublist; [exact Hsub|].
    apply sorted_by_key_reverse_sorted.
Qed.

(** X3. On a non-empty input the greedy schedule is non-empty and begins
    with a task of greatest weight. *)
Theorem greedy_first_is_heaviest (obs : list Observation)
    (slew : option (list (list Q))) :
  obs <> [] ->
  exists first rest,
    greedy_schedule obs slew = first :: rest /\
    first ∈ obs /\
    Forall (fun o => (weight o <= weight first)%Q) obs.
Proof.
  intros Hne.
  destruct (greedy_schedule_spec obs slew) as (_ & Hhead & _).
  pose proof (sorted_by_key_reverse_sorted weight obs) as Hs.
  assert (Hp : sorted_by_key_reverse weight obs ≡ₚ obs)
    by apply stable_sort_Permutation.
  destruct (sorted_by_key_reverse weight obs) as [|x l'] eqn:E.
  { apply Permutation_nil_l in Hp. by subst. }
  destruct (Hhead x l' eq_refl) as [rest Hg].
  exists x, rest. split; [done|]. split; [rewrite <- Hp; left|].
  apply StronglySorted_cons in Hs as [Hall _].
  rewrite <- Hp. constructor; [lra|done].
Qed.

Lemma greedy_first_is_heaviest_witness :
  exists first rest,
    greedy_schedule three_tasks None = first :: rest /\
    Forall (fun o => (weight o <= weight first)%Q) three_tasks.
Proof.
  destruct (greedy_first_is_heaviest three_tasks None ltac:(done))
    as (first & rest & Hg & _ & Hmax).
  by exists first, rest.
Defined.

(** ** The dynamic program *)

Lemma StronglySorted_reverse_flip {A} (R : A -> A -> Prop) (l : list A) :
  StronglySorted R l -> StronglySorted (fun a b => R b a) (reverse l).
Proof.
  induction 1 as [|a l Hs IH Ha]; [constructor|].
  rewrite reverse_cons. apply StronglySorted_app. repeat split;
    [|done|repeat constructor].
  intros x y Hx ->%list_elem_of_singleton.
  rewrite Forall_forall in Ha. apply Ha. by apply elem_of_reverse.
Qed.

Lemma tasks_at_seq (obs : list Observation) : tasks_at obs (seq 0 (length obs)) = obs.
Proof. apply list_fmap_lookup_total_seq. Qed.

Lemma tasks_at_submseteq (obs : list Observation) (idxs : list nat) :
  NoDup idxs -> Forall (fun i => i < length obs) idxs -> tasks_at obs idxs ⊆+ obs.
Proof.
  intros Hnd Hlt. rewrite <- (tasks_at_seq obs) at 2.
  unfold tasks_at. apply fmap_submseteq.
  apply NoDup_submseteq; [done|]. intros x Hx. apply elem_of_seq.
  rewrite Forall_forall in Hlt. specialize (Hlt x Hx). lia.
Qed.

(** Every sub-multiset of the input is the tasks at some duplicate-free
    list of input indices, up to order. *)
Lemma submseteq_tasks_at (obs l : list Observation) :
  l ⊆+ obs ->
  exists idxs, NoDup idxs /\ Forall (fun i => i < length obs) idxs /\
               l ≡ₚ tasks_at obs idxs.
Proof.
  intros Hsub. apply submseteq_sublist_r in Hsub as (l' & Hp & Hsub).
  rewrite <- (tasks_at_seq obs) in Hsub.
  apply sublist_fmap_inv in Hsub as (T & -> & HT).
  exists T. split; [|split; [|done]].
  - eapply sublist_NoDup; [apply NoDup_seq|exact HT].
  - apply Forall_forall. intros i Hi.
    pose proof (elem_of_sublist _ _ _ Hi HT) as Hin. apply elem_of_seq in Hin. lia.
Qed.

(** X4. In the dynamic program, [p[i]] is the last position of the
    end-sorted order whose task ends no later than task [i] starts, or -1:
    a position [k] is at most [p[i]] exactly when the task at [k] ends no
    later than the task at [i] starts.  This holds on every input. *)
Theorem dp_predecessor_index (obs : list Observation) (i k : nat) :
  let indices := dp_indices obs in
  let ends_s := (fun i => (end_ <$> obs) !!! i) <$> indices in
  let starts_s := (fun i => (start <$> obs) !!! i) <$> indices in
  let p := dp_p ends_s starts_s in
  i < length obs -> k < length obs ->
  (-1 <= p !!! i < Z.of_nat (length obs))%Z /\
  ((Z.of_nat k <= p !!! i)%Z <->
   (end_ (obs !!! (indices !!! k)) <= start (obs !!! (indices !!! i)))%Q).
Proof.
  intros indices ends_s starts_s p Hi Hk.
  assert (Hlen : length indices = length obs).
  { unfold indices, dp_indices, sorted_by_key.
    rewrite stable_sort_length. apply length_seq. }
  assert (Hp : p !!! i = (Z.of_nat (bisect_right ends_s (starts_s !!! i)) - 1)%Z).
  { apply (list_lookup_total_fmap
             (fun s => (Z.of_nat (bisect_right ends_s s) - 1)%Z) starts_s i).
    unfold starts_s. rewrite length_fmap. lia. }
  destruct (bisect_right_spec ends_s (starts_s !!! i) (es_ascending obs))
    as (Hr & Hbefore & Hafter).
  assert (Hlen_e : length ends_s = length obs)
    by (unfold ends_s; by rewrite length_fmap).
  assert (Hek : ends_s !! k = Some (ends_s !!! k))
    by (apply list_lookup_lookup_total_lt; lia).
  rewrite Hp. split; [lia|].
  pose proof (es_at obs k Hk) as Ek. pose proof (ss_at obs i Hi) as Ei.
  change (ends_s !!! k = end_ (obs !!! (indices !!! k))) in Ek.
  change (starts_s !!! i = start (obs !!! (indices !!! i))) in Ei.
  rewrite <- Ek, <- Ei. split.
  - intros Hle. apply (Hbefore k); [lia|done].
  - intros Hle.
    destruct (decide (k < bisect_right ends_s (starts_s !!! i))) as [|Hge]; [lia|].
    pose proof (Hafter k _ ltac:(lia) Hek). lra.
Qed.

Lemma dp_predecessor_index_witness :
  Z.le (Z.of_nat 0)
    (dp_p ((fun i => (end_ <$> three_tasks) !!! i) <$> dp_indices three_tasks)
          ((fun i => (start <$> three_tasks) !!! i) <$> dp_indices three_tasks)
       !!! 2) <->
  Qle (end_ (three_tasks !!! (dp_indices three_tasks !!! 0)))
      (start (three_tasks !!! (dp_indices three_tasks !!! 2))).
Proof.
  apply (dp_predecessor_index three_tasks 2 0); simpl; lia.
Defined.

(** X5. With valid intervals the dynamic program returns its schedule in
    chronological order: every task of the schedule ends no later than
    every later task of the schedule starts. *)
Theorem dp_schedule_chronological (pow : Q -> Q -> Q) (obs : list Observation)
    (fuel : nat) :
  valid_intervals obs -> length obs <= fuel ->
  exists sched,
    dynamic_weighted_interval_scheduling pow fuel obs = Returns sched /\
    StronglySorted (fun a b => (end_ a <= start b)%Q) sched.
Proof.
  intros Hvalid Hf.
  destruct (dp_chosen_indices_chain pow obs Hvalid fuel Hf)
    as (P & Hret & HP & _ & Hch).
  rewrite (dp_entry_point pow obs Hvalid), Hret. simpl.
  eexists. split; [reflexivity|].
  unfold tasks_at. rewrite fmap_reverse, <- list_fmap_compose.
  apply (StronglySorted_reverse_flip
           (fun a b => (end_ b <= start a)%Q)).
  apply (StronglySorted_fmap _
           (fun a b => (end_ (obs !!! (dp_indices obs !!! b))
                        <= start (obs !!! (dp_indices obs !!! a)))%Q)); [done|].
  eapply StronglySorted_impl_elem; [|exact Hch].
  rewrite Forall_forall in HP.
  intros a b Ha Hb [_ Hle]. rewrite es_at, ss_at in Hle by auto. exact Hle.
Qed.

Lemma dp_schedule_chronological_witness :
  exists sched,
    dynamic_weighted_interval_scheduling pow_int 3 three_tasks = Returns sched /\
    StronglySorted (fun a b => (end_ a <= start b)%Q) sched.
Proof.
  apply (dp_schedule_chronological pow_int three_tasks 3).
  - unfold valid_intervals, three_tasks. repeat constructor.
  - simpl. lia.
Defined.

(** X6. With valid intervals the schedule of the dynamic program consists
    of input tasks, each input task taken at most once. *)
Theorem dp_schedule_from_input (pow : Q -> Q -> Q) (obs : list Observation)
    (fuel : nat) :
  valid_intervals obs -> length obs <= fuel ->
  exists sched,
    dynamic_weighted_interval_scheduling pow fuel obs = Returns sched /\
    sched ⊆+ obs.
Proof.
  intros Hvalid Hf.
  destruct (dp_schedule_spec pow obs Hvalid fuel Hf)
    as (chosen & Hret & Hnd & Hlt & _).
  exists (tasks_at obs chosen). split; [done|]. by apply tasks_at_submseteq.
Qed.

Lemma dp_schedule_from_input_witness :
  exists sched,
    dynamic_weighted_interval_scheduling pow_int 3 three_tasks = Returns sched /\
    sched ⊆+ three_tasks.
Proof.
  apply (dp_schedule_from_input pow_int three_tasks 3).
  - unfold valid_intervals, three_tasks. repeat constructor.
  - simpl. lia.
Defined.

Section DPNonEmpty.
Variables (indices : list nat) (ws es ss : list Q) (n : nat).
Hypothesis len_ws : length ws = n.
Hypothesis len_es : length es = n.
Hypothesis len_ss : length ss = n.
Hypothesis es_asc : ascending es.
Hypothesis valid : forall k, k < n -> (ss !!! k < es !!! k)%Q.
Hypothesis first_nonneg : Qle 0 (ws !!! 0).

Local Abbreviation p := (dp_p es ss).
Local Abbreviation M := (dp_table ws p n).

(** The walk down the table includes the first task if it gets that far
    without including any other. *)
Lemma dp_reconstruct_nonempty fuel i acc :
  1 <= i <= n -> i <= fuel ->
  exists r, dp_reconstruct fuel indices ws p M i acc = Returns r /\
            length acc < length r.
Proof.
  revert i acc. induction fuel as [|fuel IH]; intros i acc Hi Hf; [lia|].
  destruct i as [|i]; [lia|]. cbn [dp_reconstruct].
  replace (S i - 1) with i by lia.
  destruct (Qle_bool (M !!! i) (dp_incl ws p M (S i))) eqn:E.
  - rewrite (p_lookup ws es ss n len_ws len_es len_ss i) by lia.
    pose proof (rank_le ws es ss n len_ws len_es len_ss es_asc valid i ltac:(lia)).
    replace (Z.to_nat (Z.of_nat (bisect_right es (ss !!! i)) - 1 + 1))
      with (bisect_right es (ss !!! i)) by lia.
    destruct (dp_reconstruct_spec indices ws es ss n len_ws len_es len_ss es_asc valid
                fuel (bisect_right es (ss !!! i)) (acc ++ [indices !!! i]))
      as (P & -> & _); [lia|lia|].
    eexists. split; [reflexivity|]. rewrite !length_app. simpl. lia.
  - apply Qle_bool_false in E.
    destruct (decide (i = 0)) as [->|Hne].
    + pose proof (M_0 ws es ss n len_ws len_es len_ss es_asc valid) as H0.
      pose proof (dp_incl_eq ws es ss n len_ws len_es len_ss M 1 ltac:(lia) H0) as Hincl.
      pose proof (rank_le ws es ss n len_ws len_es len_ss es_asc valid 0 ltac:(lia)) as Hr.
      replace (1 - 1) with 0 in Hincl by lia.
      replace (bisect_right es (ss !!! 0)) with 0 in Hincl by lia.
      rewrite H0 in Hincl, E. lra.
    + apply IH; lia.
Qed.

End DPNonEmpty.

(** X7. On a non-empty input with valid intervals whose transformed
    weights are all non-negative, the dynamic program returns a non-empty
    schedule: ties are resolved toward inclusion, so even tasks of weight 0
    are scheduled. *)
Theorem dp_schedule_nonempty (pow : Q -> Q -> Q) (obs : list Observation)
    (fuel : nat) :
  valid_intervals obs -> obs <> [] ->
  Forall (fun o => (0 <= transformed_weight pow o)%Q) obs ->
  length obs <= fuel ->
  exists sched,
    dynamic_weighted_interval_scheduling pow fuel obs = Returns sched /\
    sched <> [].
Proof.
  intros Hvalid Hne Hw Hf.
  assert (Hn : 0 < length obs) by (destruct obs; [done|simpl; lia]).
  rewrite (dp_entry_point pow obs Hvalid). unfold dp_chosen_indices.
  destruct (dp_reconstruct_nonempty (dp_indices obs)
              ((fun i => (transformed_weight pow <$> obs) !!! i) <$> dp_indices obs)
              ((fun i => (end_ <$> obs) !!! i) <$> dp_indices obs)
              ((fun i => (start <$> obs) !!! i) <$> dp_indices obs)
              (length obs)) with (fuel := fuel) (i := length obs) (acc := @nil nat)
    as (r & Hr & Hlen).
  - by rewrite length_fmap, dp_indices_length.
  - by rewrite length_fmap, dp_indices_length.
  - by rewrite length_fmap, dp_indices_length.
  - apply es_ascending.
  - by apply ss_lt_es.
  - rewrite ws_at by done. rewrite Forall_forall in Hw. apply Hw.
    apply list_elem_of_lookup_total_2. by apply dp_indices_lt.
  - lia.
  - done.
  - rewrite Hr. simpl. eexists. split; [reflexivity|].
    destruct r as [|x r]; [simpl in Hlen; lia|].
    unfold tasks_at. rewrite reverse_cons, fmap_app. simpl.
    intros Heq. by apply app_nil in Heq as [_ ?].
Qed.

Lemma dp_schedule_nonempty_witness :
  exists sched,
    dynamic_weighted_interval_scheduling pow_int 2 two_zero_tasks = Returns sched /\
    sched <> [].
Proof.
  apply (dp_schedule_nonempty pow_int two_zero_tasks 2).
  - unfold valid_intervals, two_zero_tasks. repeat constructor.
  - done.
  - unfold two_zero_tasks. repeat constructor; by vm_compute.
  - simpl. lia.
Defined.

(** X10. Given a single task with end <= start whose transformed weight is
    not negative, the reconstruction loop of the dynamic program returns to
    the same table entry for ever: the call does not return, for any
    fuel. *)
Theorem dp_never_returns_on_invalid_task (pow : Q -> Q -> Q) (o : Observation)
    (fuel : nat) :
  (end_ o <= start o)%Q -> (0 <= transformed_weight pow o)%Q ->
  dynamic_weighted_interval_scheduling pow fuel [o] = Diverges.
Proof.
  intros Hinv Hw.
  unfold dynamic_weighted_interval_scheduling, dp_chosen_indices.
  cbn [length Nat.eqb].
  set (indices := dp_indices [o]).
  set (ws := (fun i => (transformed_weight pow <$> [o]) !!! i) <$> indices).
  set (es := (fun i => (end_ <$> [o]) !!! i) <$> indices).
  set (ss := (fun i => (start <$> [o]) !!! i) <$> indices).
  set (p := dp_p es ss). set (M := dp_table ws p 1).
  assert (Hp : p = [0%Z]).
  { unfold p, dp_p, es, ss, indices. cbn.
    unfold bisect_right. cbn.
    replace (Qltb (start o) (end_ o)) with false; [done|].
    symmetry. by apply Qltb_ge. }
  assert (HM : exists m, M = [0%Q; m] /\ (0 <= m)%Q).
  { unfold M, dp_table. rewrite Hp. cbn. unfold dp_fill_step. cbn.
    eexists. split; [reflexivity|].
    destruct (Qltb _ _) eqn:E; [apply Qltb_lt in E|]; lra. }
  destruct HM as (m & HM & Hm).
  assert (Hloop : forall chosen, dp_reconstruct fuel indices ws p M 1 chosen = Diverges).
  { induction fuel as [|fuel IH]; intros chosen; [reflexivity|].
    cbn [dp_reconstruct].
    replace (Qle_bool (M !!! (1 - 1)) (dp_incl ws p M 1)) with true.
    - replace (Z.to_nat (p !!! (1 - 1) + 1)) with 1 by (by rewrite Hp).
      apply IH.
    - symmetry. apply Qle_bool_iff. rewrite HM, Hp. unfold dp_incl. cbn.
      unfold ws, indices. cbn.
      change ([0%Q; m] !!! Z.to_nat (0 + 1)) with m. lra. }
  by rewrite Hloop.
Qed.

Lemma dp_never_returns_on_invalid_task_witness :
  dynamic_weighted_interval_scheduling pow_int 7 [empty_task] = Diverges.
Proof.
  apply (dp_never_returns_on_invalid_task pow_int empty_task 7); by vm_compute.
Defined.

(** ** The candidate graph, continued *)

Lemma fmap_snd_pair {A B} (h : B -> A) (l : list B) :
  snd <$> ((fun idx => (h idx, idx)) <$> l) = l.
Proof. induction l as [|x l IH]; [done|]. simpl. f_equal. exact IH. Qed.

Section SuccessorsMore.
Variable obs : list Observation.
Variable slew : list (list Q).
Variable top_k : nat.

Local Abbreviation n := (length obs).
Local Abbreviation order := (order_by_start obs).
Local Abbreviation h i idx :=
  (Qdiv (weight (obs !!! idx)) (pymax ((slew !!! i) !!! idx) 1)).
Local Abbreviation window i :=
  (let pos := bisect_left ((fun k => (start <$> obs) !!! k) <$> order)
                ((end_ <$> obs) !!! i) in
   take (min (length order) (pos + top_k * 5) - pos) (drop pos order)).

Lemma order_by_start_NoDup : NoDup order.
Proof. rewrite (order_by_start_Permutation obs). apply NoDup_seq. Qed.

Lemma scan_window_values i w cand :
  scan_window obs slew i w = Returns cand ->
  cand = (fun idx => (h i idx, idx)) <$> w.
Proof.
  revert cand. induction w as [|idx w IH]; intros cand H; simpl in H.
  - by injection H as <-.
  - apply obind_Returns in H as (row & Hrow & H).
    apply obind_Returns in H as (c & Hc & H).
    apply obind_Returns in H as (cand' & Hcand & H).
    injection H as <-. rewrite (IH cand' Hcand). simpl. f_equal.
    unfold index in Hrow, Hc.
    destruct (slew !! i) as [row'|] eqn:Er; [|done]. injection Hrow as ->.
    destruct (row !! idx) as [c'|] eqn:Ec; [|done]. injection Hc as ->.
    rewrite (list_lookup_total_correct _ _ _ Er).
    by rewrite (list_lookup_total_correct _ _ _ Ec).
Qed.

Lemma window_NoDup i : NoDup (window i).
Proof.
  cbv zeta. eapply sublist_NoDup; [apply order_by_start_NoDup|].
  etrans; [apply sublist_take|apply sublist_drop].
Qed.

(** The successors of [i]: the tuples kept after sorting and cutting. *)
Lemma successors_of_kept i succ :
  successors_of obs slew top_k i = Returns succ ->
  exists kept dropped,
    succ = snd <$> kept /\
    kept ++ dropped ≡ₚ (fun idx => (h i idx, idx)) <$> window i /\
    StronglySorted (fun x y => tuple_lt x y = false) (kept ++ dropped).
Proof.
  intros H. unfold successors_of in H.
  apply obind_Returns in H as (cand & Hcand & H). injection H as <-.
  apply scan_window_values in Hcand. cbv zeta. rewrite <- Hcand.
  destruct (top_k <? length (sort_reverse cand)) eqn:E.
  - exists (take top_k (sort_reverse cand)), (drop top_k (sort_reverse cand)).
    rewrite take_drop. split; [done|]. split.
    + apply stable_sort_Permutation.
    + apply sort_reverse_sorted.
  - exists (sort_reverse cand), []. rewrite app_nil_r. split; [done|]. split.
    + apply stable_sort_Permutation.
    + apply sort_reverse_sorted.
Qed.

End SuccessorsMore.



(** X11. Every candidate list of the graph is duplicate-free and holds
    task indices only; with valid intervals no task is its own
    successor. *)
Theorem candidate_lists_simple (obs : list Observation) (slew : list (list Q))
    (top_k : nat) (successors : list (list nat)) :
  build_successors obs slew top_k = Returns successors ->
  length successors = length obs /\
  forall i succ, successors !! i = Some succ ->
    NoDup succ /\ Forall (fun j => j < length obs) succ /\
    (valid_intervals obs -> i ∉ succ).
Proof.
  intros Hb.
  destruct (build_successors_spec obs slew top_k successors Hb) as [Hlen Hspec].
  split; [done|]. intros i succ Hs.
  destruct (Hspec i succ Hs) as [_ Hj].
  pose proof (lookup_lt_Some _ _ _ Hs) as Hi. rewrite Hlen in Hi.
  split; [|split].
  - apply for_each_Returns in Hb.
    assert (Hof : successors_of obs slew top_k i = Returns succ).
    { eapply (Forall2_lookup_lr _ _ _ i i succ Hb); [|done]. by rewrite lookup_seq_lt. }
    destruct (successors_of_kept obs slew top_k i succ Hof)
      as (kept & dropped & -> & Hp & _).
    assert (Hnd : NoDup (snd <$> (kept ++ dropped))).
    { rewrite Hp, fmap_snd_pair. apply window_NoDup. }
    rewrite fmap_app in Hnd. by apply NoDup_app in Hnd as [? _].
  - apply Forall_forall. intros j Hin. by apply Hj.
  - intros Hvalid Hin. destruct (Hj i Hin) as [_ Hle].
    unfold valid_intervals in Hvalid. rewrite Forall_forall in Hvalid.
    pose proof (Hvalid (obs !!! i) (list_elem_of_lookup_total_2 _ _ Hi)). lra.
Qed.

Lemma candidate_lists_simple_witness :
  build_successors three_tasks slew3 50 = Returns [[1]; []; []] /\
  NoDup [1] /\ Forall (fun j => j < length three_tasks) [1].
Proof.
  assert (Hb : build_successors three_tasks slew3 50 = Returns [[1]; []; []])
    by (vm_compute; reflexivity).
  split; [exact Hb|].
  destruct (candidate_lists_simple three_tasks slew3 50 [[1]; []; []] Hb) as [_ H].
  destruct (H 0 [1] eq_refl) as (Hnd & Hlt & _). by split.
Defined.



(** ** The heuristic and pheromone tables *)

Lemma heuristic_row_lookup (obs : list Observation) (slew : list (list Q))
    (i : nat) (succ : list nat) (row0 row : gmap nat Q) :
  heuristic_row obs slew i succ row0 = Returns row ->
  forall j,
    row !! j =
      if decide (j ∈ succ)
      then Some (Qdiv (weight (obs !!! j)) (pymax ((slew !!! i) !!! j) 1))
      else row0 !! j.
Proof.
  revert row0. induction succ as [|j0 succ IH]; intros row0 H j; simpl in H.
  - injection H as <-. rewrite decide_False; [done|]. apply not_elem_of_nil.
  - apply obind_Returns in H as (r & Hr & H).
    apply obind_Returns in H as (c & Hc & H).
    unfold index in Hr, Hc.
    destruct (slew !! i) as [r'|] eqn:Er; [|done]. injection Hr as ->.
    destruct (r !! j0) as [c'|] eqn:Ec; [|done]. injection Hc as ->.
    rewrite (IH _ H j).
    destruct (decide (j ∈ succ)) as [Hin|Hnin].
    + rewrite decide_True; [done|by right].
    + destruct (decide (j = j0)) as [->|Hne].
      * rewrite decide_True by left. rewrite lookup_insert_eq.
        rewrite (list_lookup_total_correct _ _ _ Er).
        by rewrite (list_lookup_total_correct _ _ _ Ec).
      * rewrite decide_False by (intros [?|?]%elem_of_cons; done).
        by rewrite lookup_insert_ne.
Qed.

(** X13. The heuristic table has an entry exactly for the candidate edges:
    the entry of the edge from [i] to a candidate successor [j] is
    [weight_j / max(slew_matrix[i][j], 1)], and [heuristic[i]] has no other
    key. *)
Theorem heuristic_table (obs : list Observation) (slew : list (list Q))
    (top_k : nat) (successors : list (list nat)) (heuristic : list (gmap nat Q)) :
  build_successors obs slew top_k = Returns successors ->
  build_heuristic obs slew successors = Returns heuristic ->
  length heuristic = length obs /\
  forall i succ, successors !! i = Some succ ->
    exists row, heuristic !! i = Some row /\
      forall j,
        row !! j =
          if decide (j ∈ succ)
          then Some (Qdiv (weight (obs !!! j)) (pymax ((slew !!! i) !!! j) 1))
          else None.
Proof.
  intros Hb Hh.
  destruct (build_successors_spec obs slew top_k successors Hb) as [Hlen _].
  apply for_each_Returns in Hh.
  pose proof (Forall2_length _ _ _ Hh) as Hl.
  rewrite length_zip_with, length_seq, Hlen, Nat.min_id in Hl.
  split; [done|]. intros i succ Hs.
  pose proof (lookup_lt_Some _ _ _ Hs) as Hi. rewrite Hlen in Hi.
  destruct (lookup_lt_is_Some_2 heuristic i) as [row Hrow]; [lia|].
  exists row. split; [done|]. intros j.
  assert (Hz : zip (seq 0 (length obs)) successors !! i = Some (i, succ)).
  { apply lookup_zip_with_Some. exists i, succ. split; [done|].
    split; [by rewrite lookup_seq_lt|done]. }
  pose proof (Forall2_lookup_lr _ _ _ i _ _ Hh Hz Hrow) as Hr. simpl in Hr.
  rewrite (heuristic_row_lookup obs slew i succ ∅ row Hr j).
  destruct (decide (j ∈ succ)); [done|]. apply lookup_empty.
Qed.

Lemma heuristic_table_witness :
  exists row, [({[1 := 5 # 3]} : gmap nat Q); ∅; ∅] !! 0 = Some row /\
    row !! 1 =
      if decide (1 ∈ [1])
      then Some (Qdiv (weight (three_tasks !!! 1)) (pymax ((slew3 !!! 0) !!! 1) 1))
      else None.
Proof.
  destruct (heuristic_table three_tasks slew3 50 [[1]; []; []]
              [({[1 := 5 # 3]} : gmap nat Q); ∅; ∅]
              ltac:(vm_compute; reflexivity) ltac:(vm_compute; reflexivity))
    as [_ H].
  destruct (H 0 [1] eq_refl) as (row & Hrow & Hj).
  exists row. split; [exact Hrow|]. exact (Hj 1).
Defined.

Lemma init_row_lookup (succ : list nat) (row0 : gmap nat Q) (j : nat) :
  foldl (fun (row : gmap nat Q) j => <[j := init_pher]> row) row0 succ !! j =
    if decide (j ∈ succ) then Some init_pher else row0 !! j.
Proof.
  revert row0. induction succ as [|j0 succ IH]; intros row0; cbn [foldl].
  - rewrite decide_False; [done|]. apply not_elem_of_nil.
  - rewrite IH. destruct (decide (j ∈ succ)) as [Hin|Hnin].
    + rewrite decide_True; [done|by right].
    + destruct (decide (j = j0)) as [->|Hne].
      * rewrite decide_True by left. by rewrite lookup_insert_eq.
      * rewrite decide_False by (intros [?|?]%elem_of_cons; done).
        by rewrite lookup_insert_ne.
Qed.

(** X14. The initial pheromone table gives the trail 1 to every candidate
    edge and has no other entry. *)
Theorem initial_pheromone (successors : list (list nat)) (i : nat) (succ : list nat) :
  successors !! i = Some succ ->
  length (init_pheromone successors) = length successors /\
  exists row, init_pheromone successors !! i = Some row /\
    forall j, row !! j = if decide (j ∈ succ) then Some 1%Q else None.
Proof.
  intros Hs. unfold init_pheromone. rewrite length_fmap. split; [done|].
  rewrite list_lookup_fmap, Hs. simpl. eexists. split; [reflexivity|].
  intros j. rewrite init_row_lookup. destruct (decide (j ∈ succ)); [done|].
  apply lookup_empty.
Qed.

Lemma initial_pheromone_witness :
  exists row, init_pheromone [[1]; []; []] !! 0 = Some row /\
    forall j, row !! j = if decide (j ∈ [1]) then Some 1%Q else None.
Proof.
  exact (proj2 (initial_pheromone [[1]; []; []] 0 [1] eq_refl)).
Defined.


(** ** Trails, scores and schedules along a run *)

Lemma evaporate_at_least (evap : Q) (pher : list (gmap nat Q)) :
  trails_at_least (1 # 100000000) (evaporate evap pher).
Proof.
  intros i row j x Hrow Hx. unfold evaporate in Hrow.
  rewrite list_lookup_fmap in Hrow.
  destruct (pher !! i) as [row0|]; [|done]. simpl in Hrow. injection Hrow as <-.
  unfold evaporate_row in Hx. apply map_lookup_filter_Some in Hx as [_ Hx].
  by apply Qltb_ge.
Qed.

Lemma trails_at_least_positive (pher : list (gmap nat Q)) :
  trails_at_least (1 # 100000000) pher -> trails_positive pher.
Proof.
  intros H i row j x Hrow Hx. pose proof (H i row j x Hrow Hx).
  assert ((0 < 1 # 100000000)%Q) by reflexivity. lra.
Qed.

Lemma deposit_edge_positive (successors : list (list nat)) (deposit : Q)
    (pher : list (gmap nat Q)) (a b : nat) :
  (0 < deposit)%Q -> trails_positive pher ->
  trails_positive (deposit_edge successors deposit pher a b).
Proof.
  intros Hd Hpos. unfold deposit_edge.
  assert (Hins : forall y, (0 < y)%Q ->
            trails_positive (<[a := <[b := y]> (pher !!! a)]> pher)).
  { intros y Hy i row j x Hrow Hx.
    apply list_lookup_insert_Some in Hrow as [(Heq & Hr & Hlt)|[Hne Hrow]].
    - subst i row. destruct (decide (b = j)) as [->|Hbj].
      + rewrite lookup_insert_eq in Hx. by injection Hx as <-.
      + rewrite lookup_insert_ne in Hx by done.
        apply (Hpos a (pher !!! a) j x); [|done].
        by apply list_lookup_lookup_total_lt.
    - by apply (Hpos i row j x). }
  destruct ((pher !!! a) !! b) as [x|] eqn:Eb.
  - apply Hins.
    destruct (decide (a < length pher)) as [Hlt|Hge].
    + pose proof (Hpos a (pher !!! a) b x
                    (list_lookup_lookup_total_lt _ _ Hlt) Eb). lra.
    + rewrite list_lookup_total_alt, lookup_ge_None_2 in Eb by lia.
      simpl in Eb. by rewrite lookup_empty in Eb.
  - case_bool_decide; [|done]. apply Hins. unfold init_pher. lra.
Qed.

Lemma deposit_along_positive (successors : list (list nat)) (deposit : Q)
    (tour : list nat) (pher : list (gmap nat Q)) :
  (0 < deposit)%Q -> trails_positive pher ->
  trails_positive (deposit_along successors deposit tour pher).
Proof.
  intros Hd. revert pher. induction tour as [|a tour IH]; intros pher Hpos; [done|].
  destruct tour as [|b tour]; [done|].
  cbn [deposit_along]. apply IH. by apply deposit_edge_positive.
Qed.

Lemma deposit_pheromone_positive (successors : list (list nat)) (lbs : Q)
    (lb : option (list nat)) (pher : list (gmap nat Q)) :
  (lb = None \/ (0 < lbs)%Q) -> trails_positive pher ->
  trails_positive (deposit_pheromone successors lbs lb pher).
Proof.
  intros Hlb Hpos. unfold deposit_pheromone.
  destruct lb as [[|a tour]|]; [done| |done].
  destruct Hlb as [?|Hlbs]; [done|].
  apply deposit_along_positive; [|done].
  apply Qlt_shift_div_l.
  - assert (0 <= inject_Z (Z.of_nat (length (a :: tour))))%Q.
    { change 0%Q with (inject_Z 0). rewrite <- Zle_Qle. lia. }
    lra.
  - lra.
Qed.

Section ColonyMore.
Variable pow : Q -> Q -> Q.
Variable obs : list Observation.
Variable num_ants : nat.
Variables alpha beta evap : Q.
Variable successors : list (list nat).
Variable heuristic : list (gmap nat Q).
Hypothesis successors_lt : forall i j, j ∈ successors !!! i -> j < length obs.
Hypothesis obs_nonempty : 0 < length obs.

Local Abbreviation iteration :=
  (aco_iteration pow obs num_ants alpha beta evap successors heuristic).
Local Abbreviation run_from :=
  (iterations_from pow obs num_ants alpha beta evap successors heuristic).

Lemma record_tour_local v tour :
  (local_best (record_tour obs v tour) = local_best v /\
   local_best_score (record_tour obs v tour) = local_best_score v) \/
  (local_best (record_tour obs v tour) = Some tour /\
   local_best_score (record_tour obs v tour) = tour_score obs tour /\
   (local_best_score v < tour_score obs tour)%Q).
Proof.
  unfold record_tour.
  destruct (Qltb (local_best_score v) (tour_score obs tour)) eqn:E;
    destruct (Qltb (best_score v) _); simpl.
  1,2: right; apply Qltb_lt in E; done.
  1,2: left; done.
Qed.

Lemma aco_iteration_positive v g r g' :
  iteration v g = Returns (r, g') ->
  trails_at_least (1 # 100000000) r.1 /\ trails_positive (pher r.2).
Proof.
  intros Hret.
  destruct (aco_iteration_Returns pow obs num_ants alpha beta evap successors
              heuristic successors_lt obs_nonempty
              (fun v1 => (0 <= local_best_score v1)%Q /\
                         (local_best v1 = None \/ (0 < local_best_score v1)%Q))
              v g r g') as (v1 & -> & Hnn & Hlb); [| |done|].
  { intros v0 tour [Hnn Hlb] _.
    destruct (record_tour_local v0 tour) as [[-> ->]|(-> & -> & Hlt)]; [done|].
    split; [lra|right; lra]. }
  { simpl. split; [lra|by left]. }
  simpl. split; [apply evaporate_at_least|].
  apply deposit_pheromone_positive; [done|].
  apply trails_at_least_positive, evaporate_at_least.
Qed.

Lemma iterations_positive v history v' :
  run_from v history v' ->
  Forall (fun r => trails_at_least (1 # 100000000) r.1 /\
                   trails_positive (pher r.2)) history.
Proof.
  induction 1 as [v|v g r g' history v' Hret Hrun IH]; constructor; [|done].
  by eapply aco_iteration_positive.
Qed.

Lemma iterations_score_of_schedule v history v' :
  run_from v history v' ->
  best_score v = tour_score obs (best_schedule v) ->
  best_score v' = tour_score obs (best_schedule v').
Proof.
  intros Hrun.
  apply (iterations_inv pow obs num_ants alpha beta evap successors heuristic
           successors_lt obs_nonempty
           (fun v => best_score v = tour_score obs (best_schedule v)) v history v');
    [| | |done]; try done.
  intros v0 tour Hv0 _.
  destruct (record_tour_best obs v0 tour) as [(-> & -> & _)|(-> & -> & _)]; done.
Qed.

End ColonyMore.

Lemma init_pheromone_positive (successors : list (list nat)) :
  trails_positive (init_pheromone successors).
Proof.
  intros i row j x Hrow Hx. unfold init_pheromone in Hrow.
  rewrite list_lookup_fmap in Hrow.
  destruct (successors !! i) as [succ|]; [|done]. simpl in Hrow.
  injection Hrow as <-. rewrite init_row_lookup in Hx.
  destruct (decide (j ∈ succ)).
  - injection Hx as <-. reflexivity.
  - by rewrite lookup_empty in Hx.
Qed.

(** X16. Every trail strength stored in the pheromone table is positive
    throughout a run, whatever the evaporation rate: the table starts with
    trails 1, holds only trails of at least 1e-8 after each evaporation
    pass, and a deposit pass only adds a positive amount. *)
Theorem trails_stay_positive (pow : Q -> Q -> Q) (obs : list Observation)
    (slew : list (list Q)) (num_ants : nat) (alpha beta evap : Q)
    (iterations top_k : nat) (g : Rng) (t : aco_trace) :
  0 < length obs ->
  aco_run pow obs slew num_ants alpha beta evap iterations top_k g = Returns t ->
  trails_positive (pher (trace_initial t)) /\
  Forall (fun r => trails_at_least (1 # 100000000) r.1 /\
                   trails_positive (pher r.2)) (trace_history t).
Proof.
  intros Hn Ht.
  destruct (aco_run_Returns pow obs slew num_ants alpha beta evap iterations top_k
              g t Hn Ht) as (Hb & Hinit & _ & heuristic & Hrun).
  split.
  - rewrite Hinit. apply init_pheromone_positive.
  - eapply iterations_positive; [|exact Hn|exact Hrun].
    by apply (built_successors_lt obs slew top_k).
Qed.

Lemma trails_stay_positive_witness :
  exists t,
    aco_run pow_int three_tasks slew3 2 1 2 (3 # 10) 2 50 draws = Returns t /\
    Forall (fun r => trails_at_least (1 # 100000000) r.1 /\
                     trails_positive (pher r.2)) (trace_history t).
Proof.
  eexists. split; [vm_compute; reflexivity|].
  exact (proj2 (trails_stay_positive pow_int three_tasks slew3 2 1 2 (3 # 10) 2 50
                  draws _ ltac:(simpl; lia) ltac:(vm_compute; reflexivity))).
Defined.

Lemma tour_score_total_weight (obs : list Observation) (tour : list nat) :
  tour_score obs tour = total_weight (tasks_at obs tour).
Proof.
  unfold tour_score, total_weight, tasks_at. by rewrite <- list_fmap_compose.
Qed.

(** X17. The best score a run ends with is the total weight of the
    schedule that [ant_colony_schedule] returns. *)
Theorem best_score_is_schedule_weight (pow : Q -> Q -> Q) (obs : list Observation)
    (slew : list (list Q)) (num_ants : nat) (alpha beta evap : Q)
    (iterations top_k : nat) (g : Rng) (t : aco_trace) :
  0 < length obs ->
  aco_run pow obs slew num_ants alpha beta evap iterations top_k g = Returns t ->
  exists sched,
    ant_colony_schedule pow obs slew num_ants alpha beta evap iterations top_k g
      = Returns sched /\
    (total_weight sched == best_score (trace_final t))%Q.
Proof.
  intros Hn Ht.
  destruct (aco_run_Returns pow obs slew num_ants alpha beta evap iterations top_k
              g t Hn Ht) as (Hb & Hinit & _ & heuristic & Hrun).
  pose proof (iterations_score_of_schedule pow obs num_ants alpha beta evap _ heuristic
                (built_successors_lt obs slew top_k _ Hb) Hn _ _ _ Hrun) as Hscore.
  rewrite Hinit in Hscore. specialize (Hscore eq_refl).
  unfold ant_colony_schedule.
  destruct (length obs =? 0) eqn:En; [apply Nat.eqb_eq in En; lia|].
  rewrite Ht. simpl. rewrite Hscore.
  destruct (best_schedule (trace_final t)) as [|b best] eqn:Eb.
  - exists []. split; [done|]. reflexivity.
  - eexists. split; [reflexivity|].
    rewrite tour_score_total_weight. unfold total_weight.
    apply pysum_Permutation. apply fmap_Permutation.
    apply stable_sort_Permutation.
Qed.

Lemma best_score_is_schedule_weight_witness :
  exists t sched,
    aco_run pow_int three_tasks slew3 2 1 2 (3 # 10) 2 50 draws = Returns t /\
    ant_colony_schedule pow_int three_tasks slew3 2 1 2 (3 # 10) 2 50 draws
      = Returns sched /\
    (total_weight sched == best_score (trace_final t))%Q.
Proof.
  eexists.
  destruct (best_score_is_schedule_weight pow_int three_tasks slew3 2 1 2 (3 # 10)
              2 50 draws _ ltac:(simpl; lia) ltac:(vm_compute; reflexivity))
    as (sched & Hs & Hw).
  exists sched. split; [vm_compute; reflexivity|]. split; [exact Hs|exact Hw].
Defined.

(** ** The shape of a tour *)

Lemma follows_edges_snoc (successors : list (list nat)) (selected : list nat)
    (chosen : nat) :
  follows_edges successors selected ->
  chosen ∈ successors !!! default 0 (last selected) ->
  follows_edges successors (selected ++ [chosen]).
Proof.
  intros Hpath Hin k a b Ha Hb.
  destruct (decide (S k < length selected)) as [Hlt|Hge].
  - rewrite lookup_app_l in Ha by lia. rewrite lookup_app_l in Hb by lia.
    by apply (Hpath k).
  - assert (Hk : S k = length selected).
    { apply lookup_lt_Some in Hb. rewrite length_app in Hb. simpl in Hb. lia. }
    rewrite lookup_app_l in Ha by lia.
    rewrite lookup_app_r in Hb by lia.
    replace (S k - length selected) with 0 in Hb by lia. injection Hb as <-.
    assert (Hlast : last selected = Some a).
    { rewrite last_lookup. rewrite <- Hk. exact Ha. }
    by rewrite Hlast in Hin.
Qed.

Section TourShape.
Variable pow : Q -> Q -> Q.
Variable obs : list Observation.
Variables alpha beta : Q.
Variable successors : list (list nat).
Variable heuristic : list (gmap nat Q).
Variable pher : list (gmap nat Q).
Hypothesis successors_lt : forall i j, j ∈ successors !!! i -> j < length obs.

Local Abbreviation n := (length obs).
Local Abbreviation candidates := (tour_candidates pow obs alpha beta heuristic pher).
Local Abbreviation loop := (tour_loop pow obs alpha beta successors heuristic pher).

Local Abbreviation stops := (stops_at pow obs alpha beta successors heuristic pher).

Lemma tour_loop_shape fuel selected used g tour g' :
  length used = n -> selected <> [] ->
  (forall j, j < n -> used !!! j = true <-> j ∈ selected) ->
  follows_edges successors selected ->
  loop fuel selected used g = Returns (tour, g') ->
  selected `prefix_of` tour /\ follows_edges successors tour /\ stops tour.
Proof.
  revert selected used g.
  induction fuel as [|fuel IH]; intros selected used g Hlen Hne Hused Hpath;
    rewrite tour_loop_unfold; cbv zeta;
    set (lst := default 0 (last selected));
    destruct (candidates lst used (successors !!! lst)) as [|c cand] eqn:Ec;
    intros Hret; try done.
  1,2: injection Hret as <- <-; split; [done|]; split; [done|];
       destruct (last selected) as [l|] eqn:El;
         [|by apply last_None in El]; exists l; split; [done|];
       subst lst; simpl in Ec;
       rewrite (tour_candidates_scored pow obs alpha beta successors heuristic pher)
         in Ec;
       apply fmap_nil_inv in Ec;
       intros j Hj Hnot Hfeas;
       assert (Hu : used !!! j = false)
         by (destruct (used !!! j) eqn:Eu; [|done];
             apply Hused in Eu; [done|by eapply successors_lt]);
       assert (Hf : j ∈ feasible_unused obs successors l used)
         by (apply list_elem_of_filter; split; [|done]; split; [done|];
             by apply Qle_bool_iff);
       destruct (Qle_bool (trail_factor pow alpha pher l j) 0
                 && Qle_bool (heuristic_factor pow beta heuristic l j) 0) eqn:Es;
         [apply andb_true_iff in Es as [H1 H2];
          split; by apply Qle_bool_iff|];
       assert (Hin : j ∈ scored_candidates pow obs alpha beta successors heuristic
                          pher l used)
         by (apply list_elem_of_filter; split; done);
       rewrite Ec in Hin; by apply elem_of_nil in Hin.
  destruct (choose_next_spec (c :: cand) g ltac:(done)) as (chosen & g1 & Hch & Hin).
  rewrite (rbind_Returns _ _ g g1 chosen Hch) in Hret.
  apply list_elem_of_fmap in Hin as (c' & -> & Hin). rewrite <- Ec in Hin.
  apply (tour_candidates_elem pow obs alpha beta heuristic pher) in Hin
    as (Hsucc & Hun & _).
  destruct (IH (selected ++ [c'.2]) (<[c'.2 := true]> used) g1)
    as (Hpre & Hpath' & Hstop);
    [by rewrite length_insert|by destruct selected| | |exact Hret|].
  - intros j Hj. rewrite elem_of_app, list_elem_of_singleton.
    destruct (decide (j = c'.2)) as [->|Hneq].
    + rewrite list_lookup_total_insert_eq by lia. split; auto.
    + rewrite list_lookup_total_insert_ne by done. rewrite Hused by done.
      split; [auto|]. intros [?|?]; [done|congruence].
  - by apply follows_edges_snoc.
  - split; [|done]. etrans; [|exact Hpre]. by apply prefix_app_r.
Qed.

End TourShape.

Lemma build_ant_tour_path (pow : Q -> Q -> Q) (obs : list Observation)
    (alpha beta : Q) (successors : list (list nat))
    (heuristic pher : list (gmap nat Q)) (g : Rng) :
  (forall i j, j ∈ successors !!! i -> j < length obs) ->
  0 < length obs ->
  exists tour g',
    build_ant_tour pow obs alpha beta successors heuristic pher g
      = Returns (tour, g') /\
    head tour = Some (randrange (length obs) g).1 /\
    follows_edges successors tour /\
    stops_at pow obs alpha beta successors heuristic pher tour.
Proof.
  intros Hsucc Hn.
  destruct (build_ant_tour_spec pow obs alpha beta successors heuristic pher Hsucc g Hn)
    as (tour & g' & Hret & _).
  exists tour, g'. split; [exact Hret|].
  unfold build_ant_tour in Hret. unfold randrange in *. cbn [fst].
  set (start_idx := Z.to_nat (g 0 mod Z.of_nat (length obs))) in *.
  assert (Hs : start_idx < length obs).
  { unfold start_idx.
    pose proof (Z.mod_pos_bound (g 0) (Z.of_nat (length obs)) ltac:(lia)). lia. }
  destruct (tour_loop_shape pow obs alpha beta successors heuristic pher Hsucc
              (length obs) [start_idx]
              (<[start_idx := true]> (replicate (length obs) false))
              (rng_tail g) tour g') as ([rest ->] & Hpath & Hstop).
  - by rewrite length_insert, length_replicate.
  - done.
  - intros j Hj. rewrite list_elem_of_singleton.
    destruct (decide (j = start_idx)) as [->|Hneq].
    + rewrite list_lookup_total_insert_eq by (rewrite length_replicate; lia). done.
    + rewrite list_lookup_total_insert_ne by done.
      rewrite lookup_total_replicate_2 by done. split; [done|congruence].
  - intros k a b Ha Hb. destruct k; done.
  - exact Hret.
  - done.
Qed.

(** X18. A tour of [build_ant_tour] begins with the task [randrange(n)]
    draws, each further task is a candidate successor of the task before
    it, and the tour ends only where no candidate successor of its last
    task that is outside the tour and starts late enough has a positive
    trail or heuristic factor. *)
Theorem tour_is_maximal_path (pow : Q -> Q -> Q) (obs : list Observation)
    (alpha beta : Q) (successors : list (list nat))
    (heuristic pher : list (gmap nat Q)) (g : Rng) :
  (forall i j, j ∈ successors !!! i -> j < length obs) ->
  0 < length obs ->
  exists tour g',
    build_ant_tour pow obs alpha beta successors heuristic pher g
      = Returns (tour, g') /\
    head tour = Some (randrange (length obs) g).1 /\
    follows_edges successors tour /\
    stops_at pow obs alpha beta successors heuristic pher tour.
Proof. apply build_ant_tour_path. Qed.

Lemma tour_is_maximal_path_witness :
  exists tour g',
    build_ant_tour pow_int three_tasks 1 2 [[1; 2]; []; []]
      [{[1 := 5%Q; 2 := 7%Q]}; ∅; ∅] [{[1 := 1%Q; 2 := 1%Q]}; ∅; ∅] draws
      = Returns (tour, g') /\
    head tour = Some (randrange (length three_tasks) draws).1 /\
    follows_edges [[1; 2]; []; []] tour.
Proof.
  destruct (tour_is_maximal_path pow_int three_tasks 1 2 [[1; 2]; []; []]
              [{[1 := 5%Q; 2 := 7%Q]}; ∅; ∅] [{[1 := 1%Q; 2 := 1%Q]}; ∅; ∅] draws)
    as (tour & g' & Hret & Hhead & Hpath & _).
  - intros [|[|[|i]]] j Hj; simpl in Hj.
    + apply elem_of_cons in Hj as [->|Hj]; [simpl; lia|].
      apply list_elem_of_singleton in Hj as ->. simpl; lia.
    + by apply elem_of_nil in Hj.
    + by apply elem_of_nil in Hj.
    + by apply elem_of_nil in Hj.
  - simpl; lia.
  - by exists tour, g'.
Defined.

(** ** Runs whose tours all have a given property *)

Section ColonyTours.
Variable pow : Q -> Q -> Q.
Variable obs : list Observation.
Variable num_ants : nat.
Variables alpha beta evap : Q.
Variable successors : list (list nat).
Variable heuristic : list (gmap nat Q).
Variable T : list nat -> Prop.
Hypothesis build_T : forall pher g, exists tour g',
  build_ant_tour pow obs alpha beta successors heuristic pher g = Returns (tour, g') /\
  T tour.

Local Abbreviation rounds := (ant_rounds pow obs alpha beta successors heuristic).
Local Abbreviation iteration :=
  (aco_iteration pow obs num_ants alpha beta evap successors heuristic).
Local Abbreviation run_from :=
  (iterations_from pow obs num_ants alpha beta evap successors heuristic).

Lemma ant_rounds_tours (Inv : aco_vars -> Prop) k v g :
  (forall v tour, Inv v -> T tour -> Inv (record_tour obs v tour)) ->
  Inv v ->
  exists v' g', rounds k v g = Returns (v', g') /\ Inv v'.
Proof.
  intros Hstep. revert v g. induction k as [|k IH]; intros v g Hv;
    cbn [ant_rounds].
  - by exists v, g.
  - destruct (build_T (pher v) g) as (tour & g' & Hret & Htour).
    assert (Hround : ant_round pow obs alpha beta successors heuristic v g
                     = Returns (record_tour obs v tour, g')).
    { unfold ant_round. by rewrite (rbind_Returns _ _ g g' tour Hret). }
    rewrite (rbind_Returns _ _ g g' _ Hround).
    apply IH. by apply Hstep.
Qed.

(** With at least one ant, what the first tour establishes and the later
    ones preserve holds after the ants of an iteration. *)
Lemma ant_rounds_first (Pre Post : aco_vars -> Prop) k v g :
  (forall v tour, Pre v -> T tour -> Post (record_tour obs v tour)) ->
  (forall v tour, Post v -> T tour -> Post (record_tour obs v tour)) ->
  Pre v ->
  exists v' g', rounds (S k) v g = Returns (v', g') /\ Post v'.
Proof.
  intros Hfirst Hstep Hv. cbn [ant_rounds].
  destruct (build_T (pher v) g) as (tour & g' & Hret & Htour).
  assert (Hround : ant_round pow obs alpha beta successors heuristic v g
                   = Returns (record_tour obs v tour, g')).
  { unfold ant_round. by rewrite (rbind_Returns _ _ g g' tour Hret). }
  rewrite (rbind_Returns _ _ g g' _ Hround).
  apply ant_rounds_tours; [done|]. by apply Hfirst.
Qed.

Lemma aco_iteration_tours (Inv : aco_vars -> Prop) v g r g' :
  (forall v tour, Inv v -> T tour -> Inv (record_tour obs v tour)) ->
  Inv (start_iteration v) ->
  iteration v g = Returns (r, g') ->
  exists v1, r = end_iteration evap successors v1 /\ Inv v1.
Proof.
  intros Hstep Hv Hret.
  destruct (ant_rounds_tours Inv num_ants (start_iteration v) g Hstep Hv)
    as (v1 & g1 & Hrounds & Hv1).
  unfold aco_iteration in Hret. rewrite (rbind_Returns _ _ g g1 v1 Hrounds) in Hret.
  injection Hret as <- _. eauto.
Qed.

Lemma aco_iteration_first (Pre Post : aco_vars -> Prop) v g r g' :
  0 < num_ants ->
  (forall v tour, Pre v -> T tour -> Post (record_tour obs v tour)) ->
  (forall v tour, Post v -> T tour -> Post (record_tour obs v tour)) ->
  Pre (start_iteration v) ->
  iteration v g = Returns (r, g') ->
  exists v1, r = end_iteration evap successors v1 /\ Post v1.
Proof.
  intros Hants Hfirst Hstep Hv Hret.
  destruct num_ants as [|k] eqn:Ek; [lia|].
  destruct (ant_rounds_first Pre Post k (start_iteration v) g Hfirst Hstep Hv)
    as (v1 & g1 & Hrounds & Hv1).
  unfold aco_iteration in Hret. rewrite (rbind_Returns _ _ g g1 v1 Hrounds) in Hret.
  injection Hret as <- _. eauto.
Qed.

Lemma iterations_tours (Inv : aco_vars -> Prop) v history v' :
  (forall v tour, Inv v -> T tour -> Inv (record_tour obs v tour)) ->
  (forall v, Inv v -> Inv (start_iteration v)) ->
  (forall v, Inv v -> Inv (end_iteration evap successors v).2) ->
  run_from v history v' -> Inv v -> Inv v'.
Proof.
  intros Hstep Hstart Hend.
  induction 1 as [v|v g r g' history v' Hret Hrun IH]; intros Hv; [done|].
  apply IH.
  destruct (aco_iteration_tours Inv v g r g') as (v1 & -> & Hp); auto.
Qed.

(** The best schedule is empty or one of the tours. *)
Lemma iterations_best_tour v history v' :
  run_from v history v' ->
  best_schedule v = [] \/ T (best_schedule v) ->
  best_schedule v' = [] \/ T (best_schedule v').
Proof.
  intros Hrun.
  apply (iterations_tours (fun v => best_schedule v = [] \/ T (best_schedule v))
           v history v'); [| | |done]; try done.
  intros v0 tour Hv0 Htour.
  destruct (record_tour_best obs v0 tour) as [(-> & _)|(-> & _)]; [done|by right].
Qed.

(** With at least one ant and one iteration, a best schedule is recorded
    when every tour has a positive score. *)
Lemma iterations_best_nonempty v r history v' :
  0 < num_ants ->
  (forall tour, T tour -> tour <> [] /\ (0 < tour_score obs tour)%Q) ->
  run_from v (r :: history) v' ->
  (best_score v <= 0)%Q ->
  best_schedule v' <> [].
Proof.
  intros Hants Hpos Hrun Hv.
  assert (Hstep : forall v tour, best_schedule v <> [] -> T tour ->
            best_schedule (record_tour obs v tour) <> []).
  { intros v0 tour Hv0 Htour.
    destruct (record_tour_best obs v0 tour) as [(-> & _)|(-> & _)]; [done|].
    by apply Hpos. }
  inversion Hrun as [|v0 g r0 g' history0 v0' Hret Hrest]; subst.
  destruct (aco_iteration_first
              (fun v => best_schedule v <> [] \/ (best_score v <= 0)%Q)
              (fun v => best_schedule v <> []) v g r g' Hants)
    as (v1 & -> & Hv1); [|done|by right|done|].
  { intros v0 tour Hv0 Htour.
    destruct (record_tour_best obs v0 tour) as [(-> & Hs & Hle)|(-> & _)].
    - destruct Hv0 as [?|Hle0]; [done|].
      destruct (Hpos tour Htour) as [_ Hlt]. lra.
    - by apply Hpos. }
  apply (iterations_tours (fun v => best_schedule v <> [])
           (end_iteration evap successors v1).2 history v');
    [done|done|done|exact Hrest|exact Hv1].
Qed.

End ColonyTours.

(** ** Schedules of the ant-colony search *)

Lemma pysum_positive (xs : list Q) :
  xs <> [] -> Forall (fun x => (0 < x)%Q) xs -> (0 < pysum xs)%Q.
Proof.
  intros Hne Hpos. induction Hpos as [|x xs Hx Hxs IH]; [done|].
  rewrite pysum_cons. destruct xs as [|y xs].
  - unfold pysum. simpl. lra.
  - specialize (IH ltac:(done)). lra.
Qed.

Lemma stable_sort_sorted_id {A} (before : A -> A -> bool) (l : list A) :
  StronglySorted (fun a b => before a b = true) l -> stable_sort before l = l.
Proof.
  induction 1 as [|x l Hs IH Hx]; [done|].
  cbn [stable_sort foldr]. fold (stable_sort before l). rewrite IH.
  destruct l as [|y l]; [done|]. simpl.
  apply Forall_cons in Hx as [-> _]. done.
Qed.

Lemma build_good_tour (pow : Q -> Q -> Q) (obs : list Observation) (alpha beta : Q)
    (successors : list (list nat)) (heuristic : list (gmap nat Q)) :
  (forall i j, j ∈ successors !!! i -> j < length obs) -> 0 < length obs ->
  forall pher g, exists tour g',
    build_ant_tour pow obs alpha beta successors heuristic pher g = Returns (tour, g') /\
    good_tour obs tour /\ follows_edges successors tour.
Proof.
  intros Hsucc Hn pher g.
  destruct (build_ant_tour_spec pow obs alpha beta successors heuristic pher Hsucc g Hn)
    as (tour & g' & Hret & Hgood).
  destruct (build_ant_tour_path pow obs alpha beta successors heuristic pher g Hsucc Hn)
    as (tour' & g'' & Hret' & _ & Hpath & _).
  rewrite Hret in Hret'. injection Hret' as <- <-.
  by exists tour, g'.
Qed.

Lemma aco_returned_nonempty (pow : Q -> Q -> Q) (obs : list Observation)
    (slew : list (list Q)) (num_ants : nat) (alpha beta evap : Q)
    (iterations top_k : nat) (g : Rng) (sched : list Observation) :
  0 < length obs -> 0 < num_ants -> 0 < iterations ->
  Forall (fun o => (0 < weight o)%Q) obs ->
  ant_colony_schedule pow obs slew num_ants alpha beta evap iterations top_k g
    = Returns sched ->
  sched <> [].
Proof.
  intros Hn Hants Hiter Hw Haco. unfold ant_colony_schedule in Haco.
  destruct (length obs =? 0) eqn:En; [apply Nat.eqb_eq in En; lia|].
  apply obind_Returns in Haco as (t & Ht & Haco).
  destruct (aco_run_Returns pow obs slew num_ants alpha beta evap iterations top_k
              g t Hn Ht) as (Hb & Hinit & Hlen & heuristic & Hrun).
  pose proof (built_successors_lt obs slew top_k _ Hb) as Hsucc.
  destruct (trace_history t) as [|r history] eqn:Eh; [simpl in Hlen; lia|].
  assert (Hbest : best_schedule (trace_final t) <> []).
  { apply (iterations_best_nonempty pow obs num_ants alpha beta evap
             (trace_successors t) heuristic
             (fun tour => good_tour obs tour /\ follows_edges (trace_successors t) tour)
             (build_good_tour pow obs alpha beta _ heuristic Hsucc Hn)
             (trace_initial t) r history (trace_final t) Hants); [|done|].
    - intros tour [(Hne & _ & Hlt & _) _]. split; [done|].
      apply pysum_positive; [by destruct tour|].
      apply Forall_fmap. eapply Forall_impl; [exact Hlt|].
      intros j Hj. simpl in *. rewrite Forall_forall in Hw.
      by apply Hw, list_elem_of_lookup_total_2.
    - rewrite Hinit. simpl. lra. }
  destruct (best_schedule (trace_final t)) as [|b best] eqn:Eb; [done|].
  assert (Hs : sched = sorted_by_key start (tasks_at obs (b :: best)))
    by (by injection Haco as <-).
  rewrite Hs. intros Hnil. apply (f_equal length) in Hnil.
  unfold sorted_by_key in Hnil. rewrite stable_sort_length in Hnil. done.
Qed.

(** X19. With at least one task, one ant and one iteration and with
    positive weights, every schedule that [ant_colony_schedule] returns is
    non-empty. *)
Theorem aco_schedule_nonempty (pow : Q -> Q -> Q) (obs : list Observation)
    (slew : list (list Q)) (num_ants : nat) (alpha beta evap : Q)
    (iterations top_k : nat) (g : Rng) (sched : list Observation) :
  0 < length obs -> 0 < num_ants -> 0 < iterations ->
  Forall (fun o => (0 < weight o)%Q) obs ->
  ant_colony_schedule pow obs slew num_ants alpha beta evap iterations top_k g
    = Returns sched ->
  sched <> [].
Proof. apply aco_returned_nonempty. Qed.

Lemma aco_schedule_nonempty_witness :
  ant_colony_schedule pow_int three_tasks slew3 2 1 2 (3 # 10) 2 50 draws
    = Returns [interval_task 0 1 1 5; interval_task 1 2 1 5] /\
  [interval_task 0 1 1 5; interval_task 1 2 1 5] <> [].
Proof.
  assert (Haco : ant_colony_schedule pow_int three_tasks slew3 2 1 2 (3 # 10) 2 50 draws
                 = Returns [interval_task 0 1 1 5; interval_task 1 2 1 5])
    by (vm_compute; reflexivity).
  split; [exact Haco|].
  apply (aco_schedule_nonempty pow_int three_tasks slew3 2 1 2 (3 # 10) 2 50 draws _
           ltac:(simpl; lia) ltac:(lia) ltac:(lia)
           ltac:(unfold three_tasks; repeat constructor) Haco).
Defined.

(** X20. With valid intervals, the schedule [ant_colony_schedule] returns
    lists the tasks of a path in the candidate graph in the order of the
    path: each task after the first is a candidate successor of the task
    before it. *)
Theorem aco_schedule_is_path (pow : Q -> Q -> Q) (obs : list Observation)
    (slew : list (list Q)) (num_ants : nat) (alpha beta evap : Q)
    (iterations top_k : nat) (g : Rng) (sched : list Observation) :
  valid_intervals obs ->
  ant_colony_schedule pow obs slew num_ants alpha beta evap iterations top_k g
    = Returns sched ->
  exists successors tour,
    (obs <> [] -> build_successors obs slew top_k = Returns successors) /\
    sched = tasks_at obs tour /\
    NoDup tour /\
    follows_edges successors tour.
Proof.
  intros Hvalid Hret. unfold ant_colony_schedule in Hret.
  destruct (length obs =? 0) eqn:En.
  { injection Hret as <-. exists [], []. apply Nat.eqb_eq in En.
    split; [by destruct obs|]. split; [done|]. split; [constructor|].
    intros k a b Ha. done. }
  apply Nat.eqb_neq in En.
  apply obind_Returns in Hret as (t & Ht & Hret).
  destruct (aco_run_Returns pow obs slew num_ants alpha beta evap iterations top_k
              g t ltac:(lia) Ht) as (Hb & Hinit & Hlen & heuristic & Hrun).
  pose proof (built_successors_lt obs slew top_k _ Hb) as Hsucc.
  exists (trace_successors t).
  destruct (iterations_best_tour pow obs num_ants alpha beta evap
              (trace_successors t) heuristic
              (fun tour => good_tour obs tour /\ follows_edges (trace_successors t) tour)
              (build_good_tour pow obs alpha beta _ heuristic Hsucc ltac:(lia))
              _ _ _ Hrun) as [Hnil|[Hgood Hpath]].
  { left. by rewrite Hinit. }
  { rewrite Hnil in Hret. injection Hret as <-. exists [].
    split; [done|]. split; [done|]. split; [constructor|].
    intros k a b Ha. done. }
  exists (best_schedule (trace_final t)).
  destruct Hgood as (Hne & Hnd & Hlt & Hchain).
  split; [done|]. split; [|by split].
  assert (Hs : sched = sorted_by_key start
                         (tasks_at obs (best_schedule (trace_final t)))).
  { destruct (best_schedule (trace_final t)) as [|b best] eqn:Eb; [done|].
    by injection Hret as <-. }
  rewrite Hs. unfold sorted_by_key. apply stable_sort_sorted_id.
  unfold tasks_at.
  apply (StronglySorted_fmap (fun i => obs !!! i)
           (fun a b => Qle_bool (start (obs !!! a)) (start (obs !!! b)) = true)
           (fun a b : Observation => Qle_bool (start a) (start b) = true));
    [done|].
  apply (StronglySorted_impl_elem
           (fun a b => (end_ (obs !!! a) <= start (obs !!! b))%Q)); [|by apply Hchain].
  intros x y Hx _ Hxy. apply Qle_bool_iff.
  assert (Hv : (start (obs !!! x) < end_ (obs !!! x))%Q).
  { unfold valid_intervals in Hvalid. rewrite Forall_forall in Hvalid.
    rewrite Forall_forall in Hlt.
    by apply Hvalid, list_elem_of_lookup_total_2, Hlt. }
  lra.
Qed.

Lemma aco_schedule_is_path_witness :
  exists sched successors tour,
    ant_colony_schedule pow_int three_tasks slew3 2 1 2 (3 # 10) 2 50 draws
      = Returns sched /\
    sched = tasks_at three_tasks tour /\
    follows_edges successors tour.
Proof.
  eexists.
  destruct (aco_schedule_is_path pow_int three_tasks slew3 2 1 2 (3 # 10) 2 50 draws _
              ltac:(unfold valid_intervals, three_tasks; repeat constructor)
              ltac:(vm_compute; reflexivity))
    as (successors & tour & _ & Hs & _ & Hpath).
  exists successors, tour. split; [vm_compute; reflexivity|]. by split.
Defined.

Lemma for_each_const {A B} (f : A -> outcome B) (l : list A) (y : B) :
  (forall x, f x = Returns y) -> for_each f l = Returns (replicate (length l) y).
Proof.
  intros Hf. induction l as [|x l IH]; [done|].
  simpl. by rewrite Hf, IH.
Qed.

Lemma successors_of_no_top_k (obs : list Observation) (slew : list (list Q)) (i : nat) :
  successors_of obs slew 0 i = Returns [].
Proof.
  unfold successors_of. cbv zeta.
  set (pos := bisect_left _ _).
  replace (min (length (order_by_start obs)) (pos + 0 * 5) - pos) with 0 by lia.
  reflexivity.
Qed.

Lemma lookup_total_replicate_nil {A} (n i : nat) :
  (replicate n ([] : list A)) !!! i = [].
Proof.
  destruct (decide (i < n)).
  - by apply lookup_total_replicate_2.
  - rewrite list_lookup_total_alt.
    assert (H : replicate n ([] : list A) !! i = None)
      by (apply lookup_replicate_None; lia).
    by rewrite H.
Qed.

Lemma follows_no_edges (n : nat) (tour : list nat) :
  follows_edges (replicate n []) tour -> length tour <= 1.
Proof.
  intros Hpath. destruct tour as [|a [|b tour]]; [simpl; lia..|].
  specialize (Hpath 0 a b eq_refl eq_refl).
  rewrite lookup_total_replicate_nil in Hpath. by apply elem_of_nil in Hpath.
Qed.

(** X21. With [top_k = 0] no task has a candidate successor and the slew
    matrix is never read: [ant_colony_schedule] returns whatever the
    matrix holds, and the schedule has at most one task. *)
Theorem no_candidates_single_task (pow : Q -> Q -> Q) (obs : list Observation)
    (slew : list (list Q)) (num_ants : nat) (alpha beta evap : Q)
    (iterations : nat) (g : Rng) :
  build_successors obs slew 0 = Returns (replicate (length obs) []) /\
  exists sched,
    ant_colony_schedule pow obs slew num_ants alpha beta evap iterations 0 g
      = Returns sched /\
    length sched <= 1.
Proof.
  assert (Hb : build_successors obs slew 0 = Returns (replicate (length obs) [])).
  { unfold build_successors.
    rewrite (for_each_const _ _ [] (successors_of_no_top_k obs slew)).
    by rewrite length_seq. }
  split; [exact Hb|].
  unfold ant_colony_schedule.
  destruct (length obs =? 0) eqn:En; [exists []; split; [done|simpl; lia]|].
  apply Nat.eqb_neq in En.
  set (successors := replicate (length obs) ([] : list nat)) in *.
  assert (Hsucc : forall i j, j ∈ successors !!! i -> j < length obs).
  { intros i j Hj. unfold successors in Hj.
    rewrite lookup_total_replicate_nil in Hj. by apply elem_of_nil in Hj. }
  destruct (for_each_total (fun '(i, succ) => heuristic_row obs slew i succ ∅)
              (zip (seq 0 (length obs)) successors)) as [heuristic Hh].
  { apply Forall_forall. intros [i succ] Hin.
    apply elem_of_zip_r in Hin. apply elem_of_replicate in Hin as [-> _].
    by exists ∅. }
  destruct (aco_loop_spec pow obs num_ants alpha beta evap successors heuristic
              Hsucc ltac:(lia) iterations
              (mkVars (init_pheromone successors) [] 0 0 None) [] g)
    as (history & v' & g' & Hloop & _ & Hrun).
  unfold aco_run. rewrite Hb. cbn [obind]. fold successors.
  unfold build_heuristic. rewrite Hh. cbn [obind]. rewrite Hloop. cbn [obind app].
  cbn [trace_final].
  destruct (iterations_best_tour pow obs num_ants alpha beta evap successors heuristic
              (fun tour => good_tour obs tour /\ follows_edges successors tour)
              (build_good_tour pow obs alpha beta _ heuristic Hsucc ltac:(lia))
              _ _ _ Hrun ltac:(by left)) as [->|[_ Hpath]].
  { exists []. split; [done|simpl; lia]. }
  apply follows_no_edges in Hpath.
  destruct (best_schedule v') as [|b best] eqn:Eb.
  { exists []. split; [done|simpl; lia]. }
  eexists. split; [reflexivity|].
  unfold sorted_by_key. rewrite stable_sort_length. unfold tasks_at.
  by rewrite length_fmap.
Qed.

Lemma iterations_from_nil (pow : Q -> Q -> Q) (obs : list Observation)
    (num_ants : nat) (alpha beta evap : Q) (successors : list (list nat))
    (heuristic : list (gmap nat Q)) (v v' : aco_vars) :
  iterations_from pow obs num_ants alpha beta evap successors heuristic v [] v' ->
  v' = v.
Proof. by inversion 1. Qed.

Section NoAnts.
Variable pow : Q -> Q -> Q.
Variable obs : list Observation.
Variables alpha beta evap : Q.
Variable successors : list (list nat).
Variable heuristic : list (gmap nat Q).

Lemma iterations_without_ants v history v' :
  iterations_from pow obs 0 alpha beta evap successors heuristic v history v' ->
  best_schedule v' = best_schedule v.
Proof.
  induction 1 as [v|v g r g' history v' Hret Hrun IH]; [done|].
  rewrite IH. unfold aco_iteration in Hret. cbn in Hret.
  by injection Hret as <- _.
Qed.

End NoAnts.

(** X22. Without iterations or without ants no tour is built: given a slew
    matrix that covers every pair of tasks, [ant_colony_schedule] returns
    the empty schedule. *)
Theorem no_search_empty_schedule (pow : Q -> Q -> Q) (obs : list Observation)
    (slew : list (list Q)) (num_ants : nat) (alpha beta evap : Q)
    (iterations top_k : nat) (g : Rng) :
  iterations = 0 \/ num_ants = 0 ->
  slew_covers (length obs) slew = true ->
  ant_colony_schedule pow obs slew num_ants alpha beta evap iterations top_k g
    = Returns [].
Proof.
  intros Hzero Hcov. unfold ant_colony_schedule.
  destruct (length obs =? 0) eqn:En; [done|]. apply Nat.eqb_neq in En.
  destruct (aco_run_total pow obs slew num_ants alpha beta evap iterations top_k g
              ltac:(lia) Hcov) as [t Ht].
  destruct (aco_run_Returns pow obs slew num_ants alpha beta evap iterations top_k
              g t ltac:(lia) Ht) as (Hb & Hinit & Hlen & heuristic & Hrun).
  rewrite Ht. cbn [obind].
  assert (Hbest : best_schedule (trace_final t) = []).
  { destruct Hzero as [->| ->].
    - destruct (trace_history t); [|done].
      rewrite (iterations_from_nil _ _ _ _ _ _ _ _ _ _ Hrun). by rewrite Hinit.
    - rewrite (iterations_without_ants _ _ _ _ _ _ _ _ _ _ Hrun). by rewrite Hinit. }
  by rewrite Hbest.
Qed.

Lemma no_search_empty_schedule_witness :
  ant_colony_schedule pow_int three_tasks slew3 0 1 2 (3 # 10) 2 50 draws = Returns [].
Proof.
  apply no_search_empty_schedule; [by right|reflexivity].
Defined.

(** ** What the search reads of the slew matrix *)

Lemma obind_no_diverge {A B} (m : outcome A) (k : A -> outcome B) :
  m <> Diverges -> (forall a, m = Returns a -> k a <> Diverges) ->
  obind m k <> Diverges.
Proof. destruct m; simpl; [auto|done|done]. Qed.

Lemma index_no_diverge {A} (l : list A) (i : nat) : index l i <> Diverges.
Proof. unfold index. by destruct (l !! i). Qed.

Lemma for_each_no_diverge {A B} (f : A -> outcome B) (l : list A) :
  (forall x, f x <> Diverges) -> for_each f l <> Diverges.
Proof.
  intros Hf. induction l as [|x l IH]; [done|]. simpl.
  apply obind_no_diverge; [done|]. intros y _.
  apply obind_no_diverge; [done|]. done.
Qed.

Section SlewReads.
Variable obs : list Observation.
Variable slew : list (list Q).
Variable top_k : nat.

Local Abbreviation n := (length obs).

Lemma scan_window_entries i w :
  (exists cand, scan_window obs slew i w = Returns cand) <->
  Forall (has_entry slew i) w.
Proof.
  induction w as [|idx w IH]; simpl.
  - split; [constructor|eauto].
  - rewrite Forall_cons, <- IH. unfold has_entry, index. split.
    + intros [cand H].
      destruct (slew !! i) as [row|]; [|done]. simpl in H.
      destruct (row !! idx) as [c|] eqn:Ec; [|done]. simpl in H.
      destruct (scan_window obs slew i w) as [cand'| |]; [|done..].
      split; [exists row, c|]; eauto.
    + intros [(row & c & -> & Hc) [cand' ->]]. simpl. rewrite Hc. simpl. eauto.
Qed.

Lemma scan_window_no_diverge i w : scan_window obs slew i w <> Diverges.
Proof.
  induction w as [|idx w IH]; [done|]. simpl.
  apply obind_no_diverge; [apply index_no_diverge|]. intros row _.
  apply obind_no_diverge; [apply index_no_diverge|]. intros c _.
  by apply obind_no_diverge.
Qed.

Lemma successors_of_entries i :
  (exists succ, successors_of obs slew top_k i = Returns succ) <->
  Forall (has_entry slew i) (scanned_window obs top_k i).
Proof.
  rewrite <- scan_window_entries. unfold successors_of. cbv zeta.
  fold (scanned_window obs top_k i). split.
  - intros [succ H]. apply obind_Returns in H as (cand & Hcand & _). eauto.
  - intros [cand ->]. simpl. eauto.
Qed.

Lemma successors_of_no_diverge i : successors_of obs slew top_k i <> Diverges.
Proof.
  unfold successors_of. cbv zeta.
  apply obind_no_diverge; [apply scan_window_no_diverge|done].
Qed.

Lemma successors_of_window i succ :
  successors_of obs slew top_k i = Returns succ ->
  succ ⊆ scanned_window obs top_k i.
Proof.
  intros H j Hj.
  destruct (successors_of_kept obs slew top_k i succ H)
    as (kept & dropped & -> & Hp & _).
  apply list_elem_of_fmap in Hj as (c & -> & Hc).
  assert (Hin : c ∈ kept ++ dropped) by (apply elem_of_app; by left).
  rewrite Hp in Hin. apply list_elem_of_fmap in Hin as (idx & -> & Hidx).
  exact Hidx.
Qed.

Lemma build_successors_entries :
  (exists successors, build_successors obs slew top_k = Returns successors) <->
  slew_entries_read obs slew top_k.
Proof.
  unfold build_successors, slew_entries_read. split.
  - intros [successors H] i idx Hi Hidx. apply for_each_Returns in H.
    pose proof (Forall2_length _ _ _ H) as Hlen. rewrite length_seq in Hlen.
    destruct (successors !! i) as [succ|] eqn:Es.
    2: { apply lookup_ge_None in Es. lia. }
    assert (Hof : successors_of obs slew top_k i = Returns succ).
    { eapply (Forall2_lookup_lr _ _ _ i i succ H); [|done].
      rewrite lookup_seq_lt by lia. done. }
    assert (Hall : Forall (has_entry slew i) (scanned_window obs top_k i))
      by (apply successors_of_entries; eauto).
    rewrite Forall_forall in Hall. by apply Hall.
  - intros Hread. apply for_each_total. apply Forall_forall. intros i Hi.
    apply elem_of_seq in Hi. apply successors_of_entries.
    apply Forall_forall. intros idx Hidx. apply Hread; [lia|done].
Qed.

Lemma heuristic_row_entries i succ row :
  Forall (has_entry slew i) succ ->
  exists row', heuristic_row obs slew i succ row = Returns row'.
Proof.
  intros Hs. revert row.
  induction Hs as [|j succ (r & c & Hr & Hc) _ IH]; intros row; simpl; [eauto|].
  unfold index. rewrite Hr. simpl. rewrite Hc. simpl. apply IH.
Qed.

Lemma heuristic_row_no_diverge i succ row :
  heuristic_row obs slew i succ row <> Diverges.
Proof.
  revert row. induction succ as [|j succ IH]; intros row; [done|]. simpl.
  apply obind_no_diverge; [apply index_no_diverge|]. intros r _.
  apply obind_no_diverge; [apply index_no_diverge|]. intros c _. apply IH.
Qed.

Lemma build_heuristic_entries successors :
  build_successors obs slew top_k = Returns successors ->
  exists heuristic, build_heuristic obs slew successors = Returns heuristic.
Proof.
  intros Hb.
  assert (Hread : slew_entries_read obs slew top_k)
    by (apply build_successors_entries; eauto).
  apply for_each_Returns in Hb.
  apply for_each_total. apply Forall_forall.
  intros p Hin. apply list_elem_of_lookup in Hin as [k Hk].
  apply lookup_zip_with_Some in Hk as (i & succ & -> & Hi & Hs).
  apply lookup_seq in Hi as [-> Hlt]. simpl in *.
  apply heuristic_row_entries.
  assert (Hof : successors_of obs slew top_k k = Returns succ).
  { eapply (Forall2_lookup_lr _ _ _ k k succ Hb); [|done].
    rewrite lookup_seq_lt by lia. done. }
  apply Forall_forall. intros j Hj. apply Hread; [done|].
  by apply (successors_of_window k succ).
Qed.

End SlewReads.

(** X23. [ant_colony_schedule] returns exactly when the slew matrix has
    the entry [slew_matrix[i][idx]] for every task [i] and every task
    [idx] of the window scanned for [i]; otherwise it raises: it never
    runs forever. *)
Theorem aco_returns_iff_slew_read (pow : Q -> Q -> Q) (obs : list Observation)
    (slew : list (list Q)) (num_ants : nat) (alpha beta evap : Q)
    (iterations top_k : nat) (g : Rng) :
  let result :=
    ant_colony_schedule pow obs slew num_ants alpha beta evap iterations top_k g in
  (obs <> [] ->
   ((exists sched, result = Returns sched) <-> slew_entries_read obs slew top_k)) /\
  (obs = [] -> result = Returns []) /\
  result <> Diverges.
Proof.
  intros result. split; [|split].
  - intros Hne. assert (Hn : 0 < length obs) by (destruct obs; [done|simpl; lia]).
    rewrite <- build_successors_entries. subst result.
    unfold ant_colony_schedule.
    destruct (length obs =? 0) eqn:En; [apply Nat.eqb_eq in En; lia|]. split.
    + intros [sched H]. apply obind_Returns in H as (t & Ht & _).
      unfold aco_run in Ht. apply obind_Returns in Ht as (successors & Hb & _).
      eauto.
    + intros [successors Hb]. unfold aco_run. rewrite Hb. cbn [obind].
      destruct (build_heuristic_entries obs slew top_k successors Hb)
        as [heuristic Hh].
      rewrite Hh. cbn [obind].
      destruct (aco_loop_spec pow obs num_ants alpha beta evap successors heuristic
                  (built_successors_lt obs slew top_k successors Hb) Hn iterations
                  (mkVars (init_pheromone successors) [] 0 0 None) [] g)
        as (new & v' & g'' & Hloop & _).
      rewrite Hloop. cbn [obind app trace_final].
      destruct (best_schedule v'); eauto.
  - intros ->. reflexivity.
  - subst result. unfold ant_colony_schedule.
    destruct (length obs =? 0) eqn:En; [done|]. apply Nat.eqb_neq in En.
    apply obind_no_diverge.
    2: { intros t _. by destruct (best_schedule (trace_final t)). }
    unfold aco_run. apply obind_no_diverge.
    { apply for_each_no_diverge. apply successors_of_no_diverge. }
    intros successors Hb. apply obind_no_diverge.
    { apply for_each_no_diverge. intros [i succ]. apply heuristic_row_no_diverge. }
    intros heuristic _.
    destruct (aco_loop_spec pow obs num_ants alpha beta evap successors heuristic
                (built_successors_lt obs slew top_k successors Hb) ltac:(lia)
                iterations (mkVars (init_pheromone successors) [] 0 0 None) [] g)
      as (new & v' & g'' & Hloop & _).
    rewrite Hloop. done.
Qed.

Lemma aco_returns_iff_slew_read_witness :
  ((exists sched,
      ant_colony_schedule pow_int three_tasks slew3 2 1 2 (3 # 10) 2 50 draws
        = Returns sched) <->
   slew_entries_read three_tasks slew3 50) /\
  ant_colony_schedule pow_int three_tasks [] 2 1 2 (3 # 10) 2 50 draws
    = Raises IndexError.
Proof.
  split.
  - apply (aco_returns_iff_slew_read pow_int three_tasks slew3 2 1 2 (3 # 10) 2 50
             draws). done.
  - vm_compute. reflexivity.
Defined.

(** ** The angular distance and the slew matrix *)

Lemma clamp_bounds (x : Q) : (-1 <= pymax (-1) (pymin 1 x) <= 1)%Q.
Proof.
  unfold pymax, pymin.
  destruct (Qltb x 1) eqn:E1.
  - apply Qltb_lt in E1.
    destruct (Qltb (-1) x) eqn:E2; [apply Qltb_lt in E2|]; lra.
  - destruct (Qltb (-1) 1) eqn:E2; lra.
Qed.

Lemma Qmult_comm_eq (x y : Q) : (x * y)%Q = (y * x)%Q.
Proof. unfold Qmult. f_equal; [apply Z.mul_comm|apply Pos.mul_comm]. Qed.

Lemma Qabs_minus_eq (x y : Q) : Qabs (x - y) = Qabs (y - x).
Proof.
  destruct x as [xn xd], y as [yn yd].
  unfold Qminus, Qplus, Qopp, Qabs. simpl. f_equal; [|apply Pos.mul_comm].
  rewrite !Z.mul_opp_l. lia.
Qed.

Section GeometryFacts.
Variables radians degrees sin cos acos : Q -> Q.

Local Abbreviation distance := (angular_distance_deg radians degrees sin cos acos).
Local Abbreviation matrix := (compute_slew_matrix radians degrees sin cos acos).
Local Abbreviation row_of := (slew_row radians degrees sin cos acos).

Lemma clamped_cosine_sym (ra1 dec1 ra2 dec2 : Q) :
  clamped_cosine radians sin cos ra1 dec1 ra2 dec2
    = clamped_cosine radians sin cos ra2 dec2 ra1 dec1.
Proof.
  unfold clamped_cosine. cbv zeta.
  rewrite (Qmult_comm_eq (sin (radians dec1))).
  rewrite (Qmult_comm_eq (cos (radians dec1))).
  by rewrite (Qabs_minus_eq (radians ra1)).
Qed.

End GeometryFacts.

(** A loop over [range(m)] that changes position [k] in round [k] only. *)
Lemma foldl_seq_pointwise {A} `{Inhabited A} (step : list A -> nat -> list A)
    (F : nat -> A -> A) (l0 : list A) (m : nat) :
  (forall l k, length (step l k) = length l) ->
  (forall l k j, j < length l ->
     step l k !!! j = if decide (j = k) then F k (l !!! k) else l !!! j) ->
  m <= length l0 ->
  length (foldl step l0 (seq 0 m)) = length l0 /\
  forall j, j < length l0 ->
    foldl step l0 (seq 0 m) !!! j = if decide (j < m) then F j (l0 !!! j) else l0 !!! j.
Proof.
  intros Hlen Hstep. induction m as [|m IH]; intros Hm.
  - split; [done|]. intros j Hj. by rewrite decide_False by lia.
  - destruct (IH ltac:(lia)) as [IHlen IHat].
    rewrite seq_S, foldl_app. cbn [foldl Nat.add].
    split; [by rewrite Hlen|]. intros j Hj.
    rewrite Hstep by lia. destruct (decide (j = m)) as [->|Hne].
    + rewrite decide_True by lia. rewrite IHat by lia.
      by rewrite decide_False by lia.
    + rewrite IHat by lia. destruct (decide (j < m)).
      * by rewrite decide_True by lia.
      * by rewrite decide_False by lia.
Qed.

Section SlewMatrix.
Variables radians degrees sin cos acos : Q -> Q.
Variable obs : list Observation.

Local Abbreviation n := (length obs).
Local Abbreviation distance := (angular_distance_deg radians degrees sin cos acos).
Local Abbreviation matrix := (compute_slew_matrix radians degrees sin cos acos obs).
Local Abbreviation row_of := (slew_row radians degrees sin cos acos obs).
Local Abbreviation slew_time i j :=
  (Qdiv (distance (ra (obs !!! i)) (dec (obs !!! i)) (ra (obs !!! j)) (dec (obs !!! j)))
     SLEW_RATE_DEG_PER_SEC).

Lemma slew_row_spec i rowi :
  length rowi = n ->
  length (row_of i rowi) = n /\
  forall j, j < n ->
    row_of i rowi !!! j = if decide (i = j) then rowi !!! j else slew_time i j.
Proof.
  intros Hlen. unfold slew_row. cbv zeta.
  destruct (foldl_seq_pointwise
              (fun rowi j => if decide (i = j) then rowi
                             else <[j := slew_time i j]> rowi)
              (fun j x => if decide (i = j) then x else slew_time i j)
              rowi n) as [Hl Hat].
  - intros l k. destruct (decide (i = k)); [done|apply length_insert].
  - intros l k j Hj. destruct (decide (i = k)) as [->|Hik].
    + by destruct (decide (j = k)) as [->|].
    + destruct (decide (j = k)) as [->|Hjk].
      * by rewrite list_lookup_total_insert_eq.
      * by rewrite list_lookup_total_insert_ne.
  - lia.
  - split; [by rewrite Hl|]. intros j Hj. rewrite Hat by lia.
    by rewrite decide_True by lia.
Qed.

Lemma compute_slew_matrix_spec :
  length matrix = n /\
  forall i, i < n ->
    length (matrix !!! i) = n /\
    forall j, j < n ->
      (matrix !!! i) !!! j = if decide (i = j) then 0%Q else slew_time i j.
Proof.
  unfold compute_slew_matrix. cbv zeta.
  destruct (foldl_seq_pointwise
              (fun mat i => <[i := row_of i (mat !!! i)]> mat)
              (fun i row => row_of i row)
              (replicate n (replicate n 0%Q)) n) as [Hl Hat].
  - intros l k. apply length_insert.
  - intros l k j Hj. destruct (decide (j = k)) as [->|Hjk].
    + by rewrite list_lookup_total_insert_eq.
    + by rewrite list_lookup_total_insert_ne.
  - by rewrite length_replicate.
  - rewrite length_replicate in Hl, Hat. split; [exact Hl|].
    intros i Hi. rewrite Hat by done. rewrite decide_True by done.
    rewrite lookup_total_replicate_2 by done.
    destruct (slew_row_spec i (replicate n 0%Q)) as [Hrl Hrat];
      [apply length_replicate|].
    split; [exact Hrl|]. intros j Hj. rewrite Hrat by done.
    destruct (decide (i = j)); [|done]. by rewrite lookup_total_replicate_2.
Qed.

Lemma compute_slew_matrix_covers : slew_covers n matrix = true.
Proof.
  destruct compute_slew_matrix_spec as [Hl Hrows].
  unfold slew_covers. apply forallb_forall. intros i Hi.
  apply in_seq in Hi.
  rewrite (list_lookup_lookup_total_lt matrix i) by lia.
  apply Nat.leb_le. destruct (Hrows i ltac:(lia)) as [-> _]. done.
Qed.

End SlewMatrix.

(** X24. The value [angular_distance_deg] hands to [math.acos] lies in
    [[-1, 1]], whatever the coordinates and whatever [math.sin] and
    [math.cos] return. *)
Theorem acos_argument_in_domain (radians sin cos : Q -> Q) (ra1 dec1 ra2 dec2 : Q) :
  (-1 <= clamped_cosine radians sin cos ra1 dec1 ra2 dec2 <= 1)%Q.
Proof. unfold clamped_cosine. cbv zeta. apply clamp_bounds. Qed.

(** X25. [compute_slew_matrix] returns an n-by-n matrix whose diagonal is
    0 and whose entry [i][j] off the diagonal is the angular distance
    between the tasks [i] and [j] divided by the slew rate. *)
Theorem slew_matrix_entries (radians degrees sin cos acos : Q -> Q)
    (obs : list Observation) :
  let mat := compute_slew_matrix radians degrees sin cos acos obs in
  length mat = length obs /\
  forall i, i < length obs ->
    length (mat !!! i) = length obs /\
    (mat !!! i) !!! i = 0%Q /\
    forall j, j < length obs -> i <> j ->
      (mat !!! i) !!! j
        = (angular_distance_deg radians degrees sin cos acos
             (ra (obs !!! i)) (dec (obs !!! i)) (ra (obs !!! j)) (dec (obs !!! j))
           / SLEW_RATE_DEG_PER_SEC)%Q.
Proof.
  intros mat.
  destruct (compute_slew_matrix_spec radians degrees sin cos acos obs) as [Hl Hrows].
  split; [exact Hl|]. intros i Hi. destruct (Hrows i Hi) as [Hrl Hat].
  split; [exact Hrl|]. split.
  - subst mat. rewrite Hat by done. by rewrite decide_True.
  - intros j Hj Hij. subst mat. rewrite Hat by done. by rewrite decide_False.
Qed.

(** X26. The slew matrix is symmetric: the entries [i][j] and [j][i] are
    the same number. *)
Theorem slew_matrix_symmetric (radians degrees sin cos acos : Q -> Q)
    (obs : list Observation) (i j : nat) :
  i < length obs -> j < length obs ->
  (compute_slew_matrix radians degrees sin cos acos obs !!! i) !!! j
    = (compute_slew_matrix radians degrees sin cos acos obs !!! j) !!! i.
Proof.
  intros Hi Hj.
  destruct (compute_slew_matrix_spec radians degrees sin cos acos obs) as [_ Hrows].
  destruct (Hrows i Hi) as [_ ->]; [|done].
  destruct (Hrows j Hj) as [_ ->]; [|done].
  destruct (decide (i = j)) as [->|Hij].
  - by rewrite decide_True.
  - rewrite decide_False by done. unfold angular_distance_deg.
    by rewrite clamped_cosine_sym.
Qed.

Lemma slew_matrix_symmetric_witness :
  (compute_slew_matrix (fun x => x) (fun x => x) (fun x => x) (fun x => x)
     (fun x => x) three_tasks !!! 0) !!! 2
  = (compute_slew_matrix (fun x => x) (fun x => x) (fun x => x) (fun x => x)
       (fun x => x) three_tasks !!! 2) !!! 0.
Proof. apply slew_matrix_symmetric; simpl; lia. Defined.

Lemma scanned_window_lt (obs : list Observation) (top_k i idx : nat) :
  idx ∈ scanned_window obs top_k i -> idx < length obs.
Proof.
  unfold scanned_window. cbv zeta. intros H.
  apply (order_by_start_lt obs).
  eapply elem_of_sublist; [exact H|].
  etrans; [apply sublist_take|apply sublist_drop].
Qed.

(** X27. The matrix of [compute_slew_matrix] has an entry for every pair
    of tasks, so every [slew_matrix[i][idx]] that [ant_colony_schedule]
    reads of it exists: called with this matrix, the search raises no
    [IndexError], for every input and all parameters. *)
Theorem computed_matrix_has_entries (radians degrees sin cos acos : Q -> Q)
    (obs : list Observation) :
  let mat := compute_slew_matrix radians degrees sin cos acos obs in
  slew_covers (length obs) mat = true /\
  (forall top_k, slew_entries_read obs mat top_k) /\
  forall (pow : Q -> Q -> Q) (num_ants : nat) (alpha beta evap : Q)
         (iterations top_k : nat) (g : Rng),
    ant_colony_schedule pow obs mat num_ants alpha beta evap iterations top_k g
      <> Raises IndexError.
Proof.
  intros mat.
  pose proof (compute_slew_matrix_covers radians degrees sin cos acos obs) as Hcov.
  split; [exact Hcov|]. split.
  - intros top_k i idx Hi Hidx. unfold has_entry.
    apply (slew_covers_lookup (length obs)); [exact Hcov|done|].
    by eapply scanned_window_lt.
  - intros pow num_ants alpha beta evap iterations top_k g.
    destruct (schedule_total pow obs mat num_ants alpha beta evap iterations top_k g
                Hcov) as [sched ->].
    done.
Qed.

(** ** Loading the observations *)

Lemma omap_length_le {A B} (f : A -> option B) (l : list A) :
  length (omap f l) <= length l.
Proof.
  induction l as [|x l IH]; [done|]. cbn [omap list_omap].
  destruct (f x); cbn [length]; fold (omap f l) in *; lia.
Qed.

Section LoaderFacts.
Variable DateTime : Type.
Variable fromisoformat : string -> option DateTime.
Variable timestamp : DateTime -> option Q.
Variable float : string -> option Q.
Variable strip : string -> string.

Local Abbreviation load := (load_observations DateTime fromisoformat timestamp float strip).

Lemma load_row_spec r o :
  load_row DateTime fromisoformat timestamp float strip r = Some o ->
  (start o < end_ o)%Q /\ duration o = (end_ o - start o)%Q /\
  (0 <= weight o <= 1)%Q.
Proof.
  unfold load_row. cbv zeta.
  destruct (String.eqb _ _ || String.eqb _ _); [done|].
  destruct (parse_time DateTime fromisoformat
              (get_first r "sci_start_time" "start_time")) as [start_dt|];
    cbn [mbind option_bind]; [|done].
  destruct (parse_time DateTime fromisoformat
              (get_first r "sci_stop_time" "stop_time")) as [stop_dt|];
    cbn [mbind option_bind]; [|done].
  destruct (timestamp start_dt) as [start_ts|]; cbn [mbind option_bind]; [|done].
  destruct (timestamp stop_dt) as [stop_ts|]; cbn [mbind option_bind]; [|done].
  destruct (Qle_bool stop_ts start_ts) eqn:Ele; [done|].
  apply Qle_bool_false in Ele.
  destruct (float_or_zero float r "sci_ra" "ra") as [ra0|];
    cbn [mbind option_bind]; [|done].
  destruct (float_or_zero float r "sci_dec" "dec") as [dec0|];
    cbn [mbind option_bind]; [|done].
  intros [= <-]. cbn [start end_ duration weight].
  split; [done|]. split; [done|].
  set (pep := if String.eqb _ _ then _ else _).
  pose proof (pymax_ge_l 1 pep) as Hge.
  split.
  - apply Qle_shift_div_l; lra.
  - apply Qle_shift_div_r; lra.
Qed.

Lemma load_observations_spec reader :
  Forall (fun o => (start o < end_ o)%Q /\ duration o = (end_ o - start o)%Q /\
                   (0 <= weight o <= 1)%Q) (load reader).
Proof.
  apply Forall_forall. intros o Ho. unfold load_observations in Ho.
  apply list_elem_of_omap in Ho as (r & _ & Hr). by eapply load_row_spec.
Qed.

End LoaderFacts.

(** X28. Every observation [load_observations] returns ends after it
    starts, has the length of its interval as duration and a weight in
    [[0, 1]]: the loaded list has valid intervals, whatever the file holds
    and whatever the parsers return. *)
Theorem loaded_observations_valid (DateTime : Type)
    (fromisoformat : string -> option DateTime) (timestamp : DateTime -> option Q)
    (float : string -> option Q) (strip : string -> string)
    (reader : list (gmap string string)) :
  let rows := load_observations DateTime fromisoformat timestamp float strip reader in
  valid_intervals rows /\
  Forall (fun o => duration o = (end_ o - start o)%Q /\ (0 <= weight o <= 1)%Q) rows /\
  length rows <= length reader.
Proof.
  intros rows.
  pose proof (load_observations_spec DateTime fromisoformat timestamp float strip reader)
    as Hall.
  split; [|split].
  - eapply Forall_impl; [exact Hall|]. by intros o (? & _).
  - eapply Forall_impl; [exact Hall|]. by intros o (_ & ? & ?).
  - apply omap_length_le.
Qed.

(** ** The three schedulers on one input *)

Lemma greedy_feasible (obs : list Observation) (slew : option (list (list Q))) :
  valid_intervals obs ->
  greedy_schedule obs slew ⊆+ obs /\
  StronglySorted compatible (greedy_schedule obs slew).
Proof.
  intros Hvalid.
  destruct (greedy_schedule_spec obs slew) as (Hsub & _ & Hchain). split.
  - apply submseteq_sublist_l. eexists. split; [exact Hsub|].
    apply stable_sort_Permutation.
  - eapply StronglySorted_impl_elem; [|exact (Hchain Hvalid)].
    intros a b _ _ H. by left.
Qed.

Lemma aco_feasible (pow : Q -> Q -> Q) (obs : list Observation)
    (slew : list (list Q)) (num_ants : nat) (alpha beta evap : Q)
    (iterations top_k : nat) (g : Rng) (sched : list Observation) :
  valid_intervals obs ->
  ant_colony_schedule pow obs slew num_ants alpha beta evap iterations top_k g
    = Returns sched ->
  sched ⊆+ obs /\ StronglySorted compatible sched.
Proof.
  intros Hvalid Haco. unfold ant_colony_schedule in Haco.
  destruct (length obs =? 0) eqn:En.
  { injection Haco as <-. split; [apply submseteq_nil_l|constructor]. }
  apply Nat.eqb_neq in En.
  apply obind_Returns in Haco as (t & Ht & Haco).
  destruct (aco_run_best_schedule pow obs slew num_ants alpha beta evap
              iterations top_k g t ltac:(lia) Ht) as [Hbest|Hgood].
  { rewrite Hbest in Haco. injection Haco as <-.
    split; [apply submseteq_nil_l|constructor]. }
  assert (Hs : sched ≡ₚ tasks_at obs (best_schedule (trace_final t))).
  { destruct (best_schedule (trace_final t)) as [|b best] eqn:Eb;
      [by injection Haco as <-|].
    injection Haco as <-.
    exact (stable_sort_Permutation (fun x y => Qle_bool (start x) (start y))
             (tasks_at obs (b :: best))). }
  split.
  - rewrite Hs. apply tasks_at_submseteq; apply Hgood.
  - eapply (StronglySorted_Permutation compatible);
      [apply compatible_sym|symmetry; exact Hs|].
    by apply good_tour_non_overlapping.
Qed.

(** X29. Whenever [main] obtains its three schedules, each of them
    consists of observations that [load_observations] has loaded, each
    taken at most once, and is pairwise non-overlapping, whatever the file
    holds.  Here [random.sample] is taken to return [k] of the given items,
    and the fuel covers [MAX_ITEMS] rounds of the loop of the dynamic
    program. *)
Theorem main_schedules_feasible (radians degrees sin cos acos : Q -> Q)
    (DateTime : Type) (fromisoformat : string -> option DateTime)
    (timestamp : DateTime -> option Q) (float : string -> option Q)
    (strip : string -> string)
    (random_sample : list Observation -> nat -> Rng -> list Observation * Rng)
    (pow : Q -> Q -> Q) (fuel : nat) (reader : list (gmap string string)) (g : Rng)
    (greedy_res dynamic_res ant_res : list Observation) :
  (forall l k g, k <= length l ->
     (random_sample l k g).1 ⊆+ l /\ length (random_sample l k g).1 = k) ->
  MAX_ITEMS <= fuel ->
  main radians degrees sin cos acos DateTime fromisoformat timestamp float strip
    random_sample pow fuel reader g
    = Returns (greedy_res, dynamic_res, ant_res) ->
  Forall (fun sched =>
            sched ⊆+ load_observations DateTime fromisoformat timestamp float strip
                       reader /\
            non_overlapping sched)
    [greedy_res; dynamic_res; ant_res].
Proof.
  intros Hsample Hfuel. unfold main. cbv zeta.
  set (all_rows := load_observations DateTime fromisoformat timestamp float strip reader).
  assert (Hall : valid_intervals all_rows).
  { pose proof (load_observations_spec DateTime fromisoformat timestamp float strip
                  reader) as H.
    eapply Forall_impl; [exact H|]. by intros o (? & _). }
  destruct (sample_observations random_sample all_rows g) as [rows g1] eqn:Es.
  assert (Hrows : rows ⊆+ all_rows /\ length rows <= MAX_ITEMS).
  { unfold sample_observations in Es.
    destruct (length all_rows <=? MAX_ITEMS) eqn:El.
    - injection Es as <- <-. apply Nat.leb_le in El. done.
    - apply Nat.leb_gt in El.
      destruct (Hsample all_rows MAX_ITEMS g ltac:(lia)) as [Hsub Hlen].
      rewrite Es in Hsub, Hlen. simpl in Hsub, Hlen. split; [done|lia]. }
  destruct Hrows as [Hsub Hlen].
  assert (Hvalid : valid_intervals rows).
  { unfold valid_intervals in *. rewrite Forall_forall in Hall.
    apply Forall_forall. intros o Ho. apply Hall.
    by eapply elem_of_submseteq. }
  set (slew_matrix := compute_slew_matrix radians degrees sin cos acos rows).
  destruct (dp_schedule_spec pow rows Hvalid fuel ltac:(lia))
    as (chosen & Hdp & Hnd & Hlt & Hc & _).
  rewrite Hdp. cbn [obind]. intros Hret.
  apply obind_Returns in Hret as (ant & Haco & Hret).
  injection Hret as <- <- <-.
  destruct (greedy_feasible rows (Some slew_matrix) Hvalid) as [Hgs Hgc].
  destruct (aco_feasible pow rows slew_matrix 40 1 2 (3 # 10) 40 50 g1 ant
              Hvalid Haco) as [Has Hac].
  assert (Hds : tasks_at rows chosen ⊆+ rows) by by apply tasks_at_submseteq.
  repeat apply Forall_cons_2; [| | |constructor].
  - split; [by etrans|]. by apply non_overlapping_StronglySorted.
  - split; [by etrans|]. by apply non_overlapping_StronglySorted.
  - split; [by etrans|]. by apply non_overlapping_StronglySorted.
Qed.

Lemma main_schedules_feasible_witness :
  exists greedy_res dynamic_res ant_res,
    main (fun x => x) (fun x => x) (fun x => x) (fun x => x) (fun x => x)
      nat (fun s => Some (String.length s))
      (fun k => Some (inject_Z (Z.of_nat k)))
      (fun s => Some (inject_Z (Z.of_nat (String.length s)))) (fun s => s)
      (fun l k g => (take k l, g)) pow_int 1000
      [{["sci_start_time" := "a"; "sci_stop_time" := "bb"; "sci_pep_id" := "x"]};
       {["start_time" := "bb"; "stop_time" := "cccc"; "sci_pep_id" := "x"]};
       {["sci_start_time" := "a"; "sci_stop_time" := "ccc"; "sci_pep_id" := "xx"]};
       {["sci_start_time" := "ccc"; "sci_stop_time" := "a"]}] draws
      = Returns (greedy_res, dynamic_res, ant_res) /\
    length dynamic_res = 2 /\
    non_overlapping greedy_res /\ non_overlapping dynamic_res /\
    non_overlapping ant_res.
Proof.
  eexists _, _, _. split; [vm_compute; reflexivity|].
  split; [reflexivity|].
  match goal with
  | |- non_overlapping ?gr /\ non_overlapping ?dr /\ non_overlapping ?ar =>
      pose proof (main_schedules_feasible (fun x => x) (fun x => x) (fun x => x)
              (fun x => x) (fun x => x)
              nat (fun s => Some (String.length s))
              (fun k => Some (inject_Z (Z.of_nat k)))
              (fun s => Some (inject_Z (Z.of_nat (String.length s)))) (fun s => s)
              (fun l k g => (take k l, g)) pow_int 1000
              [{["sci_start_time" := "a"; "sci_stop_time" := "bb"; "sci_pep_id" := "x"]};
               {["start_time" := "bb"; "stop_time" := "cccc"; "sci_pep_id" := "x"]};
               {["sci_start_time" := "a"; "sci_stop_time" := "ccc";
                 "sci_pep_id" := "xx"]};
               {["sci_start_time" := "ccc"; "sci_stop_time" := "a"]}] draws gr dr ar)
        as Hall
  end.
  specialize (Hall
    ltac:(intros l k g Hk; simpl; split;
          [apply sublist_submseteq, sublist_take|rewrite length_take; lia])
    ltac:(unfold MAX_ITEMS; lia)
    ltac:(vm_compute; reflexivity)).
  apply Forall_cons in Hall as [[_ Hg] Hall].
  apply Forall_cons in Hall as [[_ Hd] Hall].
  apply Forall_cons in Hall as [[_ Ha] _].
  done.
Defined.

(** ** The deposit pass *)

Lemma deposit_edge_length (successors : list (list nat)) (deposit : Q)
    (pher : list (gmap nat Q)) (a b : nat) :
  length (deposit_edge successors deposit pher a b) = length pher.
Proof.
  unfold deposit_edge. destruct ((pher !!! a) !! b); [apply length_insert|].
  case_bool_decide; [apply length_insert|done].
Qed.

Lemma deposit_edge_lookup (successors : list (list nat)) (deposit : Q)
    (pher : list (gmap nat Q)) (a b x y : nat) :
  a < length pher -> b ∈ successors !!! a ->
  (deposit_edge successors deposit pher a b !!! x) !! y
    = if decide (x = a /\ y = b)
      then Some (default init_pher ((pher !!! a) !! b) + deposit)%Q
      else (pher !!! x) !! y.
Proof.
  intros Ha Hb.
  assert (Hins : forall v,
            (<[a := <[b := v]> (pher !!! a)]> pher !!! x) !! y
              = if decide (x = a /\ y = b) then Some v else (pher !!! x) !! y).
  { intros v. destruct (decide (x = a)) as [->|Hxa].
    - rewrite list_lookup_total_insert_eq by done.
      destruct (decide (y = b)) as [->|Hyb].
      + rewrite lookup_insert_eq. by rewrite decide_True.
      + rewrite lookup_insert_ne by done. by rewrite decide_False by (intros [_ ?]; done).
    - rewrite list_lookup_total_insert_ne by done.
      by rewrite decide_False by (intros [? _]; done). }
  unfold deposit_edge. destruct ((pher !!! a) !! b) as [v|] eqn:Ev.
  - apply Hins.
  - rewrite bool_decide_true by done. apply Hins.
Qed.

Lemma follows_edges_tail (successors : list (list nat)) (a : nat) (tour : list nat) :
  follows_edges successors (a :: tour) -> follows_edges successors tour.
Proof. intros H k x y Hx Hy. exact (H (S k) x y Hx Hy). Qed.

Lemma elem_of_zip_tail (a b : nat) (tour : list nat) :
  (a, b) ∈ zip tour (tail tour) -> a ∈ tour.
Proof. intros H. by apply elem_of_zip_l in H. Qed.

Lemma deposit_along_lookup (successors : list (list nat)) (deposit : Q)
    (tour : list nat) (pher : list (gmap nat Q)) (x y : nat) :
  NoDup tour -> follows_edges successors tour ->
  Forall (fun a => a < length pher) tour ->
  (deposit_along successors deposit tour pher !!! x) !! y
    = if decide ((x, y) ∈ zip tour (tail tour))
      then Some (default init_pher ((pher !!! x) !! y) + deposit)%Q
      else (pher !!! x) !! y.
Proof.
  revert pher. induction tour as [|a tour IH]; intros pher Hnd Hpath Hlt.
  { cbn [deposit_along].
    destruct (decide _) as [H|]; [by apply elem_of_nil in H|done]. }
  destruct tour as [|b tour].
  { cbn [deposit_along].
    destruct (decide _) as [H|]; [by apply elem_of_nil in H|done]. }
  change (deposit_along successors deposit (a :: b :: tour) pher)
    with (deposit_along successors deposit (b :: tour)
            (deposit_edge successors deposit pher a b)).
  change (zip (a :: b :: tour) (tail (a :: b :: tour)))
    with ((a, b) :: zip (b :: tour) (tail (b :: tour))).
  apply NoDup_cons in Hnd as [Ha Hnd].
  apply Forall_cons in Hlt as [Halt Hlt].
  pose proof (Hpath 0 a b eq_refl eq_refl) as Hab.
  rewrite IH; [|done|by eapply follows_edges_tail|].
  2: { eapply Forall_impl; [exact Hlt|]. intros z Hz. simpl in *.
       by rewrite deposit_edge_length. }
  rewrite (deposit_edge_lookup successors deposit pher a b x y Halt Hab).
  destruct (decide ((x, y) ∈ zip (b :: tour) (tail (b :: tour)))) as [Hin|Hnin].
  - assert (Hx : x ∈ b :: tour) by by eapply elem_of_zip_tail.
    rewrite decide_False by (intros [-> _]; done).
    rewrite decide_True by (by right). done.
  - destruct (decide (x = a /\ y = b)) as [[-> ->]|Hne].
    + rewrite decide_True by left. done.
    + rewrite decide_False; [done|].
      intros [Heq|Hin]%elem_of_cons; [|done].
      injection Heq as -> ->. by apply Hne.
Qed.

(** X30. The deposit pass adds [local_best_score / (1 + len(local_best))]
    to the trail of every edge of the iteration-best tour, starting from 1
    where evaporation removed the trail, and leaves every other trail as it
    is; the tour is one that follows candidate edges and repeats no task. *)
Theorem deposit_on_tour_edges (successors : list (list nat)) (lbs : Q)
    (tour : list nat) (pher : list (gmap nat Q)) (a b : nat) :
  tour <> [] -> NoDup tour -> follows_edges successors tour ->
  Forall (fun i => i < length pher) tour ->
  let deposit := (lbs / (1 + inject_Z (Z.of_nat (length tour))))%Q in
  (deposit_pheromone successors lbs (Some tour) pher !!! a) !! b
    = if decide ((a, b) ∈ zip tour (tail tour))
      then Some (default init_pher ((pher !!! a) !! b) + deposit)%Q
      else (pher !!! a) !! b.
Proof.
  intros Hne Hnd Hpath Hlt deposit. unfold deposit_pheromone.
  destruct tour as [|c tour]; [done|].
  by apply deposit_along_lookup.
Qed.

Lemma deposit_on_tour_edges_witness :
  (deposit_pheromone [[1; 2]; []; []] 10 (Some [0; 1]) [{[2 := 1%Q]}; ∅; ∅] !!! 0) !! 1
  = Some (1 + 10 / 3)%Q.
Proof.
  rewrite (deposit_on_tour_edges [[1; 2]; []; []] 10 [0; 1] [{[2 := 1%Q]}; ∅; ∅] 0 1).
  - reflexivity.
  - done.
  - compute_done.
  - intros [|k] x y Hx Hy; [|done]. injection Hx as <-. injection Hy as <-.
    compute_done.
  - compute_done.
Defined.

(* ===================================================================== *)
(** * Part IV: the dynamic program in rounded arithmetic                   *)
(* ===================================================================== *)

(** At exact addition the rounded program is the program of Part I. *)
Lemma dynamic_scheduler_exact_instance :
  dynamic_weighted_interval_scheduling_fl Qplus Qmult
    = dynamic_weighted_interval_scheduling.
Proof. reflexivity. Qed.

Lemma chain_value_snoc (add : Q -> Q -> Q) (ws : list Q) (P : list nat) (k : nat) :
  chain_value add ws (P ++ [k]) = add (ws !!! k) (chain_value add ws P).
Proof. unfold chain_value. by rewrite foldl_app. Qed.

Section RoundedDPCore.
Variable add : Q -> Q -> Q.
Variables (indices : list nat) (ws es ss : list Q) (n : nat).
Hypothesis len_ws : length ws = n.
Hypothesis len_es : length es = n.
Hypothesis len_ss : length ss = n.
Hypothesis es_asc : ascending es.
Hypothesis valid : forall k, k < n -> (ss !!! k < es !!! k)%Q.
Hypothesis add_zero : forall k, k < n -> (add (ws !!! k) 0 == ws !!! k)%Q.
Hypothesis add_mono : forall w x y, (x <= y)%Q -> (add w x <= add w y)%Q.

Local Abbreviation p := (dp_p es ss).
Local Abbreviation M := (dp_table_fl add ws p n).
Local Abbreviation rank k := (bisect_right es (ss !!! k)).
Local Abbreviation value := (chain_value add ws).

Lemma add_proper w x y : (x == y)%Q -> (add w x == add w y)%Q.
Proof.
  intros H. apply Qle_antisym; apply add_mono; lra.
Qed.

Lemma rank_le_fl k : k < n -> rank k <= k.
Proof. exact (rank_le ws es ss n len_ws len_es len_ss es_asc valid k). Qed.

Lemma p_lookup_fl k : k < n -> p !!! k = (Z.of_nat (rank k) - 1)%Z.
Proof. exact (p_lookup ws es ss n len_ws len_es len_ss k). Qed.

Lemma dp_incl_fl_eq (T : list Q) i :
  1 <= i <= n -> T !!! 0 = 0%Q ->
  (dp_incl_fl add ws p T i == add (ws !!! (i - 1)%nat) (T !!! rank (i - 1)%nat))%Q.
Proof.
  intros Hi H0. unfold dp_incl_fl. rewrite p_lookup_fl by lia.
  set (r := rank (i - 1)).
  destruct (0 <=? Z.of_nat r - 1)%Z eqn:E.
  - apply Z.leb_le in E.
    replace (Z.to_nat (Z.of_nat r - 1 + 1)) with r by lia.
    reflexivity.
  - apply Z.leb_gt in E.
    replace r with 0 by lia. rewrite H0. symmetry. apply add_zero. lia.
Qed.

Lemma dp_incl_fl_insert (T : list Q) i m v :
  1 <= i <= n -> i <= m ->
  dp_incl_fl add ws p (<[m := v]> T) i = dp_incl_fl add ws p T i.
Proof.
  intros Hi Hm. unfold dp_incl_fl. rewrite p_lookup_fl by lia.
  pose proof (rank_le_fl (i - 1) ltac:(lia)).
  set (r := rank (i - 1)) in *.
  destruct (0 <=? Z.of_nat r - 1)%Z; [|done].
  rewrite list_lookup_total_insert_ne; [done|lia].
Qed.

Lemma dp_fill_fl_inv k :
  k <= n ->
  let T := foldl (dp_fill_step_fl add ws p) (replicate (n + 1) 0%Q) (seq 1 k) in
  length T = n + 1 /\ T !!! 0 = 0%Q /\
  forall i, 1 <= i <= k -> dp_recurrence_fl add ws p T i.
Proof.
  induction k as [|k IH]; intros Hk; cbv zeta.
  - simpl. rewrite length_replicate. split; [done|]. split; [|lia].
    by rewrite lookup_total_replicate_2 by lia.
  - rewrite seq_S, foldl_app. cbn [foldl Nat.add]. cbv zeta in IH.
    destruct IH as (Hlen & H0 & Hrec); [lia|].
    set (T := foldl (dp_fill_step_fl add ws p) (replicate (n + 1) 0%Q) (seq 1 k)) in *.
    unfold dp_fill_step_fl. rewrite length_insert.
    split; [done|]. split.
    { rewrite list_lookup_total_insert_ne by lia. done. }
    intros i Hi. unfold dp_recurrence_fl.
    rewrite dp_incl_fl_insert by lia.
    rewrite (list_lookup_total_insert_ne _ _ (i - 1)) by lia.
    destruct (decide (i = S k)) as [->|Hne].
    + rewrite list_lookup_total_insert_eq by lia. done.
    + rewrite list_lookup_total_insert_ne by lia. apply Hrec. lia.
Qed.

Lemma M_fl_0 : M !!! 0 = 0%Q.
Proof. apply (dp_fill_fl_inv n). lia. Qed.

Lemma M_fl_recurrence i : 1 <= i <= n -> dp_recurrence_fl add ws p M i.
Proof. apply (dp_fill_fl_inv n). lia. Qed.

Lemma M_fl_step i :
  1 <= i <= n ->
  (M !!! (i - 1)%nat <= M !!! i)%Q /\ (dp_incl_fl add ws p M i <= M !!! i)%Q.
Proof.
  intros Hi. rewrite (M_fl_recurrence i Hi).
  destruct (Qltb (M !!! (i - 1)) (dp_incl_fl add ws p M i)) eqn:E.
  - apply Qltb_lt in E. lra.
  - apply Qltb_ge in E. lra.
Qed.

Lemma M_fl_mono i j : i <= j <= n -> (M !!! i <= M !!! j)%Q.
Proof.
  intros [Hij Hj]. induction Hij as [|j Hij IH]; [lra|].
  destruct (M_fl_step (S j)) as [H _]; [lia|].
  replace (S j - 1) with j in H by lia.
  specialize (IH ltac:(lia)). lra.
Qed.

(** No compatible chain of positions has a larger value than the table. *)
Lemma dp_upper_bound_fl k :
  k <= n -> forall S, sublist S (seq 0 k) ->
  StronglySorted
    (fun a b => (es !!! a <= ss !!! b)%Q \/ (es !!! b <= ss !!! a)%Q) S ->
  (value S <= M !!! k)%Q.
Proof.
  induction k as [k IH] using (well_founded_induction Nat.lt_wf_0). intros Hk S Hsub Hc.
  destruct k as [|k].
  - apply sublist_nil_r in Hsub as ->. rewrite M_fl_0. unfold chain_value. simpl. lra.
  - rewrite seq_S in Hsub. simpl in Hsub.
    apply sublist_app_r in Hsub as (S1 & S2 & -> & H1 & H2).
    apply StronglySorted_app in Hc as (Hcross & Hc1 & _).
    apply sublist_cons_r in H2 as [H2|(l' & -> & H2)];
      apply sublist_nil_r in H2 as ->.
    + rewrite app_nil_r.
      pose proof (IH k ltac:(lia) ltac:(lia) S1 H1 Hc1).
      pose proof (M_fl_mono k (S k) ltac:(lia)). lra.
    + assert (Hlt : Forall (fun y => y < rank k) S1).
      { apply Forall_forall. intros y Hy.
        assert (Hyk : y < k).
        { pose proof (elem_of_sublist _ _ _ Hy H1) as Hin.
          apply elem_of_seq in Hin. lia. }
        apply (rank_after ws es ss n len_ws len_es len_ss es_asc); [lia|].
        apply (pos_compat_before ws es ss n len_ws len_es len_ss es_asc valid);
          [done|lia|].
        apply Hcross; [done|]. left. }
      pose proof (rank_le_fl k ltac:(lia)) as Hr.
      pose proof (sublist_seq_bound S1 _ k H1 Hlt Hr) as Hsub.
      pose proof (IH (rank k) ltac:(lia) ltac:(lia) S1 Hsub Hc1) as Hle.
      rewrite chain_value_snoc.
      destruct (M_fl_step (S k)) as [_ Hincl]; [lia|].
      rewrite (dp_incl_fl_eq M (S k) ltac:(lia) M_fl_0) in Hincl.
      replace (S k - 1) with k in Hincl by lia.
      pose proof (add_mono (ws !!! k) _ _ Hle). lra.
Qed.

(** The reconstruction loop returns a chain whose value is the table's. *)
Lemma dp_reconstruct_fl_spec fuel i acc :
  i <= fuel -> i <= n ->
  exists P,
    dp_reconstruct_fl add fuel indices ws p M i acc
      = Returns (acc ++ ((fun y => indices !!! y) <$> P)) /\
    Forall (fun y => y < i) P /\
    (value (reverse P) == M !!! i)%Q /\
    StronglySorted (fun a b => b < a /\ (es !!! b <= ss !!! a)%Q) P.
Proof.
  revert i acc. induction fuel as [|fuel IH]; intros i acc Hf Hi.
  - replace i with 0 by lia. exists []. simpl. rewrite app_nil_r, M_fl_0.
    split; [done|]. split; [constructor|]. split; [reflexivity|constructor].
  - destruct i as [|i].
    { exists []. simpl. rewrite app_nil_r, M_fl_0.
      split; [done|]. split; [constructor|]. split; [reflexivity|constructor]. }
    cbn [dp_reconstruct_fl].
    replace (S i - 1) with i by lia.
    pose proof (M_fl_recurrence (S i) ltac:(lia)) as Hrec.
    unfold dp_recurrence_fl in Hrec. replace (S i - 1) with i in Hrec by lia.
    pose proof (dp_incl_fl_eq M (S i) ltac:(lia) M_fl_0) as Hincl.
    replace (S i - 1) with i in Hincl by lia.
    pose proof (rank_le_fl i ltac:(lia)) as Hr.
    destruct (Qle_bool (M !!! i) (dp_incl_fl add ws p M (S i))) eqn:E.
    + apply Qle_bool_iff in E.
      rewrite p_lookup_fl by lia.
      replace (Z.to_nat (Z.of_nat (rank i) - 1 + 1)) with (rank i) by lia.
      destruct (IH (rank i) (acc ++ [indices !!! i]))
        as (P & Hret & Hlt & Hsum & Hch); [lia|lia|].
      exists (i :: P). rewrite Hret, <- app_assoc. simpl.
      split; [done|]. split.
      { constructor; [lia|]. eapply Forall_impl; [exact Hlt|].
        intros y Hy. simpl in Hy. lia. }
      split.
      { rewrite reverse_cons, chain_value_snoc, (add_proper _ _ _ Hsum), Hrec.
        destruct (Qltb (M !!! i) (dp_incl_fl add ws p M (S i))) eqn:E'.
        - lra.
        - apply Qltb_ge in E'. lra. }
      constructor; [done|].
      eapply Forall_impl; [exact Hlt|]. intros y Hy. simpl in Hy.
      split; [lia|].
      apply (rank_before ws es ss n len_ws len_es len_ss es_asc valid); [lia|done].
    + apply Qle_bool_false in E.
      destruct (IH i acc) as (P & Hret & Hlt & Hsum & Hch); [lia|lia|].
      exists P. rewrite Hret. split; [done|]. split.
      { eapply Forall_impl; [exact Hlt|]. intros y Hy. simpl in Hy. lia. }
      split; [|done].
      rewrite Hsum, Hrec.
      destruct (Qltb (M !!! i) (dp_incl_fl add ws p M (S i))) eqn:E'.
      * apply Qltb_lt in E'. lra.
      * reflexivity.
Qed.

End RoundedDPCore.

Lemma StronglySorted_lt_seq (a k : nat) : StronglySorted lt (seq a k).
Proof.
  revert a. induction k as [|k IH]; intros a; [constructor|].
  simpl. constructor; [apply IH|].
  apply Forall_forall. intros x Hx. apply elem_of_seq in Hx. lia.
Qed.

Lemma StronglySorted_and {A} (R1 R2 : A -> A -> Prop) (l : list A) :
  StronglySorted R1 l -> StronglySorted R2 l ->
  StronglySorted (fun a b => R1 a b /\ R2 a b) l.
Proof.
  induction l as [|a l IH]; [constructor|].
  rewrite !StronglySorted_cons. intros [H1 Hs1] [H2 Hs2]. split; [|auto].
  rewrite Forall_forall in *. auto.
Qed.

Section RoundedDPSpec.
Variables add mul pow : Q -> Q -> Q.
Variable obs : list Observation.
Hypothesis obs_valid : valid_intervals obs.
Hypothesis add_zero :
  Forall (fun o => (add (transformed_weight_fl mul pow o) 0
                    == transformed_weight_fl mul pow o)%Q) obs.
Hypothesis add_mono : forall w x y, (x <= y)%Q -> (add w x <= add w y)%Q.

Local Abbreviation n := (length obs).
Local Abbreviation indices := (dp_indices obs).
Local Abbreviation es := ((fun i => (end_ <$> obs) !!! i) <$> indices).
Local Abbreviation ss := ((fun i => (start <$> obs) !!! i) <$> indices).
Local Abbreviation ws :=
  ((fun i => (transformed_weight_fl mul pow <$> obs) !!! i) <$> indices).
Local Abbreviation task k := (obs !!! (indices !!! k)).
Local Abbreviation before := (fun a b : Observation => (end_ a <= start b)%Q).

Lemma ws_fl_at k : k < n -> ws !!! k = transformed_weight_fl mul pow (task k).
Proof.
  intros Hk.
  rewrite (list_lookup_total_fmap _ indices k) by (by rewrite dp_indices_length).
  apply list_lookup_total_fmap. by apply dp_indices_lt.
Qed.

Lemma ws_add_zero k : k < n -> (add (ws !!! k) 0 == ws !!! k)%Q.
Proof.
  intros Hk. rewrite (ws_fl_at k Hk).
  rewrite Forall_forall in add_zero. apply add_zero.
  apply list_elem_of_lookup_total_2. by apply dp_indices_lt.
Qed.

Lemma accumulated_at (T : list nat) :
  Forall (fun y => y < n) T ->
  accumulated_total add mul pow (tasks_at obs ((fun y => indices !!! y) <$> T))
    = chain_value add ws T.
Proof.
  unfold accumulated_total, chain_value, tasks_at. generalize 0%Q.
  induction T as [|y T IH]; intros a HT; [done|].
  apply Forall_cons in HT as [Hy HT]. simpl.
  rewrite (ws_fl_at y Hy). by apply IH.
Qed.

Lemma dp_chosen_indices_fl_chain fuel :
  n <= fuel ->
  exists P,
    dp_chosen_indices_fl add mul pow fuel obs
      = Returns (reverse ((fun y => indices !!! y) <$> P)) /\
    Forall (fun y => y < n) P /\
    (chain_value add ws (reverse P) == dp_optimum_fl add mul pow obs)%Q /\
    StronglySorted (fun a b => b < a /\ (es !!! b <= ss !!! a)%Q) P.
Proof.
  intros Hf. unfold dp_chosen_indices_fl, dp_optimum_fl.
  destruct (dp_reconstruct_fl_spec add indices ws es ss n) with (fuel := fuel) (i := n)
    (acc := @nil nat) as (P & Hret & HP); try done.
  - by rewrite length_fmap, dp_indices_length.
  - by rewrite length_fmap, dp_indices_length.
  - by rewrite length_fmap, dp_indices_length.
  - apply es_ascending.
  - by apply ss_lt_es.
  - apply ws_add_zero.
  - exists P. rewrite Hret. simpl. done.
Qed.

(** A chain of input tasks is the list of the tasks at ascending sorted
    positions. *)
Lemma chain_positions (S : list Observation) :
  S ⊆+ obs -> StronglySorted before S ->
  exists T,
    sublist T (seq 0 n) /\ S = tasks_at obs ((fun y => indices !!! y) <$> T) /\
    StronglySorted
      (fun a b => (es !!! a <= ss !!! b)%Q \/ (es !!! b <= ss !!! a)%Q) T.
Proof.
  intros Hms Hchain.
  destruct (submseteq_tasks_at obs S Hms) as (idxs & Hnd & Hlt & Hp).
  assert (Hsub : idxs ⊆+ indices).
  { apply NoDup_submseteq; [done|]. intros x Hx.
    rewrite dp_indices_Permutation. apply elem_of_seq.
    rewrite Forall_forall in Hlt. specialize (Hlt x Hx). lia. }
  apply submseteq_sublist_r in Hsub as (S' & Hperm & Hsub).
  assert (Hsub' : sublist S' ((fun y => indices !!! y) <$> seq 0 n)).
  { pose proof (list_fmap_lookup_total_seq indices) as E.
    rewrite dp_indices_length in E. by rewrite E. }
  apply sublist_fmap_inv in Hsub' as (T & -> & HT).
  assert (HTlt : Forall (fun y => y < n) T).
  { apply Forall_forall. intros y Hy.
    pose proof (elem_of_sublist _ _ _ Hy HT) as Hin.
    apply elem_of_seq in Hin. lia. }
  assert (Hp' : S ≡ₚ tasks_at obs ((fun y => indices !!! y) <$> T)).
  { rewrite Hp. unfold tasks_at. by rewrite Hperm. }
  assert (Hc : StronglySorted
                 (fun a b => (es !!! a <= ss !!! b)%Q \/ (es !!! b <= ss !!! a)%Q) T).
  { assert (Hcs : StronglySorted compatible S).
    { eapply StronglySorted_impl_elem; [|exact Hchain]. intros a b _ _ H. by left. }
    apply (StronglySorted_Permutation compatible _ _ compatible_sym Hp') in Hcs.
    unfold tasks_at in Hcs. rewrite <- list_fmap_compose in Hcs.
    apply StronglySorted_fmap_inv in Hcs.
    eapply StronglySorted_impl_elem; [|exact Hcs].
    rewrite Forall_forall in HTlt.
    intros a b Ha Hb Hab. simpl in Hab.
    rewrite !es_at, !ss_at by auto. exact Hab. }
  exists T. split; [done|]. split; [|done].
  assert (Hvalid_in : forall x, x ∈ S -> (start x < end_ x)%Q).
  { intros x Hx. unfold valid_intervals in obs_valid.
    rewrite Forall_forall in obs_valid. apply obs_valid.
    by eapply elem_of_submseteq. }
  apply (StronglySorted_unique_strong before); [| |  |exact Hp'].
  - intros x1 x2 Hx1 Hx2 H12 H21.
    assert (Hx2' : x2 ∈ S) by by rewrite Hp'.
    pose proof (Hvalid_in x1 Hx1). pose proof (Hvalid_in x2 Hx2'). simpl in *. lra.
  - done.
  - unfold tasks_at. rewrite <- list_fmap_compose.
    apply (StronglySorted_fmap _ (fun a b => before (task a) (task b)) before);
      [done|].
    pose proof (StronglySorted_sublist lt T _ HT (StronglySorted_lt_seq 0 n)) as Hasc.
    eapply StronglySorted_impl_elem; [|exact (StronglySorted_and _ _ _ Hasc Hc)].
    rewrite Forall_forall in HTlt.
    intros a b Ha Hb [Hab Hcomp]. simpl.
    rewrite <- es_at, <- ss_at by auto.
    apply (pos_compat_before ws es ss n); try done.
    + by rewrite length_fmap, dp_indices_length.
    + by rewrite length_fmap, dp_indices_length.
    + by rewrite length_fmap, dp_indices_length.
    + apply es_ascending.
    + by apply ss_lt_es.
    + auto.
Qed.

(** The schedule of the rounded program is a chain of input tasks whose
    accumulated total is the last entry of the table, and no chain of input
    tasks accumulates more. *)
Lemma dp_fl_schedule_spec (fuel : nat) :
  n <= fuel ->
  exists sched,
    dynamic_weighted_interval_scheduling_fl add mul pow fuel obs = Returns sched /\
    sched ⊆+ obs /\ StronglySorted before sched /\
    (accumulated_total add mul pow sched == dp_optimum_fl add mul pow obs)%Q /\
    forall S, S ⊆+ obs -> StronglySorted before S ->
      (accumulated_total add mul pow S <= dp_optimum_fl add mul pow obs)%Q.
Proof.
  intros Hf.
  destruct (dp_chosen_indices_fl_chain fuel Hf) as (P & Hret & HP & Hsum & Hch).
  exists (tasks_at obs (reverse ((fun y => indices !!! y) <$> P))).
  split.
  { unfold dynamic_weighted_interval_scheduling_fl.
    destruct (n =? 0) eqn:En.
    - apply Nat.eqb_eq in En. destruct P as [|y P]; [done|].
      apply Forall_cons in HP as [Hy _]. lia.
    - by rewrite Hret. }
  split.
  { apply tasks_at_submseteq.
    - rewrite reverse_Permutation. by apply chain_NoDup.
    - apply Forall_reverse, Forall_fmap. eapply Forall_impl; [exact HP|].
      intros y Hy. simpl in *. by apply dp_indices_lt. }
  split.
  { unfold tasks_at. rewrite fmap_reverse, <- list_fmap_compose.
    apply (StronglySorted_reverse_flip (fun a b => (end_ b <= start a)%Q)).
    apply (StronglySorted_fmap _
             (fun a b => (end_ (task b) <= start (task a))%Q)); [done|].
    eapply StronglySorted_impl_elem; [|exact Hch].
    rewrite Forall_forall in HP.
    intros a b Ha Hb [_ Hle]. rewrite es_at, ss_at in Hle by auto. exact Hle. }
  split.
  { rewrite <- fmap_reverse, accumulated_at by by apply Forall_reverse. exact Hsum. }
  intros S Hms Hchain.
  destruct (chain_positions S Hms Hchain) as (T & HT & -> & Hc).
  assert (HTlt : Forall (fun y => y < n) T).
  { apply Forall_forall. intros y Hy.
    pose proof (elem_of_sublist _ _ _ Hy HT) as Hin.
    apply elem_of_seq in Hin. lia. }
  rewrite accumulated_at by done. unfold dp_optimum_fl.
  apply (dp_upper_bound_fl add ws es ss n); try done.
  - by rewrite length_fmap, dp_indices_length.
  - by rewrite length_fmap, dp_indices_length.
  - by rewrite length_fmap, dp_indices_length.
  - apply es_ascending.
  - by apply ss_lt_es.
  - apply ws_add_zero.
Qed.

End RoundedDPSpec.

(** ** The addition of doubles is monotone *)

Lemma Qfloor_bounds (q : Q) : (inject_Z (Qfloor q) <= q < inject_Z (Qfloor q + 1))%Q.
Proof. split; [apply Qfloor_le|apply Qlt_floor]. Qed.

Lemma round_half_even_range (q : Q) :
  (Qfloor q <= round_half_even q <= Qfloor q + 1)%Z.
Proof.
  unfold round_half_even.
  destruct (Qltb _ _); [lia|]. destruct (Qltb _ _); [lia|].
  destruct (Z.even _); lia.
Qed.

Lemma round_half_even_inject (z : Z) : round_half_even (inject_Z z) = z.
Proof.
  unfold round_half_even. rewrite Qfloor_Z.
  assert (H : Qltb (inject_Z z - inject_Z z) (1 # 2) = true).
  { apply Qltb_lt. lra. }
  by rewrite H.
Qed.

Lemma round_half_even_mono (x y : Q) :
  (x <= y)%Q -> (round_half_even x <= round_half_even y)%Z.
Proof.
  intros Hxy. pose proof (Qfloor_resp_le x y Hxy) as Hf.
  pose proof (round_half_even_range x) as Hx.
  pose proof (round_half_even_range y) as Hy.
  destruct (decide (Qfloor x = Qfloor y)) as [E|Hne]; [|lia].
  unfold round_half_even. rewrite <- E.
  set (f := Qfloor x) in *.
  destruct (Qltb (x - inject_Z f) (1 # 2)) eqn:E1.
  - destruct (Qltb (y - inject_Z f) (1 # 2)); [lia|].
    destruct (Qltb (1 # 2) (y - inject_Z f)); [lia|]. destruct (Z.even f); lia.
  - apply Qltb_ge in E1.
    destruct (Qltb (y - inject_Z f) (1 # 2)) eqn:E2.
    { apply Qltb_lt in E2. lra. }
    destruct (Qltb (1 # 2) (x - inject_Z f)) eqn:E3.
    + apply Qltb_lt in E3.
      destruct (Qltb (1 # 2) (y - inject_Z f)) eqn:E4; [lia|].
      apply Qltb_ge in E4. lra.
    + destruct (Qltb (1 # 2) (y - inject_Z f)); destruct (Z.even f); lia.
Qed.

Lemma two_power_pos (k : Z) : (0 < 2 ^ k)%Q.
Proof. apply Qpower_0_lt. reflexivity. Qed.

Lemma two_power_succ (k : Z) : (2 ^ (k + 1) == 2 * 2 ^ k)%Q.
Proof. rewrite Qpower_plus by done. rewrite Qpower_1_r. lra. Qed.

Lemma log2_bounds_Q (a : Z) :
  (0 < a)%Z ->
  (2 ^ Z.log2 a <= inject_Z a < 2 * 2 ^ Z.log2 a)%Q.
Proof.
  intros Ha. destruct (Z.log2_spec a Ha) as [H1 H2].
  pose proof (Z.log2_nonneg a) as Hn.
  rewrite <- two_power_succ.
  change 2%Q with (inject_Z 2).
  rewrite <- !Zpower_Qpower by lia.
  rewrite <- Z.add_1_r in H2.
  split; [by rewrite <- Zle_Qle|]. by rewrite <- Zlt_Qlt.
Qed.

Lemma binade_spec (q : Q) :
  (0 < q)%Q -> (2 ^ binade q <= q < 2 ^ (binade q + 1))%Q.
Proof.
  intros Hq. destruct q as [n d].
  assert (Hn : (0 < n)%Z).
  { unfold Qlt in Hq. simpl in Hq. lia. }
  unfold binade. cbn [Qnum Qden].
  set (ln := Z.log2 n). set (ld := Z.log2 (Z.pos d)).
  pose proof (log2_bounds_Q n Hn) as HA. fold ln in HA.
  pose proof (log2_bounds_Q (Z.pos d) ltac:(lia)) as HB. fold ld in HB.
  assert (HK : (2 ^ (ln - ld) * 2 ^ ld == 2 ^ ln)%Q).
  { rewrite <- Qpower_plus by done. by replace (ln - ld + ld)%Z with ln by lia. }
  assert (HK' : (2 * 2 ^ (ln - ld - 1) == 2 ^ (ln - ld))%Q).
  { rewrite <- two_power_succ. by replace (ln - ld - 1 + 1)%Z with (ln - ld)%Z by lia. }
  pose proof (two_power_pos (ln - ld)) as HKpos.
  pose proof (two_power_pos ld) as HBpos.
  assert (Hqd : (n # d == inject_Z n / inject_Z (Z.pos d))%Q) by apply Qmake_Qdiv.
  assert (HD : (0 < inject_Z (Z.pos d))%Q).
  { change 0%Q with (inject_Z 0). rewrite <- Zlt_Qlt. lia. }
  set (K := (2 ^ (ln - ld))%Q) in *. set (K' := (2 ^ (ln - ld - 1))%Q) in *.
  set (A := (2 ^ ln)%Q) in *. set (B := (2 ^ ld)%Q) in *.
  set (N := inject_Z n) in *. set (D := inject_Z (Z.pos d)) in *.
  destruct (Qle_bool K (n # d)) eqn:E.
  - apply Qle_bool_iff in E. split; [exact E|].
    rewrite two_power_succ. fold K. rewrite Hqd.
    apply Qlt_shift_div_r; [done|]. nra.
  - apply Qle_bool_false in E.
    replace (ln - ld - 1 + 1)%Z with (ln - ld)%Z by lia. fold K. fold K'.
    split; [|exact E]. rewrite Hqd.
    apply Qle_shift_div_l; [done|]. nra.
Qed.

Lemma binade_mono (x y : Q) : (0 < x)%Q -> (x <= y)%Q -> (binade x <= binade y)%Z.
Proof.
  intros Hx Hxy.
  destruct (binade_spec x Hx) as [H1 _].
  destruct (binade_spec y ltac:(lra)) as [_ H2].
  assert (H : (2 ^ binade x < 2 ^ (binade y + 1))%Q) by lra.
  apply Qpower_lt_compat_l_inv in H; [lia|reflexivity].
Qed.

Lemma round_magnitude_range (a : Q) :
  (0 < a)%Q ->
  (2 ^ binade a <= round_magnitude a <= 2 ^ (binade a + 1))%Q.
Proof.
  intros Ha. destruct (binade_spec a Ha) as [H1 H2].
  unfold round_magnitude. cbv zeta.
  set (e := binade a) in *. set (s := (2 ^ (52 - e))%Q).
  pose proof (two_power_pos (52 - e)) as Hs. fold s in Hs.
  assert (Hlo : (2 ^ e * s == inject_Z (2 ^ 52))%Q).
  { unfold s. rewrite <- Qpower_plus by done.
    replace (e + (52 - e))%Z with 52%Z by lia. reflexivity. }
  assert (Hhi : (2 ^ (e + 1) * s == inject_Z (2 ^ 53))%Q).
  { unfold s. rewrite <- Qpower_plus by done.
    replace (e + 1 + (52 - e))%Z with 53%Z by lia. reflexivity. }
  assert (Hm1 : (2 ^ 52 <= round_half_even (a * s))%Z).
  { rewrite <- (round_half_even_inject (2 ^ 52)).
    apply round_half_even_mono. rewrite <- Hlo. nra. }
  assert (Hm2 : (round_half_even (a * s) <= 2 ^ 53)%Z).
  { rewrite <- (round_half_even_inject (2 ^ 53)).
    apply round_half_even_mono. rewrite <- Hhi. nra. }
  rewrite Zle_Qle in Hm1, Hm2. rewrite <- Hlo in Hm1. rewrite <- Hhi in Hm2.
  split.
  - apply Qle_shift_div_l; [done|exact Hm1].
  - apply Qle_shift_div_r; [done|exact Hm2].
Qed.

Lemma round_magnitude_mono (x y : Q) :
  (0 < x)%Q -> (x <= y)%Q -> (round_magnitude x <= round_magnitude y)%Q.
Proof.
  intros Hx Hxy. pose proof (binade_mono x y Hx Hxy) as He.
  destruct (decide (binade x = binade y)) as [E|Hne].
  - unfold round_magnitude. cbv zeta. rewrite E.
    set (s := (2 ^ (52 - binade y))%Q).
    pose proof (two_power_pos (52 - binade y)) as Hs. fold s in Hs.
    apply Qle_shift_div_l; [done|].
    unfold Qdiv. rewrite <- Qmult_assoc, (Qmult_comm (/ s)), Qmult_inv_r by lra.
    rewrite Qmult_1_r. rewrite <- Zle_Qle. apply round_half_even_mono. nra.
  - destruct (round_magnitude_range x Hx) as [_ H1].
    destruct (round_magnitude_range y ltac:(lra)) as [H2 _].
    assert (H : (2 ^ (binade x + 1) <= 2 ^ binade y)%Q).
    { apply Qpower_le_compat_l; [lia|]. by apply Qle_bool_iff. }
    lra.
Qed.

Lemma round_magnitude_pos (a : Q) : (0 < a)%Q -> (0 < round_magnitude a)%Q.
Proof.
  intros Ha. destruct (round_magnitude_range a Ha) as [H _].
  pose proof (two_power_pos (binade a)). lra.
Qed.

Lemma round_to_double_pos (q : Q) :
  (0 < q)%Q -> round_to_double q = round_magnitude (Qabs q).
Proof.
  intros Hq. unfold round_to_double.
  destruct (Qeq_bool q 0) eqn:E; [apply Qeq_bool_iff in E; lra|].
  destruct (Qltb q 0) eqn:E'; [apply Qltb_lt in E'; lra|done].
Qed.

Lemma round_to_double_neg (q : Q) :
  (q < 0)%Q -> round_to_double q = (- round_magnitude (Qabs q))%Q.
Proof.
  intros Hq. unfold round_to_double.
  destruct (Qeq_bool q 0) eqn:E; [apply Qeq_bool_iff in E; lra|].
  destruct (Qltb q 0) eqn:E'; [done|apply Qltb_ge in E'; lra].
Qed.

Lemma round_to_double_zero (q : Q) : (q == 0)%Q -> round_to_double q = 0%Q.
Proof.
  intros Hq. unfold round_to_double. apply Qeq_bool_iff in Hq. by rewrite Hq.
Qed.

Lemma round_to_double_mono (x y : Q) :
  (x <= y)%Q -> (round_to_double x <= round_to_double y)%Q.
Proof.
  intros Hxy.
  destruct (Qlt_le_dec 0 x) as [Hx|Hx].
  - rewrite (round_to_double_pos x Hx), (round_to_double_pos y) by lra.
    apply round_magnitude_mono.
    + rewrite Qabs_pos; lra.
    + rewrite !Qabs_pos; lra.
  - destruct (Qlt_le_dec x 0) as [Hx'|Hx'].
    + rewrite (round_to_double_neg x Hx').
      assert (Hx0 : (0 < round_magnitude (Qabs x))%Q).
      { apply round_magnitude_pos. rewrite Qabs_neg; lra. }
      destruct (Qlt_le_dec y 0) as [Hy|Hy].
      * rewrite (round_to_double_neg y Hy).
        assert (H : (round_magnitude (Qabs y) <= round_magnitude (Qabs x))%Q).
        { apply round_magnitude_mono.
          - rewrite Qabs_neg; lra.
          - rewrite !Qabs_neg; lra. }
        lra.
      * destruct (Qlt_le_dec 0 y) as [Hy'|Hy'].
        -- rewrite (round_to_double_pos y Hy').
           assert (Hy0 : (0 < round_magnitude (Qabs y))%Q).
           { apply round_magnitude_pos. rewrite Qabs_pos; lra. }
           lra.
        -- rewrite (round_to_double_zero y) by lra. lra.
    + rewrite (round_to_double_zero x) by lra.
      destruct (Qlt_le_dec 0 y) as [Hy'|Hy'].
      * rewrite (round_to_double_pos y Hy').
        assert (Hy0 : (0 < round_magnitude (Qabs y))%Q).
        { apply round_magnitude_pos. rewrite Qabs_pos; lra. }
        lra.
      * rewrite (round_to_double_zero y) by lra. lra.
Qed.

Lemma double_add_mono (w x y : Q) : (x <= y)%Q -> (double_add w x <= double_add w y)%Q.
Proof. intros H. apply round_to_double_mono. lra. Qed.

(** ** Optimality in rounded arithmetic *)

Lemma sorted_by_key_sorted {A} (key : A -> Q) (l : list A) :
  StronglySorted (fun a b => (key a <= key b)%Q) (sorted_by_key key l).
Proof.
  eapply StronglySorted_impl_elem;
    [|apply (stable_sort_sorted (fun x y => Qle_bool (key x) (key y)))].
  - intros a b _ _ H. by apply Qle_bool_iff.
  - intros x y H. apply Qle_bool_false in H. apply Qle_bool_iff. lra.
  - intros x y z H1 H2. apply Qle_bool_iff in H1, H2. apply Qle_bool_iff. lra.
Qed.

(** A non-overlapping set of valid intervals, listed by start time, is a
    chain in time. *)
Lemma chronological_chain (obs S : list Observation) :
  valid_intervals obs -> S ⊆+ obs -> non_overlapping S ->
  sorted_by_key start S ⊆+ obs /\
  StronglySorted (fun a b => (end_ a <= start b)%Q) (sorted_by_key start S).
Proof.
  intros Hvalid Hms Hno.
  assert (Hp : sorted_by_key start S ≡ₚ S) by apply stable_sort_Permutation.
  split; [by rewrite Hp|].
  apply non_overlapping_StronglySorted in Hno.
  apply (StronglySorted_Permutation compatible _ _ compatible_sym (symmetry Hp)) in Hno.
  eapply StronglySorted_impl_elem;
    [|exact (StronglySorted_and _ _ _ (sorted_by_key_sorted start S) Hno)].
  intros a b _ Hb [Hab [H|H]]; [done|].
  assert (Hv : (start b < end_ b)%Q).
  { unfold valid_intervals in Hvalid. rewrite Forall_forall in Hvalid.
    apply Hvalid. eapply elem_of_submseteq; [|exact Hms]. by rewrite <- Hp. }
  simpl in *. lra.
Qed.

(** C1, as the specification states it, fails on doubles.  The three tasks
    have valid intervals and weights 2^53, 1 and 2^53; the first two follow
    each other and together weigh 2^53 + 1, which brute force finds.  In
    the table, [1.0 + 2^53] rounds to [2^53], and the program returns the
    third task alone, of weight 2^53. *)
Lemma dp_rounding_loses_optimality :
  valid_intervals rounding_tasks /\
  length rounding_tasks <= 20 /\
  dynamic_weighted_interval_scheduling_fl double_add double_mul pow_int 3 rounding_tasks
    = Returns [interval_task 0 2 1 9007199254740992] /\
  ~ (total_transformed pow_int [interval_task 0 2 1 9007199254740992]
     == brute_force_best pow_int rounding_tasks)%Q.
Proof.
  split; [unfold valid_intervals, rounding_tasks; repeat constructor|].
  split; [simpl; lia|].
  split; [vm_compute; reflexivity|].
  intros H. vm_compute in H. discriminate.
Qed.

(** C1, amended.  For every input whose intervals all satisfy end > start,
    the schedule [dynamic_weighted_interval_scheduling] returns is optimal
    in the arithmetic of the program: it is a chain in time of input
    tasks, and no pairwise non-overlapping subset of the input, its
    transformed weights added in chronological order with the rounded
    addition, has a larger total.  This holds for every multiplication and
    for every addition that is monotone in its second argument and leaves
    a transformed weight unchanged when 0 is added; the operations of
    doubles are such. *)
Theorem dp_schedule_optimal_rounded (add mul pow : Q -> Q -> Q) (obs : list Observation)
    (fuel : nat) :
  (forall w x y, (x <= y)%Q -> (add w x <= add w y)%Q) ->
  Forall (fun o => (add (transformed_weight_fl mul pow o) 0
                    == transformed_weight_fl mul pow o)%Q) obs ->
  valid_intervals obs -> length obs <= fuel ->
  exists sched,
    dynamic_weighted_interval_scheduling_fl add mul pow fuel obs = Returns sched /\
    sched ⊆+ obs /\
    StronglySorted (fun a b => (end_ a <= start b)%Q) sched /\
    forall S, S ⊆+ obs -> non_overlapping S ->
      (accumulated_total add mul pow (sorted_by_key start S)
       <= accumulated_total add mul pow sched)%Q.
Proof.
  intros Hmono Hzero Hvalid Hf.
  destruct (dp_fl_schedule_spec add mul pow obs Hvalid Hzero Hmono fuel Hf)
    as (sched & Hret & Hms & Hchain & Htot & Hub).
  exists sched. split; [done|]. split; [done|]. split; [done|].
  intros S HS Hno. rewrite Htot.
  destruct (chronological_chain obs S Hvalid HS Hno) as [HS' Hc].
  by apply Hub.
Qed.

Lemma dp_schedule_optimal_rounded_witness :
  exists sched,
    dynamic_weighted_interval_scheduling_fl double_add double_mul pow_int 3 rounding_tasks
      = Returns sched /\
    (accumulated_total double_add double_mul pow_int
       (sorted_by_key start
          [interval_task 1 2 1 1; interval_task 0 1 1 9007199254740992])
     <= accumulated_total double_add double_mul pow_int sched)%Q.
Proof.
  destruct (dp_schedule_optimal_rounded double_add double_mul pow_int rounding_tasks 3)
    as (sched & Hret & _ & _ & Hub).
  - apply double_add_mono.
  - unfold rounding_tasks. repeat constructor; by vm_compute.
  - unfold valid_intervals, rounding_tasks. repeat constructor.
  - simpl. lia.
  - exists sched. split; [exact Hret|]. apply Hub.
    + unfold rounding_tasks.
      etrans; [apply submseteq_swap|].
      apply submseteq_skip, submseteq_skip, submseteq_nil_l.
    + apply non_overlapping_StronglySorted.
      apply StronglySorted_cons. split; [|repeat constructor].
      apply Forall_singleton. right. by vm_compute.
Defined.

Lemma aco_schedule_chain (pow : Q -> Q -> Q) (obs : list Observation)
    (slew : list (list Q)) (num_ants : nat) (alpha beta evap : Q)
    (iterations top_k : nat) (g : Rng) (sched : list Observation) :
  valid_intervals obs ->
  ant_colony_schedule pow obs slew num_ants alpha beta evap iterations top_k g
    = Returns sched ->
  sched ⊆+ obs /\ StronglySorted (fun a b => (end_ a <= start b)%Q) sched.
Proof.
  intros Hvalid Haco.
  destruct (aco_feasible pow obs slew num_ants alpha beta evap iterations top_k g
              sched Hvalid Haco) as [Hms Hc].
  split; [done|].
  assert (Hs : StronglySorted (fun a b => (start a <= start b)%Q) sched).
  { unfold ant_colony_schedule in Haco.
    destruct (length obs =? 0).
    { injection Haco as <-. apply SSorted_nil. }
    apply obind_Returns in Haco as (t & _ & Haco).
    destruct (best_schedule (trace_final t)) as [|b best].
    - injection Haco as <-. apply SSorted_nil.
    - injection Haco as <-.
      exact (sorted_by_key_sorted start (tasks_at obs (b :: best))). }
  eapply StronglySorted_impl_elem; [|exact (StronglySorted_and _ _ _ Hs Hc)].
  intros a b _ Hb [Hab [H|H]]; [done|].
  assert (Hv : (start b < end_ b)%Q).
  { unfold valid_intervals in Hvalid. rewrite Forall_forall in Hvalid.
    apply Hvalid. by eapply elem_of_submseteq. }
  simpl in *. lra.
Qed.

(** X8. With valid intervals, the greedy schedule does not beat the
    schedule of the dynamic program in the arithmetic of the program: its
    transformed weights, added in chronological order with the rounded
    addition, total no more than those of the dynamic program's schedule. *)
Theorem dp_dominates_greedy (add mul pow : Q -> Q -> Q) (obs : list Observation)
    (fuel : nat) (slew : option (list (list Q))) :
  (forall w x y, (x <= y)%Q -> (add w x <= add w y)%Q) ->
  Forall (fun o => (add (transformed_weight_fl mul pow o) 0
                    == transformed_weight_fl mul pow o)%Q) obs ->
  valid_intervals obs -> length obs <= fuel ->
  exists sched,
    dynamic_weighted_interval_scheduling_fl add mul pow fuel obs = Returns sched /\
    (accumulated_total add mul pow (sorted_by_key start (greedy_schedule obs slew))
     <= accumulated_total add mul pow sched)%Q.
Proof.
  intros Hmono Hzero Hvalid Hf.
  destruct (dp_fl_schedule_spec add mul pow obs Hvalid Hzero Hmono fuel Hf)
    as (sched & Hret & _ & _ & Htot & Hub).
  exists sched. split; [done|]. rewrite Htot.
  destruct (greedy_feasible obs slew Hvalid) as [Hms Hc].
  apply non_overlapping_StronglySorted in Hc.
  destruct (chronological_chain obs _ Hvalid Hms Hc) as [HS' Hc'].
  by apply Hub.
Qed.

Lemma dp_dominates_greedy_witness :
  exists sched,
    dynamic_weighted_interval_scheduling_fl double_add double_mul pow_int 3 rounding_tasks
      = Returns sched /\
    (accumulated_total double_add double_mul pow_int
       (sorted_by_key start (greedy_schedule rounding_tasks None))
     <= accumulated_total double_add double_mul pow_int sched)%Q.
Proof.
  apply (dp_dominates_greedy double_add double_mul pow_int rounding_tasks 3 None).
  - apply double_add_mono.
  - unfold rounding_tasks. repeat constructor; by vm_compute.
  - unfold valid_intervals, rounding_tasks. repeat constructor.
  - simpl. lia.
Defined.

(** X9. With valid intervals, no schedule that [ant_colony_schedule]
    returns beats the schedule of the dynamic program in the arithmetic of
    the program: its transformed weights, added in the order of the
    schedule with the rounded addition, total no more than those of the
    dynamic program's schedule. *)
Theorem dp_dominates_aco (add mul pow : Q -> Q -> Q) (obs : list Observation)
    (fuel : nat) (slew : list (list Q)) (num_ants : nat) (alpha beta evap : Q)
    (iterations top_k : nat) (g : Rng) (aco_sched : list Observation) :
  (forall w x y, (x <= y)%Q -> (add w x <= add w y)%Q) ->
  Forall (fun o => (add (transformed_weight_fl mul pow o) 0
                    == transformed_weight_fl mul pow o)%Q) obs ->
  valid_intervals obs -> length obs <= fuel ->
  ant_colony_schedule pow obs slew num_ants alpha beta evap iterations top_k g
    = Returns aco_sched ->
  exists sched,
    dynamic_weighted_interval_scheduling_fl add mul pow fuel obs = Returns sched /\
    (accumulated_total add mul pow aco_sched <= accumulated_total add mul pow sched)%Q.
Proof.
  intros Hmono Hzero Hvalid Hf Haco.
  destruct (dp_fl_schedule_spec add mul pow obs Hvalid Hzero Hmono fuel Hf)
    as (sched & Hret & _ & _ & Htot & Hub).
  exists sched. split; [done|]. rewrite Htot.
  destruct (aco_schedule_chain pow obs slew num_ants alpha beta evap iterations top_k
              g aco_sched Hvalid Haco) as [Hms Hc].
  by apply Hub.
Qed.

Lemma dp_dominates_aco_witness :
  exists sched,
    dynamic_weighted_interval_scheduling_fl double_add double_mul pow_int 3 rounding_tasks
      = Returns sched /\
    (accumulated_total double_add double_mul pow_int
       [interval_task 0 1 1 9007199254740992; interval_task 1 2 1 1]
     <= accumulated_total double_add double_mul pow_int sched)%Q.
Proof.
  apply (dp_dominates_aco double_add double_mul pow_int rounding_tasks 3 slew3 2 1 2 (3 # 10)
           2 50 draws).
  - apply double_add_mono.
  - unfold rounding_tasks. repeat constructor; by vm_compute.
  - unfold valid_intervals, rounding_tasks. repeat constructor.
  - simpl. lia.
  - vm_compute. reflexivity.
Defined.

(** ** Invalid intervals are not rejected *)

Lemma aco_schedule_indices (pow : Q -> Q -> Q) (obs : list Observation)
    (slew : list (list Q)) (num_ants : nat) (alpha beta evap : Q)
    (iterations top_k : nat) (g : Rng) (sched : list Observation) :
  ant_colony_schedule pow obs slew num_ants alpha beta evap iterations top_k g
    = Returns sched ->
  exists idxs, NoDup idxs /\ Forall (fun i => i < length obs) idxs /\
               sched ≡ₚ tasks_at obs idxs.
Proof.
  intros Haco. unfold ant_colony_schedule in Haco.
  destruct (length obs =? 0) eqn:En.
  { injection Haco as <-. exists []. repeat split; constructor. }
  apply Nat.eqb_neq in En.
  apply obind_Returns in Haco as (t & Ht & Haco).
  destruct (aco_run_best_schedule pow obs slew num_ants alpha beta evap
              iterations top_k g t ltac:(lia) Ht) as [Hbest|Hgood].
  { rewrite Hbest in Haco. injection Haco as <-.
    exists []. repeat split; constructor. }
  destruct (best_schedule (trace_final t)) as [|b best] eqn:Eb.
  { injection Haco as <-. exists []. repeat split; constructor. }
  injection Haco as <-. exists (b :: best).
  split; [apply Hgood|]. split; [apply Hgood|].
  exact (stable_sort_Permutation (fun x y => Qle_bool (start x) (start y))
           (tasks_at obs (b :: best))).
Qed.

Lemma aco_lone_task (pow : Q -> Q -> Q) (o : Observation)
    (slew : list (list Q)) (num_ants : nat) (alpha beta evap : Q)
    (iterations top_k : nat) (g : Rng) :
  (0 < weight o)%Q -> slew_covers 1 slew = true -> 0 < num_ants -> 0 < iterations ->
  ant_colony_schedule pow [o] slew num_ants alpha beta evap iterations top_k g
    = Returns [o].
Proof.
  intros Hw Hcov Hants Hiter.
  destruct (schedule_total pow [o] slew num_ants alpha beta evap iterations top_k g
              Hcov) as [sched Haco].
  rewrite Haco. f_equal.
  pose proof (aco_returned_nonempty pow [o] slew num_ants alpha beta evap iterations
                top_k g sched ltac:(simpl; lia) Hants Hiter
                ltac:(by repeat constructor) Haco) as Hne.
  destruct (aco_schedule_indices pow [o] slew num_ants alpha beta evap iterations
              top_k g sched Haco) as (idxs & Hnd & Hlt & Hp).
  destruct idxs as [|i idxs].
  { apply Permutation_nil_r in Hp. done. }
  apply NoDup_cons in Hnd as [Hi Hnd].
  apply Forall_cons in Hlt as [Hi0 Hlt]. simpl in Hi0.
  destruct idxs as [|j idxs].
  - replace i with 0 in Hp by lia. by apply Permutation_singleton_r in Hp.
  - apply Forall_cons in Hlt as [Hj0 _]. simpl in Hj0.
    exfalso. apply Hi. replace j with i by lia. left.
Qed.

(** C3, amended.  Neither scheduler validates its intervals or raises an
    error on their account.  On an input that contains a task with
    end <= start, [dynamic_weighted_interval_scheduling] returns a schedule
    (the same for every fuel from the number of tasks on) or its
    reconstruction loop never terminates; and when the input is that task
    alone and its weight is positive, [ant_colony_schedule] returns the
    task as its schedule, given one ant and one iteration at least and a
    slew matrix with the entry [0][0]. *)
Theorem no_interval_validation (pow : Q -> Q -> Q) (obs : list Observation) :
  Exists (fun o => (end_ o <= start o)%Q) obs ->
  ((exists sched, forall fuel, length obs <= fuel ->
      dynamic_weighted_interval_scheduling pow fuel obs = Returns sched) \/
   (forall fuel, dynamic_weighted_interval_scheduling pow fuel obs = Diverges)) /\
  forall (o : Observation) (slew : list (list Q)) (num_ants : nat)
         (alpha beta evap : Q) (iterations top_k : nat) (g : Rng),
    obs = [o] -> (0 < weight o)%Q -> slew_covers 1 slew = true ->
    0 < num_ants -> 0 < iterations ->
    ant_colony_schedule pow obs slew num_ants alpha beta evap iterations top_k g
      = Returns [o].
Proof.
  intros _. split; [apply dp_returns_or_never|].
  intros o slew num_ants alpha beta evap iterations top_k g -> Hw Hcov Hants Hiter.
  by apply aco_lone_task.
Qed.

Lemma no_interval_validation_witness :
  Exists (fun o => (end_ o <= start o)%Q) [backwards_task] /\
  ((exists sched, forall fuel, length [backwards_task] <= fuel ->
      dynamic_weighted_interval_scheduling pow_int fuel [backwards_task]
        = Returns sched) \/
   (forall fuel,
      dynamic_weighted_interval_scheduling pow_int fuel [backwards_task] = Diverges)) /\
  ant_colony_schedule pow_int [backwards_task] [[0%Q]] 3 1 2 (3 # 10) 2 50 draws
    = Returns [backwards_task].
Proof.
  assert (H : Exists (fun o => (end_ o <= start o)%Q) [backwards_task]).
  { constructor. by vm_compute. }
  split; [exact H|].
  destruct (no_interval_validation pow_int [backwards_task] H) as [Hdp Haco].
  split; [exact Hdp|].
  apply (Haco backwards_task [[0%Q]] 3 1%Q 2%Q (3 # 10)%Q 2 50 draws eq_refl);
    [by vm_compute|reflexivity|lia|lia].
Defined.
